(** * RLM-MCP: the context processor and its tool handlers

    A shallow embedding of [services/context-processor.ts] (class
    [ContextProcessor]) and of the [rlm_get_chunks], [rlm_search_context],
    [rlm_read_context] and [rlm_find_all] handlers of [tools/rlm-tools.ts],
    followed by the properties of the decomposition and search engine.

    Conventions.
    - A JavaScript string is a sequence of UTF-16 code units; a code unit
      is a number [N], a string a [list N] ([text]).
    - JavaScript numbers that reach this code are integers (the tool
      schemas demand [.int()]); they are modelled by [Z].
    - A call either returns, throws, or does not finish within the
      iteration budget of the model: the type [outcome]. *)

From Stdlib Require Import String Ascii.
From Stdlib Require Import ZArith NArith Lia Bool List.
Import ListNotations.

Open Scope Z_scope.

(* ===================================================================== *)
(** * Part I: definitions                                                 *)
(* ===================================================================== *)

(** ** JavaScript values and built-ins used by the program *)

Module Js.

Definition char := N.
Definition text := list char.

(** A literal of the source, as code units. *)
Definition str (s : string) : text := map N_of_ascii (list_ascii_of_string s).

Definition LF : char := 10%N.

(** [s.length] *)
Definition len {A : Type} (l : list A) : Z := Z.of_nat (length l).

(** Errors the built-ins raise. *)
Inductive error := SyntaxError | TypeError.

Inductive outcome (A : Type) : Type :=
| Returned (a : A)
| Threw (e : error)
| OutOfFuel.

Arguments Returned {A} a.
Arguments Threw {A} e.
Arguments OutOfFuel {A}.

Definition bind {A B : Type} (m : outcome A) (k : A -> outcome B) : outcome B :=
  match m with
  | Returned a => k a
  | Threw e => Threw e
  | OutOfFuel => OutOfFuel
  end.

(** [try { body } catch (error) { handler }] *)
Definition try_catch {A : Type} (body : outcome A) (handler : error -> outcome A)
  : outcome A :=
  match body with
  | Threw e => handler e
  | other => other
  end.

(** [x || d] on an optional number: [undefined] and [0] are falsy. *)
Definition num_or (x : option Z) (d : Z) : Z :=
  match x with
  | None => d
  | Some v => if v =? 0 then d else v
  end.

(** [x || d] on an optional string: [undefined] and the empty string are falsy. *)
Definition str_or (x : option text) (d : text) : text :=
  match x with
  | None => d
  | Some [] => d
  | Some v => v
  end.

(** Relative index resolution of [Array.prototype.slice] and
    [String.prototype.slice]: a negative index counts from the end, and the
    result is clamped to [0, n]. *)
Definition rel_index (n k : Z) : Z :=
  if k <? 0 then Z.max (n + k) 0 else Z.min k n.

(** [l.slice(s, e)], for strings and arrays alike. *)
Definition slice {A : Type} (l : list A) (s e : Z) : list A :=
  let from := rel_index (len l) s in
  let to := rel_index (len l) e in
  firstn (Z.to_nat (to - from)) (skipn (Z.to_nat from) l).

(** Code-unit equality of two strings. *)
Fixpoint text_eqb (a b : text) : bool :=
  match a, b with
  | [], [] => true
  | x :: a', y :: b' => (x =? y)%N && text_eqb a' b'
  | _, _ => false
  end.

(** Does [t] occur in [s] at position 0? *)
Fixpoint starts_with (s t : text) : bool :=
  match t, s with
  | [], _ => true
  | y :: t', x :: s' => (x =? y)%N && starts_with s' t'
  | _ :: _, [] => false
  end.

(** First position [>= 0] of [s] at which [t] occurs, [None] when there is none. *)
Fixpoint index_in (s t : text) : option nat :=
  if starts_with s t then Some O
  else match s with
       | [] => None
       | _ :: s' => option_map S (index_in s' t)
       end.

(** [s.indexOf(t, from)]: [from] is clamped to [0, s.length]; the result
    is [-1] when [t] does not occur at or after it. *)
Definition indexOf (s t : text) (from : Z) : Z :=
  let k := Z.to_nat (Z.min (Z.max from 0) (len s)) in
  match index_in (skipn k s) t with
  | Some i => Z.of_nat (k + i)
  | None => -1
  end.

(** [WhiteSpace] and [LineTerminator] code units: what [\s] matches and
    what [trim] strips. *)
Definition is_space (c : char) : bool :=
  ((9 <=? c) && (c <=? 13) || (c =? 32) || (c =? 160) || (c =? 5760)
   || (8192 <=? c) && (c <=? 8202) || (c =? 8232) || (c =? 8233)
   || (c =? 8239) || (c =? 8287) || (c =? 12288) || (c =? 65279))%N.

(** [LineTerminator]: what [.] refuses and where [^] and [$] anchor under
    the [m] flag. *)
Definition is_line_terminator (c : char) : bool :=
  ((c =? 10) || (c =? 13) || (c =? 8232) || (c =? 8233))%N.

Fixpoint trimStart (s : text) : text :=
  match s with
  | c :: s' => if is_space c then trimStart s' else s
  | [] => []
  end.

Definition trimEnd (s : text) : text := rev (trimStart (rev s)).

(** [s.trim()] *)
Definition trim (s : text) : text := trimEnd (trimStart s).

(** Truthiness of a string: non-empty. *)
Definition truthy (s : text) : bool :=
  match s with [] => false | _ => true end.

(** [s.split('\n')] *)
Fixpoint split_lines (s : text) : list text :=
  match s with
  | [] => [[]]
  | c :: s' =>
      if (c =? LF)%N then [] :: split_lines s'
      else match split_lines s' with
           | l :: ls => (c :: l) :: ls
           | [] => [[c]]
           end
  end.

(** [a.join('\n')] *)
Fixpoint join_lines (a : list text) : text :=
  match a with
  | [] => []
  | [l] => l
  | l :: a' => l ++ LF :: join_lines a'
  end.

(** A number that a division may produce. *)
Inductive number := Finite (z : Z) | PosInfinity | NaN.

(** [Math.round(a / b)] for integers [a >= 0] and [b >= 0]: [0 / 0] is
    [NaN], [a / 0] is [Infinity]; otherwise the quotient rounded to the
    nearest integer, halves up.  (The operands are lengths, far below
    2^52, where the rounded quotient of the floating-point division is
    the one of the exact division.) *)
Definition round_div (a b : Z) : number :=
  if b =? 0 then (if a =? 0 then NaN else PosInfinity)
  else Finite ((2 * a + b) / (2 * b)).

End Js.

Import Js.

Notation "x <- m ;; k" := (bind m (fun x => k))
  (at level 61, m at next level, right associativity).

(** ** Data model (types.ts) *)

(** Modelled from the spec: [types.ts] is not among the sources.  The six
    members are the ones the [switch] of [decompose] names, the six
    strategies of section 4.1 of the specification. *)
Inductive DecompositionStrategy :=
| FIXED_SIZE | BY_LINES | BY_PARAGRAPHS | BY_SECTIONS | BY_REGEX | BY_SENTENCES.

(** The [metadata] objects the decomposer attaches. *)
Inductive Metadata :=
| LineRange (startLine endLine : Z)
| PreambleTag
| SectionTag (level : Z) (title : text).

(** Modelled from the spec: the interface [Chunk] of [types.ts], with the
    fields the decomposer writes (section 3 of the specification). *)
Record Chunk := mkChunk {
  index : Z;
  content : text;
  startOffset : Z;
  endOffset : Z;
  metadata : option Metadata
}.

(** The [options] argument of [decompose]. *)
Record Options := mkOptions {
  chunkSize : option Z;
  overlap : option Z;
  linesPerChunk : option Z;
  separator : option text;
  pattern : option text
}.

(** constants.ts *)
Definition DEFAULT_CHUNK_SIZE : Z := 10000.
Definition DEFAULT_OVERLAP : Z := 200.
Definition DEFAULT_LINES_PER_CHUNK : Z := 100.
Definition MAX_SEARCH_RESULTS : Z := 500.

(** ** Regular expressions *)

Module Regex.

(** *** The three pattern literals of the source

    Each literal is given as the matcher the engine runs at one position:
    from the code unit before the position ([None] at the start of the
    input) and the input from the position on, the match found there. *)

Record Found := mkFound {
  found_length : nat;            (* length of [match[0]] *)
  found_groups : list text       (* the captures [match[1]], [match[2]], ... *)
}.

Definition matcher := option char -> text -> option Found.

(** Longest prefix of [s] whose code units satisfy [p], and the rest:
    what a greedy [c+] or [c*] over a character class takes first. *)
Fixpoint span (p : char -> bool) (s : text) : text * text :=
  match s with
  | c :: s' => if p c then let (a, b) := span p s' in (c :: a, b) else ([], s)
  | [] => ([], [])
  end.

Definition is_hash (c : char) : bool := (c =? 35)%N.

(** [.], without the [s] flag. *)
Definition is_dot (c : char) : bool := negb (is_line_terminator c).

(** [^] under the [m] flag: the start of the input or just after a line
    terminator. *)
Definition at_line_start (prev : option char) : bool :=
  match prev with
  | None => true
  | Some c => is_line_terminator c
  end.

(** Number of code units the greedy [\s+] keeps when the white-space run
    [ws] reaches the end of the input: it gives code units back until the
    one that follows can start the title [(.+)], so it keeps all the code
    units before the last one of [ws] that is no line terminator, and at
    least one. [None] when the run has no such code unit after its first. *)
Fixpoint last_dot_after_first (ws : text) (pos : nat) (best : option nat) : option nat :=
  match ws with
  | [] => best
  | c :: ws' =>
      last_dot_after_first ws' (S pos)
        (if is_dot c && negb (Nat.eqb pos 0) then Some pos else best)
  end.

(** [/^(#{1,6})\s+(.+)$/gm] at one position.
    - [^]: the position starts a line;
    - [(#{1,6})]: the whole run of [#], which must be 1 to 6 long, since
      the next code unit has to be white space;
    - [\s+]: the white-space run, at least one code unit;
    - [(.+)$]: what follows up to the end of the line, at least one code
      unit; when the white-space run ends the input, [\s+] backtracks (see
      [last_dot_after_first]) and the title is one code unit of that run. *)
Definition section_at : matcher := fun prev s =>
  if at_line_start prev then
    let (hashes, r) := span is_hash s in
    if ((1 <=? length hashes) && (length hashes <=? 6))%nat then
      let (ws, after) := span is_space r in
      match ws, after with
      | [], _ => None
      | _ :: _, _ :: _ =>
          let (title, _) := span is_dot after in
          Some (mkFound (length hashes + length ws + length title) [hashes; title])
      | _ :: _, [] =>
          match last_dot_after_first ws 0 None with
          | Some j =>
              let (title, _) := span is_dot (skipn j ws) in
              Some (mkFound (length hashes + j + length title) [hashes; title])
          | None => None
          end
      end
    else None
  else None.

Definition is_terminator (c : char) : bool :=
  ((c =? 46) || (c =? 33) || (c =? 63))%N.     (* . ! ? *)

(** [/[^.!?]+[.!?]+\s*/g] at one position: the run of code units other
    than [.!?], at least one, which a terminator must follow; then the run
    of terminators; then the run of white space. *)
Definition sentence_at : matcher := fun _ s =>
  let (body, r) := span (fun c => negb (is_terminator c)) s in
  match body, r with
  | _ :: _, _ :: _ =>
      let (marks, r') := span is_terminator r in
      let (ws, _) := span is_space r' in
      Some (mkFound (length body + length marks + length ws) [])
  | _, _ => None
  end.

(** Leftmost match at or after a position: the engine tries the position,
    then the next one, up to the end of the input (included). *)
Fixpoint exec_from (m : matcher) (prev : option char) (s : text) (pos : nat)
  : option (nat * Found) :=
  match m prev s with
  | Some f => Some (pos, f)
  | None =>
      match s with
      | [] => None
      | c :: s' => exec_from m (Some c) s' (S pos)
      end
  end.

(** The code unit before position [k], if any. *)
Definition char_before (s : text) (k : nat) : option char :=
  match k with
  | O => None
  | S j => nth_error s j
  end.

(** [regex.exec(content)] on a [g] regex whose [lastIndex] is [lastIndex]:
    the index of the match and the match; the new [lastIndex] is their
    sum. [None] is [null]. *)
Definition exec (m : matcher) (s : text) (lastIndex : nat) : option (nat * Found) :=
  if (lastIndex <=? length s)%nat
  then exec_from m (char_before s lastIndex) (skipn lastIndex s) lastIndex
  else None.

(** [while ((match = regex.exec(content)) !== null) { ... }]: all the
    matches, left to right. *)
Fixpoint exec_all (fuel : nat) (m : matcher) (s : text) (lastIndex : nat)
  : outcome (list (nat * Found)) :=
  match fuel with
  | O => OutOfFuel
  | S fuel' =>
      match exec m s lastIndex with
      | None => Returned []
      | Some (i, f) =>
          rest <- exec_all fuel' m s (i + found_length f) ;;
          Returned ((i, f) :: rest)
      end
  end.

(** [s.split(/\n\n+/)]: the separators are the maximal runs of two or
    more line feeds. The head of the result is the piece being read;
    [in_sep] tells that the code units just before belong to a separator,
    which the greedy [+] extends over any further line feed. *)
Fixpoint split_blank (s : text) (in_sep : bool) : list text :=
  match s with
  | [] => [[]]
  | c :: s' =>
      if in_sep && (c =? LF)%N then split_blank s' true
      else
        match s' with
        | c' :: s'' =>
            if (c =? LF)%N && (c' =? LF)%N then [] :: split_blank s'' true
            else match split_blank s' false with
                 | p :: ps => (c :: p) :: ps
                 | [] => [[c]]
                 end
        | [] => [[c]]
        end
  end.

Definition split_blank_lines (s : text) : list text := split_blank s false.

(** *** Patterns supplied by the caller

    [new RegExp(pattern, flags)], [String.prototype.split] with a regex and
    [RegExp.prototype.exec] are the JavaScript engine's; the program is
    modelled over any engine with this interface. *)

Record ExecResult := mkExecResult {
  matched : text;                      (* match[0] *)
  match_index : Z;                     (* match.index *)
  captures : list (option text)        (* match.slice(1) *)
}.

Record Engine := mkEngine {
  RegExp : Type;
  (** [new RegExp(pattern, flags)]; [None]: the constructor throws a [SyntaxError]. *)
  RegExp_new : text -> text -> option RegExp;
  (** [content.split(regex)]; an array element is [None] where [split]
      leaves [undefined] (a capture group that did not take part). *)
  RegExp_split : RegExp -> text -> list (option text);
  (** [regex.exec(content)] from a given [lastIndex]: the result ([None]
      is [null]) and the [lastIndex] the call leaves. *)
  RegExp_exec : RegExp -> text -> Z -> option ExecResult * Z
}.

(** [s.split(/c+/)] for a character class [c], here as the predicate
    [p]: the separators are the maximal runs of code units of the class.
    As in [split_blank], the head of the result is the piece being read
    and [in_sep] tells that the code unit just before was a separator's. *)
Fixpoint split_class (p : char -> bool) (s : text) (in_sep : bool) : list text :=
  match s with
  | [] => [[]]
  | c :: s' =>
      if p c then
        (if in_sep then split_class p s' true else [] :: split_class p s' true)
      else match split_class p s' false with
           | q :: qs => (c :: q) :: qs
           | [] => [[c]]
           end
  end.

End Regex.

Import Regex.

(** ** The class [ContextProcessor] (services/context-processor.ts) *)

Module ContextProcessor.

(** *** [decomposeBySize]: fixed-size chunking with overlap *)

Fixpoint decomposeBySize_loop (fuel : nat) (content : text) (chunkSize overlap : Z)
  (index offset : Z) : outcome (list Chunk) :=
  match fuel with
  | O => OutOfFuel
  | S fuel' =>
      if offset <? len content then
        let end_ := Z.min (offset + chunkSize) (len content) in
        let chunk := mkChunk index (slice content offset end_) offset end_ None in
        (* Prevent infinite loop *)
        if chunkSize - overlap <=? 0 then Returned [chunk]
        else
          rest <- decomposeBySize_loop fuel' content chunkSize overlap
                    (index + 1) (offset + (chunkSize - overlap)) ;;
          Returned (chunk :: rest)
      else Returned []
  end.

Definition decomposeBySize (content : text) (chunkSize overlap : Z)
  : outcome (list Chunk) :=
  decomposeBySize_loop (S (length content)) content chunkSize overlap 0 0.

(** *** [decomposeByLines]: chunk by lines *)

(** The inner [for] loop: the lengths, plus one for the newline, of the
    lines [lineIndex + i] for [i < advanceLines] that exist. *)
Definition advance_offset (lines : list text) (lineIndex advanceLines charOffset : Z) : Z :=
  fold_left (fun acc line => acc + (len line + 1))
            (firstn (Z.to_nat advanceLines) (skipn (Z.to_nat lineIndex) lines))
            charOffset.

Fixpoint decomposeByLines_loop (fuel : nat) (lines : list text)
  (linesPerChunk overlapLines : Z) (index lineIndex charOffset : Z)
  : outcome (list Chunk) :=
  match fuel with
  | O => OutOfFuel
  | S fuel' =>
      if lineIndex <? len lines then
        let chunkLines := slice lines lineIndex (lineIndex + linesPerChunk) in
        let chunkContent := join_lines chunkLines in
        let endOffset := charOffset + len chunkContent in
        let chunk :=
          mkChunk index chunkContent charOffset endOffset
            (Some (LineRange lineIndex
                     (Z.min (lineIndex + linesPerChunk) (len lines) - 1))) in
        (* Calculate next position *)
        let advanceLines := Z.max 1 (linesPerChunk - overlapLines) in
        rest <- decomposeByLines_loop fuel' lines linesPerChunk overlapLines
                  (index + 1) (lineIndex + advanceLines)
                  (advance_offset lines lineIndex advanceLines charOffset) ;;
        Returned (chunk :: rest)
      else Returned []
  end.

Definition decomposeByLines (content : text) (linesPerChunk overlapLines : Z)
  : outcome (list Chunk) :=
  let lines := split_lines content in
  decomposeByLines_loop (S (length lines)) lines linesPerChunk overlapLines 0 0 0.

(** *** [decomposeByParagraphs]: chunk on runs of blank lines *)

(** [paragraphs.forEach((para, index) => { ... })]: [index] is the position
    of [para] in [paragraphs], [offset] the variable the callback updates. *)
Fixpoint decomposeByParagraphs_forEach (content : text) (paragraphs : list text)
  (index offset : Z) : list Chunk :=
  match paragraphs with
  | [] => []
  | para :: rest =>
      if truthy (trim para) then
        let startOffset := indexOf content para offset in
        mkChunk index (trim para) startOffset (startOffset + len para) None
        :: decomposeByParagraphs_forEach content rest (index + 1) (startOffset + len para)
      else decomposeByParagraphs_forEach content rest (index + 1) offset
  end.

Definition decomposeByParagraphs (content : text) : list Chunk :=
  decomposeByParagraphs_forEach content (split_blank_lines content) 0 0.

(** *** [decomposeBySections]: chunk on Markdown headers *)

Record SectionMatch := mkSectionMatch {
  start : Z;
  level : Z;
  title : text
}.

Definition to_SectionMatch (m : nat * Found) : SectionMatch :=
  mkSectionMatch (Z.of_nat (fst m))
                 (len (nth 0 (found_groups (snd m)) []))
                 (nth 1 (found_groups (snd m)) []).

(** The [for] loop over [matches]. *)
Fixpoint decomposeBySections_loop (content : text) (matches : list SectionMatch)
  (index : Z) : list Chunk :=
  match matches with
  | [] => []
  | current :: rest =>
      let endOffset :=
        match rest with
        | next :: _ => start next
        | [] => len content
        end in
      mkChunk index (trim (slice content (start current) endOffset))
              (start current) endOffset
              (Some (SectionTag (level current) (title current)))
      :: decomposeBySections_loop content rest (index + 1)
  end.

Definition decomposeBySections (content : text) : outcome (list Chunk) :=
  found <- exec_all (S (length content)) section_at content 0 ;;
  let matches := map to_SectionMatch found in
  match matches with
  | [] =>
      (* If no sections found, return as single chunk *)
      Returned [mkChunk 0 content 0 (len content) None]
  | first :: _ =>
      (* Add content before first section if any *)
      let preContent := trim (slice content 0 (start first)) in
      if (0 <? start first) && truthy preContent then
        Returned (mkChunk 0 preContent 0 (start first) (Some PreambleTag)
                  :: decomposeBySections_loop content matches 1)
      else Returned (decomposeBySections_loop content matches 0)
  end.

(** *** [decomposeByRegex]: chunk on a caller-supplied pattern *)

(** [parts.forEach((part, index) => { ... })]; [part.trim()] throws a
    [TypeError] on an [undefined] element. *)
Fixpoint decomposeByRegex_forEach (content : text) (parts : list (option text))
  (index offset : Z) : outcome (list Chunk) :=
  match parts with
  | [] => Returned []
  | None :: _ => Threw TypeError
  | Some part :: rest =>
      if truthy (trim part) then
        let startOffset := indexOf content part offset in
        more <- decomposeByRegex_forEach content rest (index + 1)
                  (startOffset + len part) ;;
        Returned (mkChunk index (trim part) startOffset (startOffset + len part) None
                  :: more)
      else decomposeByRegex_forEach content rest (index + 1) offset
  end.

Definition decomposeByRegex (E : Engine) (content pattern : text)
  : outcome (list Chunk) :=
  match RegExp_new E pattern (str "g") with
  | None => Threw SyntaxError
  | Some regex => decomposeByRegex_forEach content (RegExp_split E regex content) 0 0
  end.

(** *** [decomposeBySentences]: chunk by sentences *)

(** The body of the [while] loop, for the matches in order. *)
Fixpoint decomposeBySentences_loop (content : text) (found : list (nat * Found))
  (index : Z) : list Chunk :=
  match found with
  | [] => []
  | (i, f) :: rest =>
      let match0 := firstn (found_length f) (skipn i content) in
      mkChunk index (trim match0) (Z.of_nat i) (Z.of_nat i + len match0) None
      :: decomposeBySentences_loop content rest (index + 1)
  end.

Definition decomposeBySentences (content : text) : outcome (list Chunk) :=
  found <- exec_all (S (length content)) sentence_at content 0 ;;
  let sentences := decomposeBySentences_loop content found 0 in
  (* Handle content without sentence endings *)
  match sentences with
  | [] =>
      if truthy (trim content)
      then Returned [mkChunk 0 (trim content) 0 (len content) None]
      else Returned sentences
  | _ :: _ => Returned sentences
  end.

(** The pattern [decompose] falls back on: the three code units of the
    string literal ['\n\n+']. *)
Definition default_pattern : text := [LF; LF; 43%N].

(** *** [decompose]: dispatch on the strategy

    The [default:] arm of the [switch] is for values outside the
    enumeration and has no counterpart here. *)
Definition decompose (E : Engine) (content : text) (strategy : DecompositionStrategy)
  (options : Options) : outcome (list Chunk) :=
  match strategy with
  | FIXED_SIZE =>
      decomposeBySize content
        (num_or (chunkSize options) DEFAULT_CHUNK_SIZE)
        (num_or (overlap options) DEFAULT_OVERLAP)
  | BY_LINES =>
      decomposeByLines content
        (num_or (linesPerChunk options) DEFAULT_LINES_PER_CHUNK)
        (num_or (overlap options) 10)
  | BY_PARAGRAPHS => Returned (decomposeByParagraphs content)
  | BY_SECTIONS => decomposeBySections content
  | BY_REGEX => decomposeByRegex E content (str_or (pattern options) default_pattern)
  | BY_SENTENCES => decomposeBySentences content
  end.

(** *** [search]: regex search with context *)

Record SearchMatch := mkSearchMatch {
  sm_match : text;
  sm_index : Z;
  sm_lineNumber : Z;
  sm_context : text;
  sm_groups : list (option text)
}.

(** The [while] loop: [exec] runs before the test on [results.length]. *)
Fixpoint search_loop (fuel : nat) (E : Engine) (regex : RegExp E) (content : text)
  (contextChars maxResults : Z) (includeLineNumbers : bool)
  (lastIndex : Z) (count : Z) : outcome (list SearchMatch) :=
  match fuel with
  | O => OutOfFuel
  | S fuel' =>
      match RegExp_exec E regex content lastIndex with
      | (None, _) => Returned []
      | (Some m, lastIndex') =>
          if count <? maxResults then
            let start := Z.max 0 (match_index m - contextChars) in
            let end_ := Z.min (len content)
                              (match_index m + len (matched m) + contextChars) in
            let lineNumber :=
              if includeLineNumbers
              then len (split_lines (slice content 0 (match_index m)))
              else 0 in
            let result :=
              mkSearchMatch (matched m) (match_index m) lineNumber
                            (slice content start end_) (captures m) in
            (* Prevent infinite loop with zero-length matches *)
            let lastIndex'' :=
              if len (matched m) =? 0 then lastIndex' + 1 else lastIndex' in
            rest <- search_loop fuel' E regex content contextChars maxResults
                      includeLineNumbers lastIndex'' (count + 1) ;;
            Returned (result :: rest)
          else Returned []
      end
  end.

Record SearchOptions := mkSearchOptions {
  flags : option text;
  contextChars : option Z;
  maxResults : option Z;
  includeLineNumbers : option bool
}.

(** A destructuring default [x = d]: only [undefined] takes the default. *)
Definition default_to {A : Type} (x : option A) (d : A) : A :=
  match x with
  | Some v => v
  | None => d
  end.

(** [results] is empty when [new RegExp] throws, the only statement of
    the [try] block that can: the empty [catch] then falls through to
    [return results]. *)
Definition search (E : Engine) (content pattern : text) (options : SearchOptions)
  : outcome (list SearchMatch) :=
  let flags := default_to (flags options) (str "gi") in
  let contextChars := default_to (contextChars options) 100 in
  let maxResults := default_to (maxResults options) MAX_SEARCH_RESULTS in
  let includeLineNumbers := default_to (includeLineNumbers options) true in
  try_catch
    (match RegExp_new E pattern flags with
     | None => Threw SyntaxError
     | Some regex =>
         search_loop (S (Z.to_nat maxResults)) E regex content contextChars
                     maxResults includeLineNumbers 0 0
     end)
    (fun _ => (* Invalid regex - return empty results *) Returned []).

(** *** [findAll]: all occurrences of a substring

    [toLowerCase] is the engine's [String.prototype.toLowerCase].  The
    array [indices] has no bound on its length here: a run that outgrows
    what the engine can hold, which only the empty search term brings
    about, ends there by an error of the engine and here by the lack of
    fuel; in neither does the call return. *)

Fixpoint findAll_loop (fuel : nat) (searchContent searchTerm : text) (index : Z)
  : outcome (list Z) :=
  match fuel with
  | O => OutOfFuel
  | S fuel' =>
      let index' := indexOf searchContent searchTerm index in
      if index' =? -1 then Returned []
      else
        rest <- findAll_loop fuel' searchContent searchTerm (index' + len searchTerm) ;;
        Returned (index' :: rest)
  end.

Definition findAll (toLowerCase : text -> text) (content substring : text)
  (caseSensitive : bool) : outcome (list Z) :=
  let searchContent := if caseSensitive then content else toLowerCase content in
  let searchTerm := if caseSensitive then substring else toLowerCase substring in
  findAll_loop (S (S (length searchContent))) searchContent searchTerm 0.

(** *** [extractLines], [extractRange] *)

Definition extractLines (content : text) (startLine : Z) (endLine : option Z) : text :=
  let lines := split_lines content in
  let end_ :=
    match endLine with
    | Some e => e + 1
    | None => startLine + 1
    end in
  join_lines (slice lines startLine end_).

Definition extractRange (content : text) (start end_ : Z) : text :=
  slice content start end_.

(** *** [getStatistics] *)

Record Statistics := mkStatistics {
  st_length : Z;
  st_lineCount : Z;
  st_wordCount : Z;
  st_sentenceCount : Z;
  st_paragraphCount : Z;
  st_avgLineLength : number;
  st_avgWordLength : number
}.

Definition getStatistics (content : text) : Statistics :=
  let lines := split_lines content in
  let words := filter (fun w => 0 <? len w) (split_class is_space content false) in
  let sentences :=
    filter (fun s => 0 <? len (trim s)) (split_class is_terminator content false) in
  let paragraphs :=
    filter (fun p => 0 <? len (trim p)) (split_blank_lines content) in
  mkStatistics (len content) (len lines) (len words) (len sentences) (len paragraphs)
               (round_div (len content) (len lines))
               (round_div (len (concat words)) (len words)).

(** *** [suggestStrategy] *)

(** Modelled from the spec: the enum [StructureType] of [types.ts] is not
    among the sources.  [suggestStrategy] names five members; section 2 of
    the specification lists the tags JSON, CSV, Markdown, Code, Log and
    Plain.  The function treats every member it does not name alike. *)
Inductive StructureType := JSON | CSV | MARKDOWN | CODE | LOG | PLAIN_TEXT.

Record Suggestion := mkSuggestion {
  sg_strategy : DecompositionStrategy;
  sg_reason : text;
  sg_options : Options
}.

Definition suggestStrategy (content : text) (structure : StructureType) : Suggestion :=
  let stats := getStatistics content in
  match structure with
  | JSON =>
      mkSuggestion FIXED_SIZE
        (str "JSON data works best with fixed-size chunks to avoid breaking structure")
        (mkOptions (Some 20000) (Some 500) None None None)
  | CSV =>
      mkSuggestion BY_LINES
        (str "CSV data should be chunked by rows to preserve record integrity")
        (mkOptions None (Some 0) (Some 200) None None)
  | MARKDOWN =>
      mkSuggestion BY_SECTIONS
        (str "Markdown content has natural section boundaries")
        (mkOptions None None None None None)
  | CODE =>
      mkSuggestion BY_LINES
        (str "Code should be chunked by lines to preserve context")
        (mkOptions None (Some 20) (Some 100) None None)
  | LOG =>
      mkSuggestion BY_LINES
        (str "Log files are naturally line-based")
        (mkOptions None (Some 50) (Some 500) None None)
  | PLAIN_TEXT =>
      (* For plain text *)
      if 10 <? st_paragraphCount stats then
        mkSuggestion BY_PARAGRAPHS
          (str "Document has clear paragraph structure")
          (mkOptions None None None None None)
      else if 50000 <? st_length stats then
        mkSuggestion FIXED_SIZE
          (str "Large document requires fixed-size chunking")
          (mkOptions (Some 10000) (Some 200) None None None)
      else
        mkSuggestion BY_SENTENCES
          (str "Default to sentence-based chunking for general text")
          (mkOptions None None None None None)
  end.

End ContextProcessor.

Import ContextProcessor.

(** ** The tool handlers (tools/rlm-tools.ts) *)

Module Tools.

(** A loaded context.  The session manager is not among the sources: a
    handler is modelled from the point where
    [session?.contexts.get(params.context_id)] has been evaluated, with
    [None] for [undefined]. *)
Record Context := mkContext {
  context_id : text;
  context_content : text
}.

(** *** [rlm_get_chunks] *)

Record GetChunksInput := mkGetChunksInput {
  gc_context_id : text;
  gc_chunk_indices : list Z;
  gc_strategy : DecompositionStrategy;
  gc_chunk_size : Z;
  gc_overlap : Z
}.

Record ChunkView := mkChunkView {
  cv_index : Z;
  cv_content : text;
  cv_start_offset : Z;
  cv_end_offset : Z
}.

Record GetChunksOutput := mkGetChunksOutput {
  requested : Z;
  returned : Z;
  chunks : list ChunkView
}.

Inductive GetChunksResponse :=
| GetChunksNotFound (id : text)          (* Error: Context "id" not found *)
| GetChunksOk (output : GetChunksOutput).

(** [allChunks[i]]; reading a field of [undefined] throws a [TypeError]. *)
Definition chunk_at (allChunks : list Chunk) (i : Z) : outcome Chunk :=
  match (if i <? 0 then None else nth_error allChunks (Z.to_nat i)) with
  | Some c => Returned c
  | None => Threw TypeError
  end.

(** [.map(i => ({ index: i, content: allChunks[i].content, ... }))] *)
Fixpoint view_chunks (allChunks : list Chunk) (indices : list Z)
  : outcome (list ChunkView) :=
  match indices with
  | [] => Returned []
  | i :: rest =>
      c <- chunk_at allChunks i ;;
      more <- view_chunks allChunks rest ;;
      Returned (mkChunkView i (content c) (startOffset c) (endOffset c) :: more)
  end.

Definition in_range (allChunks : list Chunk) (i : Z) : bool :=
  (0 <=? i) && (i <? len allChunks).

Definition rlm_get_chunks (E : Engine) (context : option Context)
  (params : GetChunksInput) : outcome GetChunksResponse :=
  match context with
  | None => Returned (GetChunksNotFound (gc_context_id params))
  | Some ctx =>
      (* Re-decompose to get chunks *)
      allChunks <- decompose E (context_content ctx) (gc_strategy params)
                     (mkOptions (Some (gc_chunk_size params))
                                (Some (gc_overlap params)) None None None) ;;
      (* Get requested chunks *)
      chunks <- view_chunks allChunks
                  (filter (in_range allChunks) (gc_chunk_indices params)) ;;
      Returned (GetChunksOk
                  (mkGetChunksOutput (len (gc_chunk_indices params)) (len chunks) chunks))
  end.

(** *** [rlm_search_context] *)

Record SearchContextInput := mkSearchContextInput {
  sc_context_id : text;
  sc_pattern : text;
  sc_flags : text;
  sc_context_chars : Z;
  sc_max_results : Z;
  sc_include_line_numbers : bool
}.

Record SearchOutput := mkSearchOutput {
  so_pattern : text;
  total_matches : Z;
  matches : list SearchMatch
}.

Inductive SearchResponse :=
| SearchNotFound (id : text)             (* Error: Context "id" not found *)
| SearchOk (output : SearchOutput)
| SearchInvalidPattern (e : error).      (* Error: Invalid regex pattern - e *)

Definition rlm_search_context (E : Engine) (context : option Context)
  (params : SearchContextInput) : outcome SearchResponse :=
  match context with
  | None => Returned (SearchNotFound (sc_context_id params))
  | Some ctx =>
      try_catch
        (matches <- search E (context_content ctx) (sc_pattern params)
                      (mkSearchOptions (Some (sc_flags params))
                                       (Some (sc_context_chars params))
                                       (Some (sc_max_results params))
                                       (Some (sc_include_line_numbers params))) ;;
         Returned (SearchOk (mkSearchOutput (sc_pattern params) (len matches) matches)))
        (fun e => Returned (SearchInvalidPattern e))
  end.

(** *** [rlm_read_context] *)

Inductive ReadMode := chars | lines.

Record ReadContextInput := mkReadContextInput {
  rc_context_id : text;
  rc_start : Z;
  rc_end : option Z;
  rc_mode : ReadMode
}.

Record ReadOutput := mkReadOutput {
  ro_content : text;
  ro_start : Z;
  ro_end : option Z;
  ro_mode : ReadMode;
  ro_length : Z
}.

Inductive ReadResponse :=
| ReadNotFound (id : text)               (* Error: Context "id" not found *)
| ReadOk (output : ReadOutput).

Definition rlm_read_context (context : option Context) (params : ReadContextInput)
  : ReadResponse :=
  match context with
  | None => ReadNotFound (rc_context_id params)
  | Some ctx =>
      let content :=
        match rc_mode params with
        | lines => extractLines (context_content ctx) (rc_start params) (rc_end params)
        | chars =>
            extractRange (context_content ctx) (rc_start params)
                         (num_or (rc_end params) (len (context_content ctx)))
        end in
      ReadOk (mkReadOutput content (rc_start params) (rc_end params)
                           (rc_mode params) (len content))
  end.

(** *** [rlm_find_all] *)

Record FindAllInput := mkFindAllInput {
  fa_context_id : text;
  fa_substring : text;
  fa_case_sensitive : bool
}.

Record FindAllOutput := mkFindAllOutput {
  fo_substring : text;
  fo_case_sensitive : bool;
  fo_count : Z;
  fo_offsets : list Z
}.

Inductive FindAllResponse :=
| FindAllNotFound (id : text)            (* Error: Context "id" not found *)
| FindAllOk (output : FindAllOutput).

Definition rlm_find_all (toLowerCase : text -> text) (context : option Context)
  (params : FindAllInput) : outcome FindAllResponse :=
  match context with
  | None => Returned (FindAllNotFound (fa_context_id params))
  | Some ctx =>
      indices <- findAll toLowerCase (context_content ctx) (fa_substring params)
                         (fa_case_sensitive params) ;;
      Returned (FindAllOk (mkFindAllOutput (fa_substring params)
                                           (fa_case_sensitive params)
                                           (len indices) indices))
  end.

End Tools.

Import Tools.

(** ** Instances of the engine's built-ins, for running the model *)

Module Sample.

(** [/\n\n+/] at one position: two line feeds, then the run of line feeds. *)
Definition blank_at : matcher := fun _ s =>
  match s with
  | c :: c' :: r =>
      if (c =? LF)%N && (c' =? LF)%N
      then let (more, _) := span (fun x => (x =? LF)%N) r in
           Some (mkFound (2 + length more) [])
      else None
  | _ => None
  end.

(** Is [g] among the flags? *)
Definition is_global (flags : text) : bool := existsb (fun c => (c =? 103)%N) flags.

(** The engine cut down to the one pattern the program itself supplies,
    ['\n\n+']: [new RegExp] accepts it and throws on any other pattern
    (as JavaScript's does on ["("], the pattern of the examples).  The
    compiled regex is its [global] flag. *)
Definition blank_engine : Engine :=
  mkEngine bool
    (fun pattern flags =>
       if text_eqb pattern default_pattern then Some (is_global flags) else None)
    (fun _ content => map Some (split_blank_lines content))
    (fun global content lastIndex =>
       let from := if global then lastIndex else 0 in
       if (from <? 0) || (len content <? from) then (None, 0)
       else
         match exec blank_at content (Z.to_nat from) with
         | Some (i, f) =>
             (Some (mkExecResult (firstn (found_length f) (skipn i content))
                                 (Z.of_nat i) []),
              if global then Z.of_nat (i + found_length f) else lastIndex)
         | None => (None, if global then 0 else lastIndex)
         end).

(** [toLowerCase] on the ASCII letters, the other code units unchanged. *)
Definition ascii_lower (s : text) : text :=
  map (fun c => if ((65 <=? c) && (c <=? 90))%N then (c + 32)%N else c) s.

End Sample.

(** ** Vocabulary of the properties *)

(** The offsets of a chunk lie in the source text, in order. *)
Definition in_bounds (source : text) (c : Chunk) : Prop :=
  0 <= startOffset c /\ startOffset c <= endOffset c /\ endOffset c <= len source.

(** The k-th chunk has index [first + k]. *)
Fixpoint indexed_from (first : Z) (cs : list Chunk) : Prop :=
  match cs with
  | [] => True
  | c :: cs' => index c = first /\ indexed_from (first + 1) cs'
  end.

(** Start offsets never decrease along the sequence. *)
Fixpoint starts_sorted (cs : list Chunk) : Prop :=
  match cs with
  | c :: ((c' :: _) as cs') => startOffset c <= startOffset c' /\ starts_sorted cs'
  | _ => True
  end.

(** [parts] are successive, non-overlapping substrings of [source], the
    first one at position [k]: what [split] returns for a pattern without
    capture groups. *)
Fixpoint pieces (source : text) (k : nat) (parts : list text) : Prop :=
  match parts with
  | [] => True
  | p :: ps =>
      firstn (length p) (skipn k source) = p /\
      (k + length p <= length source)%nat /\
      match ps with
      | [] => True
      | _ :: _ => exists k', (k + length p <= k')%nat /\ pieces source k' ps
      end
  end.

(** A header starts at position [p] of [source], as the pattern
    [/^(#{1,6})\s+(.+)$/gm] sees it: [p] starts a line; [k] markers [#],
    1 to 6; then [j] code units of white space, at least one; then a code
    unit that can start the title.  The white space is that of [\s]: it
    may hold tabs and line breaks, so the title may stand on a later line
    than the markers. *)
Definition header_at (source : text) (p : nat) : Prop :=
  at_line_start (char_before source p) = true /\
  exists k j c,
    (1 <= k <= 6)%nat /\
    (forall i, (i < k)%nat -> nth_error source (p + i) = Some 35%N) /\
    (1 <= j)%nat /\
    (forall i, (i < j)%nat ->
       exists w, nth_error source (p + k + i) = Some w /\ is_space w = true) /\
    nth_error source (p + k + j) = Some c /\ is_line_terminator c = false.

(** Strictly increasing offsets, two neighbours at least [gap] apart. *)
Fixpoint spaced (gap : Z) (offsets : list Z) : Prop :=
  match offsets with
  | a :: ((b :: _) as rest) => a < b /\ a + gap <= b /\ spaced gap rest
  | _ => True
  end.

(** The engine treats the program's own pattern as JavaScript does. *)
Definition knows_default_pattern (E : Engine) : Prop :=
  exists regex,
    RegExp_new E default_pattern (str "g") = Some regex /\
    forall content, RegExp_split E regex content = map Some (split_blank_lines content).

(** [options = {}] *)
Definition no_options : Options := mkOptions None None None None None.

(** Code units taken by a run of lines, each with its newline. *)
Definition lines_span (ls : list text) : Z :=
  fold_left (fun acc line => acc + (len line + 1)) ls 0.

(** Texts of the examples. *)
Definition four_lines : text :=
  str "line1" ++ LF :: str "line2" ++ LF :: str "line3" ++ LF :: str "line4".

Definition letters (n : nat) : text := repeat 97%N n.

(** A matcher never matches the empty string nor beyond the input. *)
Definition progresses (m : matcher) : Prop :=
  forall prev s f, m prev s = Some f ->
    (1 <= found_length f <= length s)%nat.

(** Matches of a text of [n] code units, left to right from [from],
    none overlapping the one before. *)
Fixpoint chained (n from : nat) (found : list (nat * Found)) : Prop :=
  match found with
  | [] => True
  | (i, f) :: rest =>
      (from <= i)%nat /\ (1 <= found_length f)%nat /\
      (i + found_length f <= n)%nat /\
      chained n (i + found_length f) rest
  end.

Definition blank_then_abc : text := LF :: LF :: str "abc".

(** A context ["main"] holding ["abc"], and a search request for the
    pattern ["("] with the schema's defaults. *)
Definition abc_context : Context := mkContext (str "main") (str "abc").

Definition unbalanced_request : SearchContextInput :=
  mkSearchContextInput (str "main") (str "(") (str "gi") 100 50 true.

(** The view [v] shows the chunk of [allChunks] at position [cv_index v]. *)
Definition shows (allChunks : list Chunk) (v : ChunkView) : Prop :=
  exists c,
    0 <= cv_index v /\
    nth_error allChunks (Z.to_nat (cv_index v)) = Some c /\
    cv_content v = content c /\
    cv_start_offset v = startOffset c /\
    cv_end_offset v = endOffset c.

(** A request for the chunks 0, 7 and 1 of a context of 250 letters cut
    in chunks of 100 with an overlap of 20. *)
Definition letters_context : Context := mkContext (str "main") (letters 250).

Definition three_indices_request : GetChunksInput :=
  mkGetChunksInput (str "main") [0; 7; 1] FIXED_SIZE 100 20.

(** A request for the chunk that by-paragraphs decomposition of
    [blank_then_abc] reports, the one of index 1. *)
Definition blank_context : Context := mkContext (str "main") blank_then_abc.

Definition reported_index_request : GetChunksInput :=
  mkGetChunksInput (str "main") [1] BY_PARAGRAPHS 10000 200.

(** A Markdown header line starts at position [p] of [source], in the
    words of the specification: [p] starts a line; [k] markers [#], 1 to
    6; then a space; then a title, at least one code unit, on the same
    line.  Every header line is a header of the pattern
    ([header_line_is_header]); the converse fails. *)
Definition header_line_at (source : text) (p : nat) : Prop :=
  at_line_start (char_before source p) = true /\
  exists k c,
    (1 <= k <= 6)%nat /\
    (forall i, (i < k)%nat -> nth_error source (p + i) = Some 35%N) /\
    nth_error source (p + k) = Some 32%N /\
    nth_error source (p + k + 1) = Some c /\ is_line_terminator c = false.


(** A header whose markers and title are separated by a tab. *)
Definition tab_header : text := str "#" ++ 9%N :: str "Title".

(** A request for chunk 0 of the context ["abc"] with a chunk size of -1,
    which the schema of [rlm_get_chunks] accepts. *)
Definition negative_size_request : GetChunksInput :=
  mkGetChunksInput (str "main") [0] FIXED_SIZE (-1) 200.

(** ** Proof steps used throughout *)

(** Every chunk of a list satisfies a weaker linear fact than the one
    already known of it. *)
Ltac weaken_all H :=
  eapply Forall_impl; [|exact H]; cbv beta;
  let c := fresh "c" in let Hc := fresh "Hc" in
  intros c Hc; unfold in_bounds in *; lia.

(** Two runs of the same call returned the same chunks. *)
Ltac same_run H H' :=
  rewrite H in H'; inversion H'; subst; clear H'.

(** ** Vocabulary of the further properties *)

(** The quotient rounded up. *)
Definition ceil_div (a b : Z) : Z := (a + b - 1) / b.

(** The chunk the fixed-size loop makes in round [k], for the step
    [chunkSize - overlap]. *)
Definition fixed_chunk (source : text) (chunkSize step : Z) (k : nat) : Chunk :=
  mkChunk (Z.of_nat k)
          (slice source (Z.of_nat k * step)
                 (Z.min (Z.of_nat k * step + chunkSize) (len source)))
          (Z.of_nat k * step)
          (Z.min (Z.of_nat k * step + chunkSize) (len source))
          None.

(** Index and line range of the chunk the by-lines loop makes in round
    [k], for [n] lines and the advance [max 1 (linesPerChunk - overlap)]. *)
Definition line_chunk_tag (n linesPerChunk advance : Z) (k : nat)
  : Z * option Metadata :=
  (Z.of_nat k,
   Some (LineRange (Z.of_nat k * advance)
                   (Z.min (Z.of_nat k * advance + linesPerChunk) n - 1))).

(** The chunk carries a line range, and its content is what
    [extractLines] returns for that range. *)
Definition content_is_its_lines (source : text) (c : Chunk) : Prop :=
  exists a b,
    metadata c = Some (LineRange a b) /\
    content c = extractLines source a (Some b).

(** Each chunk ends where the next one starts. *)
Fixpoint abutting (cs : list Chunk) : Prop :=
  match cs with
  | c :: ((c' :: _) as cs') => endOffset c = startOffset c' /\ abutting cs'
  | _ => True
  end.

(** No chunk starts before the one before it ends. *)
Fixpoint disjoint_in_order (cs : list Chunk) : Prop :=
  match cs with
  | c :: ((c' :: _) as cs') => endOffset c <= startOffset c' /\ disjoint_in_order cs'
  | _ => True
  end.

(** A chunk tagged as a section starts at a header, and its level is
    the number of the header's markers, 1 to 6: the text has [level]
    markers [#] from the chunk's start, and white space, no further
    marker, right after them. *)
Definition section_starts_at_header (source : text) (c : Chunk) : Prop :=
  match metadata c with
  | Some (SectionTag level title) =>
      0 <= startOffset c /\
      header_at source (Z.to_nat (startOffset c)) /\
      1 <= level <= 6 /\
      (forall i, 0 <= i < level ->
         nth_error source (Z.to_nat (startOffset c + i)) = Some 35%N) /\
      (exists w,
         nth_error source (Z.to_nat (startOffset c + level)) = Some w /\
         is_space w = true /\ w <> 35%N)
  | _ => True
  end.

(** The result [search] pushes for the match [m]. *)
Definition search_result (source : text) (contextChars : Z)
  (includeLineNumbers : bool) (m : ExecResult) : SearchMatch :=
  mkSearchMatch (matched m) (match_index m)
    (if includeLineNumbers
     then len (split_lines (slice source 0 (match_index m)))
     else 0)
    (slice source (Z.max 0 (match_index m - contextChars))
           (Z.min (len source) (match_index m + len (matched m) + contextChars)))
    (captures m).

(** The string [t] occurs in [s] at offset [k]. *)
Definition occurs_at (s t : text) (k : Z) : Prop :=
  0 <= k /\ k + len t <= len s /\ slice s k (k + len t) = t.

(** A request for [/\n\n+/] without the [g] flag, and the context it
    searches. *)
Definition two_blank_runs : text :=
  str "a" ++ [LF; LF] ++ str "b" ++ [LF; LF; LF] ++ str "c".

Definition no_g_options : SearchOptions :=
  mkSearchOptions (Some (str "i")) (Some 1) (Some 3) (Some true).

(* ===================================================================== *)
(** * Part II: properties                                                 *)
(* ===================================================================== *)

(** ** Lists, lengths and [slice] *)

Lemma len_nonneg {A : Type} (l : list A) : 0 <= len l.
Proof. unfold len. lia. Qed.

Lemma len_nil (A : Type) : len (@nil A) = 0.
Proof. reflexivity. Qed.

Lemma len_cons {A : Type} (a : A) (l : list A) : len (a :: l) = len l + 1.
Proof. unfold len. simpl length. lia. Qed.

Lemma len_app {A : Type} (l1 l2 : list A) : len (l1 ++ l2) = len l1 + len l2.
Proof. unfold len. rewrite length_app. lia. Qed.

Lemma rel_index_inside (n k : Z) : 0 <= k <= n -> rel_index n k = k.
Proof.
  intros H. unfold rel_index.
  destruct (Z.ltb_spec k 0); lia.
Qed.

Lemma slice_inside {A : Type} (l : list A) (a b : Z) :
  0 <= a <= len l -> 0 <= b <= len l ->
  slice l a b = firstn (Z.to_nat (b - a)) (skipn (Z.to_nat a) l).
Proof.
  intros Ha Hb. unfold slice.
  rewrite !rel_index_inside by assumption. reflexivity.
Qed.

Lemma skipn_beyond {A : Type} (l : list A) (n : nat) :
  (length l <= n)%nat -> skipn n l = [].
Proof. intros H. apply skipn_all2. exact H. Qed.

(** A chunk of [n] code units followed by the rest of the text is the
    text from the chunk's start on. *)
Lemma firstn_skipn_glue {A : Type} (l : list A) (k n : nat) :
  firstn n (skipn k l) ++ skipn (k + n) l = skipn k l.
Proof.
  rewrite Nat.add_comm, <- skipn_skipn. apply firstn_skipn.
Qed.

(** ** [decomposeBySize] *)

Section FixedSize.

Variable source : text.
Variables chunkSize overlap : Z.

(** With a positive step the loop ends within [len source - offset + 1]
    rounds, and with no overlap its chunks tile the rest of the text. *)
Lemma decomposeBySize_loop_tiles (fuel : nat) :
  forall index offset,
    1 <= chunkSize ->
    0 <= offset ->
    Z.max 0 (len source - offset) < Z.of_nat fuel ->
    exists chunks,
      decomposeBySize_loop fuel source chunkSize 0 index offset = Returned chunks /\
      concat (map content chunks) = skipn (Z.to_nat offset) source.
Proof.
  induction fuel as [|fuel IH]; intros index offset Hcs Hoff Hfuel.
  - exfalso. simpl in Hfuel. lia.
  - cbn [decomposeBySize_loop].
    destruct (Z.ltb_spec offset (len source)) as [Hlt|Hge].
    + destruct (Z.leb_spec (chunkSize - 0) 0) as [Hstep|Hstep]; [lia|].
      destruct (IH (index + 1) (offset + (chunkSize - 0))) as (rest & Hrest & Hcat);
        try lia.
      rewrite Hrest. cbn [bind]. eexists. split; [reflexivity|].
      cbn [map concat content]. rewrite Hcat.
      rewrite slice_inside by lia.
      replace (Z.to_nat (offset + (chunkSize - 0)))
        with (Z.to_nat offset + Z.to_nat chunkSize)%nat by lia.
      destruct (Z.le_gt_cases (offset + chunkSize) (len source)) as [Hin|Hout].
      * rewrite Z.min_l by lia.
        replace (Z.to_nat (offset + chunkSize - offset)) with (Z.to_nat chunkSize) by lia.
        apply firstn_skipn_glue.
      * rewrite Z.min_r by lia.
        rewrite (skipn_beyond source (Z.to_nat offset + Z.to_nat chunkSize))
          by (unfold len in *; lia).
        rewrite app_nil_r. apply firstn_all2.
        rewrite length_skipn. unfold len in *. lia.
    + exists []. split; [reflexivity|].
      cbn [map concat]. symmetry. apply skipn_beyond. unfold len in *. lia.
Qed.

(** The loop always ends: a non-positive step leaves after one chunk. *)
Lemma decomposeBySize_loop_total (fuel : nat) :
  forall index offset,
    0 <= offset ->
    Z.max 0 (len source - offset) < Z.of_nat fuel ->
    exists chunks,
      decomposeBySize_loop fuel source chunkSize overlap index offset = Returned chunks.
Proof.
  induction fuel as [|fuel IH]; intros index offset Hoff Hfuel.
  - exfalso. simpl in Hfuel. lia.
  - cbn [decomposeBySize_loop].
    destruct (Z.ltb_spec offset (len source)) as [Hlt|Hge]; [|eauto].
    destruct (Z.leb_spec (chunkSize - overlap) 0) as [Hstep|Hstep]; [eauto|].
    destruct (IH (index + 1) (offset + (chunkSize - overlap))) as (rest & Hrest);
      try lia.
    rewrite Hrest. cbn [bind]. eauto.
Qed.

End FixedSize.

(** The fixed-size routine itself, called with no overlap, cuts the text
    into pieces that concatenate back to it. *)
Lemma decomposeBySize_no_overlap_concat (source : text) (chunkSize : Z) :
  1 <= chunkSize ->
  exists chunks,
    decomposeBySize source chunkSize 0 = Returned chunks /\
    concat (map content chunks) = source.
Proof.
  intros Hcs. unfold decomposeBySize.
  destruct (decomposeBySize_loop_tiles source chunkSize (S (length source)) 0 0 Hcs)
    as (chunks & Hrun & Hcat); try lia.
  - unfold len. lia.
  - exists chunks. split; [exact Hrun|]. rewrite Hcat. reflexivity.
Qed.

Lemma decomposeBySize_total (source : text) (chunkSize overlap : Z) :
  exists chunks, decomposeBySize source chunkSize overlap = Returned chunks.
Proof.
  unfold decomposeBySize.
  apply decomposeBySize_loop_total; unfold len; lia.
Qed.

(** ** [decomposeByLines] *)

Lemma fold_span (ls : list text) (a : Z) :
  fold_left (fun acc line => acc + (len line + 1)) ls a = a + lines_span ls.
Proof.
  unfold lines_span. revert a.
  induction ls as [|l ls IH]; intros a; cbn [fold_left].
  - lia.
  - rewrite IH, (IH (0 + _)). lia.
Qed.

Lemma lines_span_cons (l : text) (ls : list text) :
  lines_span (l :: ls) = len l + 1 + lines_span ls.
Proof.
  unfold lines_span at 1. cbn [fold_left]. rewrite fold_span. lia.
Qed.

Lemma lines_span_app (a b : list text) :
  lines_span (a ++ b) = lines_span a + lines_span b.
Proof.
  induction a as [|l a IH]; cbn [app].
  - reflexivity.
  - rewrite !lines_span_cons, IH. lia.
Qed.

Lemma lines_span_nonneg (ls : list text) : 0 <= lines_span ls.
Proof.
  induction ls as [|l ls IH].
  - reflexivity.
  - rewrite lines_span_cons. pose proof (len_nonneg l). lia.
Qed.

Lemma lines_span_firstn (ls : list text) (k : nat) :
  lines_span (firstn k ls) <= lines_span ls.
Proof.
  rewrite <- (firstn_skipn k ls) at 2. rewrite lines_span_app.
  pose proof (lines_span_nonneg (skipn k ls)). lia.
Qed.

Lemma lines_span_firstn_lt (ls : list text) (k : nat) :
  (k < length ls)%nat -> lines_span (firstn k ls) + 1 <= lines_span ls.
Proof.
  intros Hk. rewrite <- (firstn_skipn k ls) at 2. rewrite lines_span_app.
  destruct (skipn k ls) as [|l r] eqn:Hs.
  - apply (f_equal (@length text)) in Hs. rewrite length_skipn in Hs. simpl in Hs. lia.
  - rewrite lines_span_cons.
    pose proof (len_nonneg l). pose proof (lines_span_nonneg r). lia.
Qed.

Lemma firstn_add_skipn {A : Type} (l : list A) (k m : nat) :
  firstn (k + m) l = firstn k l ++ firstn m (skipn k l).
Proof.
  revert l. induction k as [|k IH]; intros l.
  - reflexivity.
  - destruct l as [|a l]; cbn [Nat.add firstn skipn app].
    + rewrite firstn_nil. reflexivity.
    + rewrite IH. reflexivity.
Qed.

Lemma len_join_lines (ls : list text) :
  ls <> [] -> len (join_lines ls) = lines_span ls - 1.
Proof.
  induction ls as [|l ls IH]; intros Hne; [congruence|].
  destruct ls as [|l' ls].
  - cbn [join_lines]. rewrite lines_span_cons. cbn. lia.
  - change (join_lines (l :: l' :: ls)) with (l ++ LF :: join_lines (l' :: ls)).
    rewrite len_app, len_cons, IH by discriminate.
    rewrite (lines_span_cons l). lia.
Qed.

Lemma split_lines_not_nil (s : text) : split_lines s <> [].
Proof.
  destruct s as [|c s]; cbn [split_lines]; [discriminate|].
  destruct (c =? LF)%N; [discriminate|].
  destruct (split_lines s); discriminate.
Qed.

Lemma join_split_lines (s : text) : join_lines (split_lines s) = s.
Proof.
  induction s as [|c s IH]; [reflexivity|].
  cbn [split_lines].
  destruct (N.eqb_spec c LF) as [->|Hc].
  - pose proof (split_lines_not_nil s) as Hne.
    destruct (split_lines s) as [|l ls]; [congruence|].
    change (join_lines ([] :: l :: ls)) with ([] ++ LF :: join_lines (l :: ls)).
    rewrite IH. reflexivity.
  - pose proof (split_lines_not_nil s) as Hne.
    destruct (split_lines s) as [|l ls]; [congruence|].
    destruct ls as [|l' ls].
    + cbn [join_lines] in *. congruence.
    + change (join_lines ((c :: l) :: l' :: ls))
        with (c :: (l ++ LF :: join_lines (l' :: ls))).
      change (join_lines (l :: l' :: ls)) with (l ++ LF :: join_lines (l' :: ls)) in IH.
      rewrite IH. reflexivity.
Qed.

Lemma len_as_lines (s : text) : len s = lines_span (split_lines s) - 1.
Proof.
  rewrite <- (join_split_lines s) at 1.
  apply len_join_lines, split_lines_not_nil.
Qed.

Lemma split_lines_single (s : text) : ~ In LF s -> split_lines s = [s].
Proof.
  induction s as [|c s IH]; intros Hno; [reflexivity|].
  cbn [split_lines].
  destruct (N.eqb_spec c LF) as [->|Hc].
  - exfalso. apply Hno. left. reflexivity.
  - rewrite IH; [reflexivity|]. intros Hin. apply Hno. right. exact Hin.
Qed.

Lemma lines_span_pos (ls : list text) : ls <> [] -> 1 <= lines_span ls.
Proof.
  destruct ls as [|l ls]; intros Hne; [congruence|].
  rewrite lines_span_cons.
  pose proof (len_nonneg l). pose proof (lines_span_nonneg ls). lia.
Qed.

Lemma lines_span_window (ls : list text) (k m : nat) :
  lines_span (firstn k ls) + lines_span (firstn m (skipn k ls))
  = lines_span (firstn (k + m) ls).
Proof. rewrite firstn_add_skipn, lines_span_app. reflexivity. Qed.

Section ByLines.

Variable lines : list text.
Variables linesPerChunk overlapLines : Z.

(** What the loop keeps true: [charOffset] is the offset at which line
    [lineIndex] starts. It ends within [len lines - lineIndex + 1] rounds;
    its chunks lie between [charOffset] and the end of the text, carry
    consecutive indices and come in the order of their start offsets. *)
Lemma decomposeByLines_loop_spec (fuel : nat) :
  forall index lineIndex charOffset,
    0 <= lineIndex ->
    charOffset = lines_span (firstn (Z.to_nat lineIndex) lines) ->
    Z.max 0 (len lines - lineIndex) < Z.of_nat fuel ->
    exists chunks,
      decomposeByLines_loop fuel lines linesPerChunk overlapLines
                            index lineIndex charOffset = Returned chunks /\
      Forall (fun c => charOffset <= startOffset c /\
                       startOffset c <= endOffset c /\
                       endOffset c <= lines_span lines - 1) chunks /\
      indexed_from index chunks /\
      starts_sorted chunks.
Proof.
  induction fuel as [|fuel IH]; intros index lineIndex charOffset Hli Hoff Hfuel.
  - exfalso. simpl in Hfuel. lia.
  - cbn [decomposeByLines_loop].
    destruct (Z.ltb_spec lineIndex (len lines)) as [Hlt|Hge].
    2:{ exists []. repeat split; constructor. }
    set (advanceLines := Z.max 1 (linesPerChunk - overlapLines)).
    set (k := Z.to_nat lineIndex) in *.
    assert (Hk : (k < length lines)%nat) by (unfold len in Hlt; lia).
    assert (Hnext : advance_offset lines lineIndex advanceLines charOffset
                    = lines_span (firstn (Z.to_nat (lineIndex + advanceLines)) lines)).
    { unfold advance_offset. rewrite fold_span. fold k. rewrite Hoff.
      rewrite lines_span_window. f_equal. f_equal. lia. }
    destruct (IH (index + 1) (lineIndex + advanceLines)
                 (advance_offset lines lineIndex advanceLines charOffset)
                 ltac:(lia) Hnext ltac:(lia))
      as (rest & Hrest & Hbounds & Hidx & Hsorted).
    rewrite Hrest. cbn [bind]. eexists. split; [reflexivity|].
    assert (Hgrow : charOffset
                    <= advance_offset lines lineIndex advanceLines charOffset).
    { unfold advance_offset. rewrite fold_span.
      pose proof (lines_span_nonneg
                    (firstn (Z.to_nat advanceLines) (skipn (Z.to_nat lineIndex) lines))).
      lia. }
    split; [|split].
    + constructor.
      * cbn [startOffset endOffset]. split; [lia|].
        unfold slice. rewrite (rel_index_inside (len lines) lineIndex) by lia.
        fold k.
        set (m := Z.to_nat (rel_index (len lines) (lineIndex + linesPerChunk) - lineIndex)).
        destruct (firstn m (skipn k lines)) as [|l r] eqn:Hwin.
        -- cbn [join_lines]. rewrite (len_nil char).
           pose proof (lines_span_firstn_lt lines k Hk). lia.
        -- rewrite len_join_lines by discriminate.
           pose proof (lines_span_pos (l :: r)) as Hpos.
           pose proof (lines_span_window lines k m) as Hwindow.
           rewrite Hwin in Hwindow.
           pose proof (lines_span_firstn lines (k + m)).
           assert (1 <= lines_span (l :: r)) by (apply Hpos; discriminate).
           lia.
      * weaken_all Hbounds.
    + split; [reflexivity|exact Hidx].
    + destruct rest as [|c' rest']; [exact I|].
      cbn [starts_sorted startOffset]. split; [|exact Hsorted].
      inversion Hbounds as [|? ? Hc' _]; subst. lia.
Qed.

End ByLines.

(** The by-lines routine always returns; its chunks are within the text,
    numbered from 0 and ordered by start offset. *)
Lemma decomposeByLines_spec (source : text) (linesPerChunk overlapLines : Z) :
  exists chunks,
    decomposeByLines source linesPerChunk overlapLines = Returned chunks /\
    Forall (in_bounds source) chunks /\
    indexed_from 0 chunks /\
    starts_sorted chunks.
Proof.
  unfold decomposeByLines.
  destruct (decomposeByLines_loop_spec (split_lines source) linesPerChunk overlapLines
              (S (length (split_lines source))) 0 0 0)
    as (chunks & Hrun & Hbounds & Hidx & Hsorted).
  - lia.
  - reflexivity.
  - unfold len. lia.
  - exists chunks. repeat split; try assumption.
    eapply Forall_impl; [|exact Hbounds]. cbv beta.
    intros c Hc. unfold in_bounds. rewrite (len_as_lines source). lia.
Qed.

(** A text without a newline is one line, and one line makes one chunk. *)
Lemma decomposeByLines_single_line (source : text) (linesPerChunk overlapLines : Z) :
  ~ In LF source ->
  decomposeByLines source linesPerChunk overlapLines
  = Returned [mkChunk 0 (join_lines (slice [source] 0 linesPerChunk)) 0
                      (len (join_lines (slice [source] 0 linesPerChunk)))
                      (Some (LineRange 0 (Z.min linesPerChunk 1 - 1)))].
Proof.
  intros Hno. unfold decomposeByLines. rewrite (split_lines_single source Hno).
  cbn [length decomposeByLines_loop].
  change (len [source]) with 1.
  change (0 <? 1) with true. cbv iota.
  destruct (Z.ltb_spec (0 + Z.max 1 (linesPerChunk - overlapLines)) 1) as [Hlt|Hge];
    [lia|].
  cbn [bind]. reflexivity.
Qed.

Lemma slice_one_line (s : text) (n : Z) : 1 <= n -> slice [s] 0 n = [s].
Proof.
  intros Hn. unfold slice. change (len [s]) with 1.
  unfold rel_index.
  destruct (Z.ltb_spec n 0); [lia|].
  change (0 <? 0) with false. cbv iota.
  replace (Z.min n 1) with 1 by lia. reflexivity.
Qed.

(** ** Zero-valued options *)

(** C9. For every text, [decompose] with the fixed-size strategy and an
    explicit overlap of 0 returns what it returns with overlap 200, and
    with the by-lines strategy and an explicit overlap of 0 what it
    returns with overlap 10: a zero option is replaced by the default
    before the dispatch. *)
Theorem decompose_zero_overlap_is_default (E : Engine) (source : text)
  (cs lpc : option Z) (sep pat : option text) :
  decompose E source FIXED_SIZE (mkOptions cs (Some 0) lpc sep pat)
  = decompose E source FIXED_SIZE (mkOptions cs (Some 200) lpc sep pat)
  /\
  decompose E source BY_LINES (mkOptions cs (Some 0) lpc sep pat)
  = decompose E source BY_LINES (mkOptions cs (Some 10) lpc sep pat).
Proof.
  split; reflexivity.
Qed.

(** An absent overlap behaves the same way. *)
Lemma decompose_absent_overlap_is_default (E : Engine) (source : text)
  (cs lpc : option Z) (sep pat : option text) :
  decompose E source FIXED_SIZE (mkOptions cs None lpc sep pat)
  = decompose E source FIXED_SIZE (mkOptions cs (Some DEFAULT_OVERLAP) lpc sep pat)
  /\
  decompose E source BY_LINES (mkOptions cs None lpc sep pat)
  = decompose E source BY_LINES (mkOptions cs (Some 10) lpc sep pat).
Proof.
  split; reflexivity.
Qed.

(** C1. Fixed-size decomposition of a text of 150 code units, asked with
    [chunkSize = 100] and [overlap = 0], returns the first 100 code units
    as its only chunk: [decompose] turns the overlap 0 into 200, the step
    becomes negative and the loop leaves after one round.  The chunks do
    not concatenate to the text. *)
Theorem decompose_fixed_size_overlap_0_loses_text (E : Engine) :
  decompose E (letters 150) FIXED_SIZE
            (mkOptions (Some 100) (Some 0) None None None)
  = Returned [mkChunk 0 (letters 100) 0 100 None]
  /\ concat (map content [mkChunk 0 (letters 100) 0 100 None])
     <> letters 150.
Proof.
  split.
  - vm_compute. reflexivity.
  - intros H. apply (f_equal (@length char)) in H. vm_compute in H. discriminate.
Qed.

(** C5. Decomposing the four lines by lines with [linesPerChunk = 2] and
    [overlap = 0] returns four chunks, one per line start: [decompose]
    turns the overlap 0 into 10, so the loop advances by one line. *)
Theorem decompose_four_lines_overlap_0 (E : Engine) :
  decompose E four_lines BY_LINES (mkOptions None (Some 0) (Some 2) None None)
  = Returned
      [mkChunk 0 (str "line1" ++ LF :: str "line2") 0 11 (Some (LineRange 0 1));
       mkChunk 1 (str "line2" ++ LF :: str "line3") 6 17 (Some (LineRange 1 2));
       mkChunk 2 (str "line3" ++ LF :: str "line4") 12 23 (Some (LineRange 2 3));
       mkChunk 3 (str "line4") 18 23 (Some (LineRange 3 3))].
Proof.
  vm_compute. reflexivity.
Qed.

(** The by-lines routine itself, called with no overlap, returns the two
    chunks. *)
Lemma decomposeByLines_four_lines :
  decomposeByLines four_lines 2 0
  = Returned
      [mkChunk 0 (str "line1" ++ LF :: str "line2") 0 11 (Some (LineRange 0 1));
       mkChunk 1 (str "line3" ++ LF :: str "line4") 12 23 (Some (LineRange 2 3))].
Proof.
  vm_compute. reflexivity.
Qed.

(** ** Texts of one line *)

(** C3 fails on the empty string: it is one empty line, and the
    by-lines strategy returns one chunk for it, not none. *)
Lemma by_lines_empty_text_one_chunk :
  decompose Sample.blank_engine [] BY_LINES no_options
  = Returned [mkChunk 0 [] 0 0 (Some (LineRange 0 0))]
  /\ decompose Sample.blank_engine [] BY_LINES no_options <> Returned [].
Proof.
  split.
  - vm_compute. reflexivity.
  - vm_compute. discriminate.
Qed.

(** C3, amended. By-lines decomposition of a text without a newline, the
    empty string included, returns exactly one chunk, of index 0 and start
    offset 0; when the lines per chunk in force are at least 1 the chunk
    is the whole text. *)
Theorem by_lines_single_line_one_chunk (E : Engine) (source : text) (options : Options) :
  ~ In LF source ->
  exists c,
    decompose E source BY_LINES options = Returned [c] /\
    index c = 0 /\ startOffset c = 0 /\
    (1 <= num_or (linesPerChunk options) DEFAULT_LINES_PER_CHUNK ->
     content c = source /\ endOffset c = len source).
Proof.
  intros Hno. cbn [decompose].
  rewrite (decomposeByLines_single_line source _ _ Hno).
  eexists. split; [reflexivity|]. cbn [index startOffset content endOffset].
  repeat split; try reflexivity;
    rewrite slice_one_line by assumption; reflexivity.
Qed.

Lemma by_lines_single_line_one_chunk_witness :
  ~ In LF [] /\
  exists c,
    decompose Sample.blank_engine [] BY_LINES no_options = Returned [c] /\
    index c = 0 /\ startOffset c = 0 /\
    (1 <= num_or (linesPerChunk no_options) DEFAULT_LINES_PER_CHUNK ->
     content c = [] /\ endOffset c = len (@nil char)).
Proof.
  split.
  - simpl. tauto.
  - apply (by_lines_single_line_one_chunk Sample.blank_engine [] no_options).
    simpl. tauto.
Defined.

(** ** The matchers *)

Lemma span_app (p : char -> bool) (s a b : text) :
  span p s = (a, b) -> s = a ++ b.
Proof.
  revert a b. induction s as [|c s IH]; intros a b H; cbn [span] in H.
  - inversion H. reflexivity.
  - destruct (p c).
    + destruct (span p s) as [a' b'] eqn:Hs. inversion H; subst.
      cbn [app]. f_equal. apply IH. reflexivity.
    + inversion H. reflexivity.
Qed.

Lemma span_all (p : char -> bool) (s a b : text) :
  span p s = (a, b) -> Forall (fun c => p c = true) a.
Proof.
  revert a b. induction s as [|c s IH]; intros a b H; cbn [span] in H.
  - inversion H. constructor.
  - destruct (p c) eqn:Hc.
    + destruct (span p s) as [a' b'] eqn:Hs. inversion H; subst.
      constructor; [exact Hc|]. eapply IH. reflexivity.
    + inversion H. constructor.
Qed.

Lemma span_stop (p : char -> bool) (s a b : text) (c : char) :
  span p s = (a, c :: b) -> p c = false.
Proof.
  revert a. induction s as [|x s IH]; intros a H; cbn [span] in H.
  - inversion H.
  - destruct (p x) eqn:Hx.
    + destruct (span p s) as [a' b'] eqn:Hs. inversion H; subst.
      eapply IH. reflexivity.
    + inversion H; subst. exact Hx.
Qed.

Lemma span_length (p : char -> bool) (s a b : text) :
  span p s = (a, b) -> (length a + length b = length s)%nat.
Proof.
  intros H. apply span_app in H. subst. rewrite length_app. reflexivity.
Qed.

Lemma line_terminator_is_space (c : char) :
  is_line_terminator c = true -> is_space c = true.
Proof.
  unfold is_line_terminator. intros H.
  repeat (apply orb_true_iff in H; destruct H as [H|H]);
    apply N.eqb_eq in H; subst; reflexivity.
Qed.

Lemma not_space_is_dot (c : char) : is_space c = false -> is_dot c = true.
Proof.
  intros H. unfold is_dot. destruct (is_line_terminator c) eqn:Hlt; [|reflexivity].
  apply line_terminator_is_space in Hlt. congruence.
Qed.

Lemma last_dot_after_first_spec (ws : text) :
  forall pos best j,
    last_dot_after_first ws pos best = Some j ->
    best = Some j \/
    ((pos <= j)%nat /\ j <> O /\
     exists c, nth_error ws (j - pos) = Some c /\ is_dot c = true).
Proof.
  induction ws as [|c ws IH]; intros pos best j H; cbn [last_dot_after_first] in H.
  - left. exact H.
  - apply IH in H. destruct H as [H|(Hle & Hnz & d & Hd & Hdot)].
    + destruct (is_dot c) eqn:Hc; cbn [andb] in H; [|left; exact H].
      destruct (Nat.eqb_spec pos 0) as [Hz|Hz]; cbn [negb] in H; [left; exact H|].
      inversion H; subst. right. split; [lia|]. split; [exact Hz|].
      exists c. rewrite Nat.sub_diag. split; [reflexivity|exact Hc].
    + right. split; [lia|]. split; [exact Hnz|].
      exists d. split; [|exact Hdot].
      replace (j - pos)%nat with (S (j - S pos)) by lia. exact Hd.
Qed.

Lemma last_dot_after_first_found (ws : text) (j : nat) :
  last_dot_after_first ws 0 None = Some j ->
  (1 <= j)%nat /\ exists c, nth_error ws j = Some c /\ is_dot c = true.
Proof.
  intros H. apply last_dot_after_first_spec in H.
  destruct H as [H|(_ & Hnz & c & Hc & Hdot)]; [discriminate|].
  rewrite Nat.sub_0_r in Hc. split; [lia|]. eauto.
Qed.

(** The parts of a successful [section_at]. *)
Lemma section_at_inv (prev : option char) (s : text) (f : Found) :
  section_at prev s = Some f ->
  at_line_start prev = true /\
  exists hashes ws after j title,
    s = hashes ++ ws ++ after /\
    Forall (fun c => is_hash c = true) hashes /\
    (1 <= length hashes <= 6)%nat /\
    Forall (fun c => is_space c = true) ws /\
    (1 <= j <= length ws)%nat /\
    (exists c, nth_error (ws ++ after) j = Some c /\ is_dot c = true) /\
    (j + length title <= length ws + length after)%nat /\
    f = mkFound (length hashes + j + length title) [hashes; title].
Proof.
  unfold section_at. intros H.
  destruct (at_line_start prev); [|discriminate]. split; [reflexivity|].
  destruct (span is_hash s) as [hashes r] eqn:Hh.
  destruct ((1 <=? length hashes)%nat && (length hashes <=? 6)%nat) eqn:Hk;
    [|discriminate].
  apply andb_true_iff in Hk. destruct Hk as [Hk1 Hk2].
  apply Nat.leb_le in Hk1, Hk2.
  destruct (span is_space r) as [ws after] eqn:Hw.
  pose proof (span_app _ _ _ _ Hh) as Hs.
  pose proof (span_app _ _ _ _ Hw) as Hr.
  pose proof (span_all _ _ _ _ Hh) as Hhashes.
  pose proof (span_all _ _ _ _ Hw) as Hspaces.
  destruct ws as [|w ws]; [discriminate|].
  destruct after as [|d after].
  - destruct (last_dot_after_first (w :: ws) 0 None) as [j|] eqn:Hj; [|discriminate].
    destruct (span is_dot (skipn j (w :: ws))) as [title rest] eqn:Ht.
    inversion H; subst f.
    apply last_dot_after_first_found in Hj. destruct Hj as (Hj1 & c & Hc & Hdot).
    assert (j < length (w :: ws))%nat by (apply nth_error_Some; congruence).
    exists hashes, (w :: ws), [], j, title.
    rewrite app_nil_r. subst r s. rewrite app_nil_r.
    repeat split; try assumption; try lia.
    + exists c. split; assumption.
    + apply span_length in Ht. rewrite length_skipn in Ht.
      cbn [length] in *. lia.
  - destruct (span is_dot (d :: after)) as [title rest] eqn:Ht.
    inversion H; subst f.
    exists hashes, (w :: ws), (d :: after), (length (w :: ws)), title.
    subst r s.
    repeat split; try assumption; try (cbn [length]; lia).
    + exists d. split.
      * rewrite nth_error_app2 by lia. rewrite Nat.sub_diag. reflexivity.
      * apply not_space_is_dot. eapply span_stop. exact Hw.
    + apply span_length in Ht. cbn [length] in *. lia.
Qed.

Lemma section_at_progresses : progresses section_at.
Proof.
  intros prev s f H. apply section_at_inv in H.
  destruct H as (_ & hashes & ws & after & j & title & Hs & _ & Hk & _ & Hj & _ & Hlen & Hf).
  subst f s. cbn [found_length]. rewrite !length_app. lia.
Qed.

Lemma sentence_at_progresses : progresses sentence_at.
Proof.
  intros prev s f H. unfold sentence_at in H.
  destruct (span (fun c => negb (is_terminator c)) s) as [body r] eqn:Hb.
  destruct body as [|b body]; [discriminate|].
  destruct r as [|t r]; [discriminate|].
  destruct (span is_terminator (t :: r)) as [marks r'] eqn:Hm.
  destruct (span is_space r') as [ws r''] eqn:Hw.
  inversion H; subst f. cbn [found_length].
  apply span_length in Hb, Hm, Hw. cbn [length] in *. lia.
Qed.

(** ** [exec] and the [while] loop over its matches *)

Lemma skipn_step {A : Type} (l : list A) (k : nat) (a : A) (r : list A) :
  skipn k l = a :: r -> nth_error l k = Some a /\ skipn (S k) l = r.
Proof.
  revert l. induction k as [|k IH]; intros l H.
  - destruct l; inversion H. split; reflexivity.
  - destruct l as [|x l]; [discriminate|]. cbn [skipn] in H.
    apply IH in H. exact H.
Qed.

Lemma nth_error_skipn {A : Type} (l : list A) (k i : nat) :
  nth_error (skipn k l) i = nth_error l (k + i).
Proof.
  revert l. induction k as [|k IH]; intros l; [reflexivity|].
  destruct l as [|x l]; cbn [skipn Nat.add nth_error].
  - destruct i; reflexivity.
  - apply IH.
Qed.

Section Exec.

Variable m : matcher.
Variable s : text.

(** The match [exec_from] reports is one the matcher finds at the
    reported position. *)
Lemma exec_from_sound (rest : text) :
  forall pos i f,
    rest = skipn pos s ->
    (pos <= length s)%nat ->
    exec_from m (char_before s pos) rest pos = Some (i, f) ->
    (pos <= i <= length s)%nat /\
    m (char_before s i) (skipn i s) = Some f.
Proof.
  induction rest as [|c rest IH]; intros pos i f Hrest Hpos H; cbn [exec_from] in H.
  - destruct (m (char_before s pos) []) as [f'|] eqn:Hm; [|discriminate].
    inversion H; subst. split; [lia|]. rewrite <- Hrest. exact Hm.
  - destruct (m (char_before s pos) (c :: rest)) as [f'|] eqn:Hm.
    + inversion H; subst. split; [lia|]. rewrite <- Hrest. exact Hm.
    + symmetry in Hrest. apply skipn_step in Hrest. destruct Hrest as [Hc Hnext].
      assert (pos < length s)%nat by (apply nth_error_Some; congruence).
      rewrite <- Hc in H.
      change (nth_error s pos) with (char_before s (S pos)) in H.
      apply IH in H; [|symmetry; exact Hnext|lia].
      destruct H as [Hi Hf]. split; [lia|exact Hf].
Qed.

(** When the matcher finds nothing at any position, [exec] returns [null]. *)
Lemma exec_from_none (rest : text) :
  forall pos,
    rest = skipn pos s ->
    (forall i, m (char_before s i) (skipn i s) = None) ->
    exec_from m (char_before s pos) rest pos = None.
Proof.
  induction rest as [|c rest IH]; intros pos Hrest Hnone; cbn [exec_from].
  - rewrite Hrest, Hnone. reflexivity.
  - rewrite Hrest at 1. rewrite Hnone.
    symmetry in Hrest. apply skipn_step in Hrest. destruct Hrest as [Hc Hnext].
    rewrite <- Hc. change (nth_error s pos) with (char_before s (S pos)).
    apply IH; [symmetry; exact Hnext|exact Hnone].
Qed.

Lemma exec_sound (lastIndex i : nat) (f : Found) :
  exec m s lastIndex = Some (i, f) ->
  (lastIndex <= i <= length s)%nat /\
  m (char_before s i) (skipn i s) = Some f.
Proof.
  unfold exec. destruct (Nat.leb_spec lastIndex (length s)) as [Hle|Hgt];
    [|discriminate].
  apply exec_from_sound; [reflexivity|exact Hle].
Qed.

Hypothesis m_progresses : progresses m.

Lemma exec_within (lastIndex i : nat) (f : Found) :
  exec m s lastIndex = Some (i, f) ->
  (lastIndex <= i)%nat /\ (1 <= found_length f)%nat /\
  (i + found_length f <= length s)%nat.
Proof.
  intros H. apply exec_sound in H. destruct H as [Hi Hm].
  apply m_progresses in Hm. rewrite length_skipn in Hm. lia.
Qed.

(** The loop ends within [length s - lastIndex + 1] rounds, and its
    matches follow one another. *)
Lemma exec_all_chained (fuel : nat) :
  forall lastIndex,
    (length s - lastIndex < fuel)%nat ->
    exists found,
      exec_all fuel m s lastIndex = Returned found /\
      chained (length s) lastIndex found.
Proof.
  induction fuel as [|fuel IH]; intros lastIndex Hfuel; [lia|].
  cbn [exec_all].
  destruct (exec m s lastIndex) as [[i f]|] eqn:Hexec.
  - apply exec_within in Hexec. destruct Hexec as (Hi & Hf & Hend).
    destruct (IH (i + found_length f)%nat ltac:(lia)) as (rest & Hrest & Hchain).
    rewrite Hrest. cbn [bind]. eexists. split; [reflexivity|].
    cbn [chained]. repeat split; assumption.
  - exists []. split; [reflexivity|exact I].
Qed.

End Exec.

Lemma chained_weaken (n from from' : nat) (found : list (nat * Found)) :
  (from' <= from)%nat -> chained n from found -> chained n from' found.
Proof.
  destruct found as [|[i f] rest]; intros Hle H; [exact I|].
  cbn [chained] in *. destruct H as (H1 & H2 & H3 & H4).
  repeat split; try assumption. lia.
Qed.

(** ** [decomposeBySections] *)

(** A match of the section pattern is a header. *)
Lemma section_at_header (source : text) (p : nat) (f : Found) :
  section_at (char_before source p) (skipn p source) = Some f ->
  header_at source p.
Proof.
  intros H. apply section_at_inv in H.
  destruct H as (Hstart & hashes & ws & after & j & title
                 & Hs & Hhashes & Hk & Hspaces & Hj & (c & Hc & Hdot) & Hlen & _).
  split; [exact Hstart|].
  exists (length hashes), j, c.
  assert (Hnth : forall i, nth_error source (p + i) = nth_error (hashes ++ ws ++ after) i).
  { intros i. rewrite <- Hs. symmetry. apply nth_error_skipn. }
  split; [exact Hk|]. split; [|split; [lia|split; [|split]]].
  - intros i Hi. rewrite Hnth, nth_error_app1 by exact Hi.
    destruct (nth_error hashes i) as [h|] eqn:Hh.
    + apply nth_error_In in Hh. rewrite Forall_forall in Hhashes.
      apply Hhashes in Hh. unfold is_hash in Hh. apply N.eqb_eq in Hh.
      subst h. reflexivity.
    + apply nth_error_None in Hh. lia.
  - intros i Hi. rewrite <- Nat.add_assoc, Hnth.
    rewrite nth_error_app2 by lia.
    replace (length hashes + i - length hashes)%nat with i by lia.
    rewrite nth_error_app1 by lia.
    destruct (nth_error ws i) as [w|] eqn:Hw.
    + exists w. split; [reflexivity|].
      apply nth_error_In in Hw. rewrite Forall_forall in Hspaces. auto.
    + apply nth_error_None in Hw. lia.
  - rewrite <- Nat.add_assoc, Hnth.
    rewrite nth_error_app2 by lia.
    replace (length hashes + j - length hashes)%nat with j by lia.
    exact Hc.
  - unfold is_dot in Hdot. destruct (is_line_terminator c); [discriminate|reflexivity].
Qed.

(** Without a header the section pattern has no match. *)
Lemma no_header_no_match (source : text) :
  (forall p, ~ header_at source p) ->
  exec section_at source 0 = None.
Proof.
  intros Hno. unfold exec. cbn [Nat.leb].
  apply exec_from_none; [reflexivity|].
  intros i. destruct (section_at (char_before source i) (skipn i source)) eqn:H;
    [|reflexivity].
  apply section_at_header in H. exfalso. exact (Hno i H).
Qed.

(** A header is made of at least one [#]. *)
Lemma header_at_has_hash (source : text) (p : nat) :
  header_at source p -> In 35%N source.
Proof.
  intros (_ & k & j & c & Hk & Hhash & _).
  apply (nth_error_In source (p + 0)). apply Hhash. lia.
Qed.

Lemma decomposeBySections_no_header (source : text) :
  (forall p, ~ header_at source p) ->
  decomposeBySections source = Returned [mkChunk 0 source 0 (len source) None].
Proof.
  intros Hno. unfold decomposeBySections. cbn [exec_all].
  rewrite (no_header_no_match source Hno). reflexivity.
Qed.



(** A text without any [#] has no header. *)
Lemma no_hash_no_header (source : text) :
  ~ In 35%N source -> forall p, ~ header_at source p.
Proof.
  intros Hno p H. apply Hno. eapply header_at_has_hash. exact H.
Qed.

(** A header line in the words of the specification is a header of the
    pattern, so a text without the latter has none of the former. *)
Lemma header_line_is_header (source : text) (p : nat) :
  header_line_at source p -> header_at source p.
Proof.
  intros (Hstart & k & c & Hk & Hhash & Hspace & Hc & Hlt).
  split; [exact Hstart|]. exists k, 1%nat, c.
  split; [exact Hk|]. split; [exact Hhash|]. split; [lia|]. split.
  - intros i Hi. assert (i = O) by lia. subst i. rewrite Nat.add_0_r.
    exists 32%N. split; [exact Hspace|reflexivity].
  - split; [exact Hc|exact Hlt].
Qed.

(** ** The pattern finds every header *)

Lemma span_run (q : char -> bool) (k : nat) :
  forall s : text,
    (forall i, (i < k)%nat -> exists x, nth_error s i = Some x /\ q x = true) ->
    (exists y, nth_error s k = Some y /\ q y = false) ->
    span q s = (firstn k s, skipn k s) /\ length (firstn k s) = k.
Proof.
  induction k as [|k IH]; intros s Hrun (y & Hy & Hq).
  - destruct s as [|x s]; [discriminate Hy|].
    cbn [nth_error] in Hy. inversion Hy; subst. cbn [span firstn skipn length].
    rewrite Hq. split; reflexivity.
  - destruct s as [|x s]; [discriminate Hy|].
    destruct (Hrun O ltac:(lia)) as (x' & Hx' & Hqx). cbn [nth_error] in Hx'.
    inversion Hx'; subst x'.
    destruct (IH s) as [Hspan Hlen].
    + intros i Hi. apply (Hrun (S i)). lia.
    + exists y. split; [exact Hy|exact Hq].
    + cbn [span firstn skipn length]. rewrite Hqx, Hspan, Hlen. split; reflexivity.
Qed.

Lemma last_dot_after_first_exists (ws : text) :
  forall pos best,
    (best <> None \/
     exists i c, nth_error ws i = Some c /\ is_dot c = true /\ (pos + i)%nat <> O) ->
    last_dot_after_first ws pos best <> None.
Proof.
  induction ws as [|x ws IH]; intros pos best H; cbn [last_dot_after_first].
  - destruct H as [H|(i & c & Hc & _)]; [exact H|]. destruct i; discriminate Hc.
  - apply IH. destruct H as [H|(i & c & Hc & Hdot & Hnz)].
    + left. destruct (is_dot x && negb (Nat.eqb pos 0)); [discriminate|exact H].
    + destruct i as [|i].
      * cbn [nth_error] in Hc. inversion Hc; subst x. left.
        rewrite Hdot. destruct (Nat.eqb_spec pos 0) as [Hz|Hz]; [lia|].
        cbn [negb andb]. discriminate.
      * right. exists i, c. cbn [nth_error] in Hc.
        split; [exact Hc|]. split; [exact Hdot|lia].
Qed.

(** At every header the section pattern matches. *)
Lemma header_at_section_at (source : text) (p : nat) :
  header_at source p ->
  exists f, section_at (char_before source p) (skipn p source) = Some f.
Proof.
  intros (Hstart & k & j & c & Hk & Hhash & Hj & Hsp & Hc & Hlt).
  unfold section_at. rewrite Hstart.
  destruct (Hsp O ltac:(lia)) as (w0 & Hw0 & Hw0s). rewrite Nat.add_0_r in Hw0.
  destruct (span_run is_hash k (skipn p source)) as [Hspan Hlen].
  { intros i Hi. exists 35%N. rewrite nth_error_skipn. split; [auto|reflexivity]. }
  { exists w0. rewrite nth_error_skipn. split; [exact Hw0|].
    unfold is_hash. destruct (N.eqb_spec w0 35) as [->|_]; [discriminate Hw0s|reflexivity]. }
  rewrite Hspan, Hlen.
  replace ((1 <=? k)%nat && (k <=? 6)%nat) with true
    by (symmetry; apply andb_true_iff; split; apply Nat.leb_le; lia).
  set (r := skipn k (skipn p source)).
  assert (Hr : forall i, nth_error r i = nth_error source (p + k + i)).
  { intros i. unfold r. rewrite !nth_error_skipn. f_equal. lia. }
  destruct (span is_space r) as [ws after] eqn:Hws.
  pose proof (span_app _ _ _ _ Hws) as Happ.
  destruct ws as [|w ws].
  - exfalso. cbn [app] in Happ. subst after.
    destruct r as [|x r'] eqn:Hreq.
    + specialize (Hr O). rewrite Nat.add_0_r, Hw0 in Hr. discriminate Hr.
    + pose proof (span_stop _ _ _ _ _ Hws) as Hx.
      specialize (Hr O). rewrite Nat.add_0_r, Hw0 in Hr. cbn [nth_error] in Hr.
      inversion Hr; subst x. congruence.
  - destruct after as [|a after].
    + rewrite app_nil_r in Happ.
      destruct (last_dot_after_first (w :: ws) 0 None) as [j'|] eqn:Hlast.
      * destruct (span is_dot (skipn j' (w :: ws))). eauto.
      * exfalso. revert Hlast. apply last_dot_after_first_exists.
        right. exists j, c. rewrite <- Happ, Hr.
        split; [exact Hc|]. split; [|lia].
        unfold is_dot. rewrite Hlt. reflexivity.
    + destruct (span is_dot (a :: after)). eauto.
Qed.

Lemma exec_from_complete (m : matcher) (s rest : text) :
  forall pos,
    rest = skipn pos s ->
    (pos <= length s)%nat ->
    exec_from m (char_before s pos) rest pos = None ->
    forall i, (pos <= i <= length s)%nat ->
              m (char_before s i) (skipn i s) = None.
Proof.
  induction rest as [|c rest IH]; intros pos Hrest Hpos H i Hi;
    cbn [exec_from] in H.
  - destruct (m (char_before s pos) []) eqn:Hm; [discriminate|].
    assert (length (skipn pos s) = O) by (rewrite <- Hrest; reflexivity).
    rewrite length_skipn in *.
    replace i with pos by lia. rewrite <- Hrest. exact Hm.
  - destruct (m (char_before s pos) (c :: rest)) eqn:Hm; [discriminate|].
    destruct (Nat.eq_dec i pos) as [->|Hne]; [rewrite <- Hrest; exact Hm|].
    symmetry in Hrest. apply skipn_step in Hrest. destruct Hrest as [Hc Hnext].
    assert (pos < length s)%nat by (apply nth_error_Some; congruence).
    rewrite <- Hc in H.
    change (nth_error s pos) with (char_before s (S pos)) in H.
    apply (IH (S pos)); [symmetry; exact Hnext|lia|exact H|lia].
Qed.

(** With a header in the text, by-sections decomposition tags its chunks:
    the first one is the preamble or a section. *)
Lemma decomposeBySections_header_tagged (source : text) (p : nat) :
  header_at source p ->
  exists c chunks tag,
    decomposeBySections source = Returned (c :: chunks) /\
    metadata c = Some tag.
Proof.
  intros Hheader.
  assert (Hp : (p <= length source)%nat).
  { destruct Hheader as (_ & k & j & c & Hk & Hhash & _).
    specialize (Hhash O ltac:(lia)). rewrite Nat.add_0_r in Hhash.
    assert (p < length source)%nat by (apply nth_error_Some; congruence). lia. }
  destruct (header_at_section_at source p Hheader) as (f & Hf).
  unfold decomposeBySections.
  destruct (exec_all_chained section_at source section_at_progresses
              (S (length source)) O ltac:(lia)) as (found & Hrun & _).
  rewrite Hrun. cbn [bind].
  destruct found as [|first rest].
  - exfalso. cbn [exec_all] in Hrun.
    destruct (exec section_at source 0) as [[i g]|] eqn:Hexec.
    + destruct (exec_all (length source) section_at source (i + found_length g));
        discriminate Hrun.
    + unfold exec in Hexec. cbn [Nat.leb] in Hexec.
      pose proof (exec_from_complete section_at source (skipn 0 source) O
                    eq_refl ltac:(lia) Hexec p ltac:(lia)) as Hnone.
      congruence.
  - cbn [map].
    destruct ((0 <? start (to_SectionMatch first))
              && truthy (trim (slice source 0 (start (to_SectionMatch first))))).
    + eexists _, _, _. split; reflexivity.
    + cbn [decomposeBySections_loop]. eexists _, _, _. split; reflexivity.
Qed.

(** By-sections decomposition returns the whole text as one untagged
    chunk exactly when the text has no header. *)
Lemma by_sections_one_untagged_chunk_iff (E : Engine) (source : text)
  (options : Options) :
  decompose E source BY_SECTIONS options
  = Returned [mkChunk 0 source 0 (len source) None]
  <-> forall p, ~ header_at source p.
Proof.
  cbn [decompose]. split.
  - intros Hrun p Hheader.
    destruct (decomposeBySections_header_tagged source p Hheader)
      as (c & chunks & tag & Hrun' & Htag).
    rewrite Hrun in Hrun'. inversion Hrun'; subst c. discriminate Htag.
  - apply decomposeBySections_no_header.
Qed.


(** A tab between the markers and the title makes a header of the
    pattern, as it does in Markdown, though not a header line in the
    words of the specification. *)
Lemma by_sections_tab_header_is_section :
  (forall p, ~ header_line_at tab_header p) /\
  decompose Sample.blank_engine tab_header BY_SECTIONS no_options
  = Returned [mkChunk 0 tab_header 0 7 (Some (SectionTag 1 (str "Title")))].
Proof.
  split; [|vm_compute; reflexivity].
  intros p (_ & k & c & Hk & Hhash & Hspace & _).
  pose proof (Hhash O ltac:(lia)) as H0. rewrite Nat.add_0_r in H0.
  assert (Hp : p = O).
  { destruct p as [|p]; [reflexivity|]. exfalso.
    do 7 (destruct p as [|p]; [vm_compute in H0; discriminate H0|]).
    destruct p; vm_compute in H0; discriminate H0. }
  subst p. destruct k as [|[|k]]; [lia| |].
  - vm_compute in Hspace. discriminate Hspace.
  - specialize (Hhash 1%nat ltac:(lia)). vm_compute in Hhash. discriminate Hhash.
Qed.

(** ** [indexOf] *)

Lemma starts_with_app (t r : text) : starts_with (t ++ r) t = true.
Proof.
  induction t as [|y t IH]; [destruct r; reflexivity|].
  cbn [app starts_with]. rewrite N.eqb_refl, IH. reflexivity.
Qed.

Lemma starts_with_prefix (s t : text) :
  starts_with s t = true -> exists r, s = t ++ r.
Proof.
  revert s. induction t as [|y t IH]; intros s H.
  - exists s. reflexivity.
  - destruct s as [|x s]; cbn [starts_with] in H; [discriminate|].
    apply andb_true_iff in H. destruct H as [Hx Ht].
    apply N.eqb_eq in Hx. subst y.
    destruct (IH s Ht) as [r Hr]. exists r. subst s. reflexivity.
Qed.

Lemma starts_with_length (s t : text) :
  starts_with s t = true -> (length t <= length s)%nat.
Proof.
  intros H. apply starts_with_prefix in H. destruct H as [r ->].
  rewrite length_app. lia.
Qed.

(** What [index_in] finds is an occurrence. *)
Lemma index_in_occurs (s t : text) :
  forall i, index_in s t = Some i ->
    starts_with (skipn i s) t = true /\ (i + length t <= length s)%nat.
Proof.
  induction s as [|x s IH]; intros i H; cbn [index_in] in H.
  - destruct (starts_with [] t) eqn:Hst; [|discriminate].
    inversion H; subst. split; [exact Hst|].
    apply starts_with_length in Hst. cbn [length] in *. lia.
  - destruct (starts_with (x :: s) t) eqn:Hst.
    + inversion H; subst. split; [exact Hst|].
      apply starts_with_length in Hst. lia.
    + destruct (index_in s t) as [j|] eqn:Hj; [|discriminate].
      inversion H; subst. destruct (IH j eq_refl) as [Hocc Hlen].
      split; [exact Hocc|]. cbn [length]. lia.
Qed.

(** [index_in] finds the first occurrence: it is no later than any other. *)
Lemma index_in_first (s t : text) :
  forall k, starts_with (skipn k s) t = true ->
    exists i, index_in s t = Some i /\ (i <= k)%nat.
Proof.
  induction s as [|x s IH]; intros k H.
  - rewrite skipn_nil in H. cbn [index_in]. rewrite H.
    exists O. split; [reflexivity|lia].
  - cbn [index_in]. destruct (starts_with (x :: s) t) eqn:Hst.
    + exists O. split; [reflexivity|lia].
    + destruct k as [|k]; [cbn [skipn] in H; congruence|].
      cbn [skipn] in H. destruct (IH k H) as (i & Hi & Hle).
      rewrite Hi. exists (S i). split; [reflexivity|lia].
Qed.

(** A forward scan from [from] for a part that occurs at [k >= from]:
    [indexOf] returns an occurrence between the two. *)
Lemma indexOf_forward (s t : text) (from : Z) (k : nat) :
  0 <= from <= Z.of_nat k ->
  firstn (length t) (skipn k s) = t ->
  (k + length t <= length s)%nat ->
  from <= indexOf s t from <= Z.of_nat k /\
  indexOf s t from + len t <= len s.
Proof.
  intros Hfrom Hocc Hlen. unfold indexOf.
  assert (Hclamp : Z.min (Z.max from 0) (len s) = from) by (unfold len; lia).
  rewrite Hclamp.
  set (k0 := Z.to_nat from).
  assert (Hst : starts_with (skipn (k - k0) (skipn k0 s)) t = true).
  { rewrite skipn_skipn. replace (k - k0 + k0)%nat with k by lia.
    rewrite <- (firstn_skipn (length t) (skipn k s)), Hocc.
    apply starts_with_app. }
  destruct (index_in_first _ _ _ Hst) as (i & Hi & Hle).
  rewrite Hi. apply index_in_occurs in Hi. destruct Hi as [_ Hin].
  rewrite length_skipn in Hin. unfold len. lia.
Qed.

(** ** [decomposeByParagraphs] and [decomposeByRegex] *)

Lemma pieces_tail (source : text) (k : nat) (p : text) (ps : list text) :
  pieces source k (p :: ps) ->
  exists k', (k + length p <= k')%nat /\ pieces source k' ps.
Proof.
  intros (_ & _ & H). destruct ps as [|q ps].
  - exists (k + length p)%nat. split; [lia|exact I].
  - exact H.
Qed.

(** The forward scan over successive pieces of the text: every chunk
    lies in the text, at or after the scan offset, and the chunks come in
    the order of their start offsets. *)
Lemma decomposeByParagraphs_forEach_spec (source : text) (parts : list text) :
  forall index offset k,
    pieces source k parts ->
    0 <= offset <= Z.of_nat k ->
    Forall (fun c => offset <= startOffset c /\
                     startOffset c <= endOffset c /\
                     endOffset c <= len source)
           (decomposeByParagraphs_forEach source parts index offset) /\
    starts_sorted (decomposeByParagraphs_forEach source parts index offset).
Proof.
  induction parts as [|p ps IH]; intros index offset k Hpieces Hoff.
  - split; constructor.
  - destruct (pieces_tail _ _ _ _ Hpieces) as (k' & Hk' & Htail).
    destruct Hpieces as (Hocc & Hlen & _).
    cbn [decomposeByParagraphs_forEach].
    destruct (truthy (trim p)).
    + pose proof (indexOf_forward source p offset k Hoff Hocc Hlen) as [Hidx Hend].
      pose proof (len_nonneg p) as Hp.
      destruct (IH (index + 1) (indexOf source p offset + len p) k' Htail)
        as [Hbounds Hsorted]; [unfold len in *; lia|].
      split.
      * constructor; [cbn [startOffset endOffset]; lia|].
        weaken_all Hbounds.
      * destruct (decomposeByParagraphs_forEach source ps (index + 1)
                    (indexOf source p offset + len p)) as [|c' cs'] eqn:Hrest;
          [exact I|].
        cbn [starts_sorted startOffset]. split; [|exact Hsorted].
        inversion Hbounds; subst. lia.
    + apply (IH (index + 1) offset k' Htail). lia.
Qed.

Lemma skipn_app_exact {A : Type} (pre r : list A) :
  skipn (length pre) (pre ++ r) = r.
Proof. induction pre as [|a pre IH]; [reflexivity|exact IH]. Qed.

(** [split] on runs of blank lines returns successive pieces of the
    text; outside a separator the first piece starts where the scan is. *)
Lemma split_blank_pieces_aux (n : nat) :
  forall s, (length s <= n)%nat ->
  forall (pre : text) (in_sep : bool),
    exists k,
      (length pre <= k)%nat /\
      (in_sep = false -> k = length pre) /\
      pieces (pre ++ s) k (split_blank s in_sep) /\
      split_blank s in_sep <> [].
Proof.
  induction n as [|n IH]; intros s Hn pre in_sep.
  - destruct s; [|cbn [length] in Hn; lia].
    exists (length pre). cbn [split_blank pieces length firstn].
    repeat split; try lia; try discriminate.
    rewrite length_app. cbn [length]. lia.
  - destruct s as [|c s'].
    { exists (length pre). cbn [split_blank pieces length firstn].
      repeat split; try lia; try discriminate.
      rewrite length_app. cbn [length]. lia. }
    cbn [length] in Hn. cbn [split_blank].
    destruct (in_sep && (c =? LF)%N) eqn:Hsep.
    + destruct (IH s' ltac:(lia) (pre ++ [c]) true) as (k & Hk & _ & Hp & Hne).
      rewrite <- app_assoc in Hp. cbn [app] in Hp.
      rewrite length_app in Hk. cbn [length] in Hk.
      exists k. repeat split; try assumption; try lia.
      intros ->. discriminate.
    + destruct s' as [|c' s''].
      { exists (length pre). repeat split; try lia; try discriminate.
        cbn [pieces length]. rewrite skipn_app_exact. repeat split.
        rewrite length_app. cbn [length]. lia. }
      destruct ((c =? LF)%N && (c' =? LF)%N) eqn:Hblank.
      * cbn [length] in Hn.
        destruct (IH s'' ltac:(lia) (pre ++ [c; c']) true) as (k & Hk & _ & Hp & Hne).
        rewrite <- app_assoc in Hp. cbn [app] in Hp.
        rewrite length_app in Hk. cbn [length] in Hk.
        exists (length pre). repeat split; try lia; try discriminate.
        cbn [pieces length firstn]. repeat split.
        -- rewrite length_app. cbn [length]. lia.
        -- destruct (split_blank s'' true) as [|q qs]; [congruence|].
           exists k. split; [cbn [length]; lia|exact Hp].
      * destruct (IH (c' :: s'') ltac:(lia) (pre ++ [c]) false)
          as (k & _ & Hk & Hp & Hne).
        specialize (Hk eq_refl). subst k.
        rewrite <- app_assoc in Hp. cbn [app] in Hp.
        rewrite length_app in Hp. cbn [length] in Hp.
        destruct (split_blank (c' :: s'') false) as [|p ps]; [congruence|].
        destruct Hp as (Hocc & Hlen & Hrest).
        exists (length pre). split; [lia|]. split; [reflexivity|].
        split; [|discriminate].
        cbn [pieces]. repeat split.
        -- rewrite skipn_app_exact. cbn [length firstn]. f_equal.
           replace (length pre + 1)%nat with (length (pre ++ [c])) in Hocc
             by (rewrite length_app; cbn [length]; lia).
           replace (pre ++ c :: c' :: s'') with ((pre ++ [c]) ++ c' :: s'') in Hocc
             by (rewrite <- app_assoc; reflexivity).
           rewrite skipn_app_exact in Hocc. exact Hocc.
        -- cbn [length]. lia.
        -- destruct ps as [|q qs]; [exact I|].
           destruct Hrest as (k' & Hk' & Hq). exists k'.
           split; [cbn [length]; lia|exact Hq].
Qed.

Lemma split_blank_lines_pieces (source : text) :
  pieces source 0 (split_blank_lines source).
Proof.
  destruct (split_blank_pieces_aux (length source) source (Nat.le_refl _) [] false)
    as (k & _ & Hk & Hp & _).
  specialize (Hk eq_refl). subst k. exact Hp.
Qed.

(** The chunks of the by-paragraphs strategy lie in the text, in the
    order of their start offsets. *)
Lemma decomposeByParagraphs_spec (source : text) :
  Forall (in_bounds source) (decomposeByParagraphs source) /\
  starts_sorted (decomposeByParagraphs source).
Proof.
  unfold decomposeByParagraphs.
  destruct (decomposeByParagraphs_forEach_spec source (split_blank_lines source)
              0 0 O (split_blank_lines_pieces source) ltac:(lia))
    as [Hbounds Hsorted].
  split; [|exact Hsorted].
  eapply Forall_impl; [|exact Hbounds]. cbv beta. intros c Hc.
  unfold in_bounds. lia.
Qed.

(** On an array without [undefined] the two [forEach] loops agree. *)
Lemma decomposeByRegex_forEach_defined (source : text) (parts : list text) :
  forall index offset,
    decomposeByRegex_forEach source (map Some parts) index offset
    = Returned (decomposeByParagraphs_forEach source parts index offset).
Proof.
  induction parts as [|p ps IH]; intros index offset; [reflexivity|].
  cbn [map decomposeByRegex_forEach decomposeByParagraphs_forEach].
  destruct (truthy (trim p)).
  - rewrite IH. reflexivity.
  - apply IH.
Qed.

(** ** Offsets, indices and order, strategy by strategy *)

Section FixedSizeOrder.

Variable source : text.
Variables chunkSize overlap : Z.

(** The chunks of the fixed-size loop start in the text at or after
    [offset], end in the text, carry consecutive indices and come in the
    order of their start offsets; a non-negative chunk size puts each end
    at or after its start. *)
Lemma decomposeBySize_loop_spec (fuel : nat) :
  forall index offset chunks,
    0 <= offset ->
    decomposeBySize_loop fuel source chunkSize overlap index offset = Returned chunks ->
    Forall (fun c => offset <= startOffset c /\
                     endOffset c <= len source /\
                     (0 <= chunkSize -> startOffset c <= endOffset c)) chunks /\
    indexed_from index chunks /\
    starts_sorted chunks.
Proof.
  induction fuel as [|fuel IH]; intros index offset chunks Hoff Hrun;
    cbn [decomposeBySize_loop] in Hrun; [discriminate|].
  destruct (Z.ltb_spec offset (len source)) as [Hlt|Hge].
  2:{ inversion Hrun; subst. repeat split; constructor. }
  assert (Hfirst : forall c,
             c = mkChunk index (slice source offset
                                  (Z.min (offset + chunkSize) (len source)))
                         offset (Z.min (offset + chunkSize) (len source)) None ->
             offset <= startOffset c /\ endOffset c <= len source /\
             (0 <= chunkSize -> startOffset c <= endOffset c)).
  { intros c ->. cbn [startOffset endOffset]. lia. }
  destruct (Z.leb_spec (chunkSize - overlap) 0) as [Hstep|Hstep].
  - inversion Hrun; subst. split; [|split].
    + constructor; [apply Hfirst; reflexivity|constructor].
    + split; [reflexivity|exact I].
    + exact I.
  - destruct (decomposeBySize_loop fuel source chunkSize overlap (index + 1)
                (offset + (chunkSize - overlap))) as [rest| |] eqn:Hrest;
      cbn [bind] in Hrun; try discriminate.
    inversion Hrun; subst.
    destruct (IH (index + 1) (offset + (chunkSize - overlap)) rest ltac:(lia) Hrest)
      as (Hbounds & Hidx & Hsorted).
    split; [|split].
    + constructor; [apply Hfirst; reflexivity|].
      weaken_all Hbounds.
    + split; [reflexivity|exact Hidx].
    + destruct rest as [|c' rest']; [exact I|].
      cbn [starts_sorted startOffset]. split; [|exact Hsorted].
      inversion Hbounds; subst. lia.
Qed.

End FixedSizeOrder.

Lemma decomposeBySize_spec (source : text) (chunkSize overlap : Z) :
  exists chunks,
    decomposeBySize source chunkSize overlap = Returned chunks /\
    (0 <= chunkSize -> Forall (in_bounds source) chunks) /\
    indexed_from 0 chunks /\
    starts_sorted chunks.
Proof.
  destruct (decomposeBySize_total source chunkSize overlap) as [chunks Hrun].
  exists chunks. split; [exact Hrun|].
  destruct (decomposeBySize_loop_spec source chunkSize overlap _ 0 0 chunks
              ltac:(lia) Hrun) as (Hbounds & Hidx & Hsorted).
  repeat split; try assumption.
  intros Hcs. eapply Forall_impl; [|exact Hbounds]. cbv beta.
  intros c (H1 & H2 & H3). specialize (H3 Hcs). unfold in_bounds. lia.
Qed.

(** The section chunks: from one header to the next, or to the end. *)
Lemma decomposeBySections_loop_spec (source : text) (found : list (nat * Found)) :
  forall from index,
    chained (length source) from found ->
    Forall (fun c => Z.of_nat from <= startOffset c /\
                     startOffset c <= endOffset c /\
                     endOffset c <= len source)
           (decomposeBySections_loop source (map to_SectionMatch found) index) /\
    indexed_from index
      (decomposeBySections_loop source (map to_SectionMatch found) index) /\
    starts_sorted
      (decomposeBySections_loop source (map to_SectionMatch found) index).
Proof.
  induction found as [|[i f] rest IH]; intros from index Hchain.
  - repeat split; constructor.
  - cbn [chained] in Hchain. destruct Hchain as (Hfrom & Hf & Hend & Hrest).
    cbn [map decomposeBySections_loop].
    destruct (IH _ (index + 1) Hrest) as (Hbounds & Hidx & Hsorted).
    split; [|split].
    + constructor.
      * cbn [startOffset endOffset to_SectionMatch start fst].
        destruct rest as [|[i' f'] rest'].
        -- cbn [map]. unfold len. lia.
        -- cbn [map to_SectionMatch start fst].
           cbn [chained] in Hrest. unfold len. lia.
      * weaken_all Hbounds.
    + split; [reflexivity|exact Hidx].
    + destruct rest as [|[i' f'] rest']; [exact I|].
      cbn [map decomposeBySections_loop] in *.
      cbn [starts_sorted startOffset]. split; [|exact Hsorted].
      cbn [to_SectionMatch start fst]. cbn [chained] in Hrest. lia.
Qed.

Lemma decomposeBySections_spec (source : text) :
  exists chunks,
    decomposeBySections source = Returned chunks /\
    Forall (in_bounds source) chunks /\
    indexed_from 0 chunks /\
    starts_sorted chunks.
Proof.
  unfold decomposeBySections.
  destruct (exec_all_chained section_at source section_at_progresses
              (S (length source)) O ltac:(lia)) as (found & Hrun & Hchain).
  rewrite Hrun. cbn [bind].
  destruct found as [|[i f] rest].
  - cbn [map]. eexists. split; [reflexivity|].
    split; [|split; [split; [reflexivity|exact I]|exact I]].
    constructor; [|constructor].
    unfold in_bounds. cbn [startOffset endOffset].
    pose proof (len_nonneg source). lia.
  - destruct (decomposeBySections_loop_spec source ((i, f) :: rest) O 0 Hchain)
      as (Hb0 & Hi0 & Hs0).
    destruct (decomposeBySections_loop_spec source ((i, f) :: rest) O 1 Hchain)
      as (Hb1 & Hi1 & Hs1).
    assert (Hin : forall cs,
               Forall (fun c => Z.of_nat 0 <= startOffset c /\
                                startOffset c <= endOffset c /\
                                endOffset c <= len source) cs ->
               Forall (in_bounds source) cs).
    { intros cs H. weaken_all H. }
    cbn [map] in *. cbn [to_SectionMatch start fst].
    destruct ((0 <? Z.of_nat i) &&
              truthy (trim (slice source 0 (Z.of_nat i)))) eqn:Hpre.
    + eexists. split; [reflexivity|]. split; [|split].
      * constructor; [|apply Hin; exact Hb1].
        cbn [chained] in Hchain. unfold in_bounds, len.
        cbn [startOffset endOffset]. lia.
      * split; [reflexivity|exact Hi1].
      * cbn [decomposeBySections_loop] in *.
        cbn [starts_sorted startOffset]. split; [|exact Hs1].
        cbn [to_SectionMatch start fst]. lia.
    + eexists. split; [reflexivity|]. split; [|split].
      * apply Hin. exact Hb0.
      * exact Hi0.
      * exact Hs0.
Qed.

(** The sentence chunks: one per match, where the match is. *)
Lemma decomposeBySentences_loop_spec (source : text) (found : list (nat * Found)) :
  forall from index,
    chained (length source) from found ->
    Forall (fun c => Z.of_nat from <= startOffset c /\
                     startOffset c <= endOffset c /\
                     endOffset c <= len source)
           (decomposeBySentences_loop source found index) /\
    indexed_from index (decomposeBySentences_loop source found index) /\
    starts_sorted (decomposeBySentences_loop source found index).
Proof.
  induction found as [|[i f] rest IH]; intros from index Hchain.
  - repeat split; constructor.
  - cbn [chained] in Hchain. destruct Hchain as (Hfrom & Hf & Hend & Hrest).
    cbn [decomposeBySentences_loop].
    destruct (IH _ (index + 1) Hrest) as (Hbounds & Hidx & Hsorted).
    assert (Hlen : len (firstn (found_length f) (skipn i source))
                   = Z.of_nat (found_length f)).
    { unfold len. rewrite length_firstn, length_skipn. lia. }
    split; [|split].
    + constructor.
      * cbn [startOffset endOffset]. rewrite Hlen. unfold len. lia.
      * weaken_all Hbounds.
    + split; [reflexivity|exact Hidx].
    + destruct rest as [|[i' f'] rest']; [exact I|].
      cbn [decomposeBySentences_loop] in *.
      cbn [starts_sorted startOffset]. split; [|exact Hsorted].
      cbn [chained] in Hrest. lia.
Qed.

Lemma decomposeBySentences_spec (source : text) :
  exists chunks,
    decomposeBySentences source = Returned chunks /\
    Forall (in_bounds source) chunks /\
    indexed_from 0 chunks /\
    starts_sorted chunks.
Proof.
  unfold decomposeBySentences.
  destruct (exec_all_chained sentence_at source sentence_at_progresses
              (S (length source)) O ltac:(lia)) as (found & Hrun & Hchain).
  rewrite Hrun. cbn [bind].
  destruct (decomposeBySentences_loop_spec source found O 0 Hchain)
    as (Hbounds & Hidx & Hsorted).
  destruct (decomposeBySentences_loop source found 0) as [|c cs] eqn:Hs.
  - destruct (truthy (trim source)).
    + eexists. split; [reflexivity|].
      split; [|split; [split; [reflexivity|exact I]|exact I]].
      constructor; [|constructor].
      unfold in_bounds. cbn [startOffset endOffset].
      pose proof (len_nonneg source). lia.
    + exists []. repeat split; constructor.
  - eexists. split; [reflexivity|]. split; [|split; assumption].
    weaken_all Hbounds.
Qed.

(** ** Offsets of the chunks of [decompose] *)

(** C2. The bound [0 <= startOffset <= endOffset <= length of the text]
    fails on a request that the schema of [rlm_get_chunks] accepts: its
    [chunk_size] is any integer, without the minimum of 100 that
    [rlm_decompose_context] sets.  With a chunk size of -1 on the context
    ["abc"], [decompose] computes the end [min(0 + -1, 3) = -1], takes
    [slice(0, -1)] and stops at its guard: the one chunk ["ab"] starts at
    0 and ends at -1, before its start and before the text, and the
    handler returns it with these offsets. *)
Theorem get_chunks_negative_chunk_size_out_of_bounds (E : Engine) :
  decompose E (context_content abc_context) (gc_strategy negative_size_request)
            (mkOptions (Some (gc_chunk_size negative_size_request))
                       (Some (gc_overlap negative_size_request)) None None None)
  = Returned [mkChunk 0 (str "ab") 0 (-1) None]
  /\ ~ in_bounds (context_content abc_context) (mkChunk 0 (str "ab") 0 (-1) None)
  /\ rlm_get_chunks E (Some abc_context) negative_size_request
     = Returned (GetChunksOk
                   (mkGetChunksOutput 1 1 [mkChunkView 0 (str "ab") 0 (-1)])).
Proof.
  split; [|split].
  - vm_compute. reflexivity.
  - unfold in_bounds. cbn [startOffset endOffset]. lia.
  - vm_compute. reflexivity.
Qed.

(** The strategies other than by-regex always return. *)
Lemma decompose_returns (E : Engine) (source : text)
  (strategy : DecompositionStrategy) (options : Options) :
  strategy <> BY_REGEX ->
  exists chunks, decompose E source strategy options = Returned chunks.
Proof.
  intros Hs. destruct strategy; cbn [decompose]; try congruence.
  - apply decomposeBySize_total.
  - destruct (decomposeByLines_spec source
                (num_or (linesPerChunk options) DEFAULT_LINES_PER_CHUNK)
                (num_or (overlap options) 10)) as (chunks & H & _).
    eauto.
  - eauto.
  - destruct (decomposeBySections_spec source) as (chunks & H & _). eauto.
  - destruct (decomposeBySentences_spec source) as (chunks & H & _). eauto.
Qed.

Lemma num_or_nonneg (x : option Z) (d : Z) :
  0 <= d -> (forall n, x = Some n -> 0 <= n) -> 0 <= num_or x d.
Proof.
  intros Hd Hx. unfold num_or. destruct x as [v|]; [|exact Hd].
  destruct (v =? 0); [exact Hd|]. apply Hx. reflexivity.
Qed.

(** Where the bound holds.  For every text, every strategy and every
    options value, each chunk returned by [decompose] satisfies
    [0 <= startOffset <= endOffset <= length of the text], provided that
    - for the fixed-size strategy, the chunk size, when given, is not
      negative (the other strategies do not read it);
    - for the by-regex strategy, [split] returns successive pieces of
      the text, as it does for a pattern without capture groups.
    Every strategy but by-regex returns. *)
Theorem decompose_chunks_in_bounds (E : Engine) (source : text)
  (strategy : DecompositionStrategy) (options : Options) :
  (strategy = FIXED_SIZE -> forall n, chunkSize options = Some n -> 0 <= n) ->
  (strategy = BY_REGEX ->
   forall regex,
     RegExp_new E (str_or (pattern options) default_pattern) (str "g") = Some regex ->
     exists parts k,
       RegExp_split E regex source = map Some parts /\ pieces source k parts) ->
  (strategy <> BY_REGEX ->
   exists chunks, decompose E source strategy options = Returned chunks) /\
  (forall chunks,
     decompose E source strategy options = Returned chunks ->
     Forall (in_bounds source) chunks).
Proof.
  intros Hcs Hsplit. split; [apply decompose_returns|].
  intros chunks Hrun. destruct strategy; cbn [decompose] in Hrun.
  - destruct (decomposeBySize_spec source
                (num_or (chunkSize options) DEFAULT_CHUNK_SIZE)
                (num_or (overlap options) DEFAULT_OVERLAP))
      as (chunks' & Hrun' & Hbounds & _).
    same_run Hrun Hrun'.
    apply Hbounds.
    apply num_or_nonneg; [unfold DEFAULT_CHUNK_SIZE; lia|exact (Hcs eq_refl)].
  - destruct (decomposeByLines_spec source
                (num_or (linesPerChunk options) DEFAULT_LINES_PER_CHUNK)
                (num_or (overlap options) 10))
      as (chunks' & Hrun' & Hbounds & _).
    same_run Hrun Hrun'. exact Hbounds.
  - inversion Hrun; subst chunks. apply decomposeByParagraphs_spec.
  - destruct (decomposeBySections_spec source) as (chunks' & Hrun' & Hbounds & _).
    same_run Hrun Hrun'. exact Hbounds.
  - unfold decomposeByRegex in Hrun.
    destruct (RegExp_new E (str_or (pattern options) default_pattern) (str "g"))
      as [regex|] eqn:Hnew; [|discriminate].
    destruct (Hsplit eq_refl regex eq_refl) as (parts & k & Hparts & Hpieces).
    rewrite Hparts, decomposeByRegex_forEach_defined in Hrun.
    inversion Hrun; subst chunks.
    destruct (decomposeByParagraphs_forEach_spec source parts 0 0 k Hpieces
                ltac:(lia)) as [Hbounds _].
    weaken_all Hbounds.
  - destruct (decomposeBySentences_spec source) as (chunks' & Hrun' & Hbounds & _).
    same_run Hrun Hrun'. exact Hbounds.
Qed.

Lemma decompose_chunks_in_bounds_witness :
  (BY_REGEX = FIXED_SIZE -> forall n, chunkSize no_options = Some n -> 0 <= n) /\
  (BY_REGEX = BY_REGEX ->
   forall regex,
     RegExp_new Sample.blank_engine (str_or (pattern no_options) default_pattern)
                (str "g") = Some regex ->
     exists parts k,
       RegExp_split Sample.blank_engine regex blank_then_abc = map Some parts /\
       pieces blank_then_abc k parts) /\
  (BY_REGEX <> BY_REGEX ->
   exists chunks,
     decompose Sample.blank_engine blank_then_abc BY_REGEX no_options
     = Returned chunks) /\
  (forall chunks,
     decompose Sample.blank_engine blank_then_abc BY_REGEX no_options
     = Returned chunks ->
     Forall (in_bounds blank_then_abc) chunks).
Proof.
  assert (H1 : BY_REGEX = FIXED_SIZE ->
               forall n, chunkSize no_options = Some n -> 0 <= n)
    by (intros H; discriminate H).
  assert (H2 : BY_REGEX = BY_REGEX ->
               forall regex,
                 RegExp_new Sample.blank_engine
                            (str_or (pattern no_options) default_pattern)
                            (str "g") = Some regex ->
                 exists parts k,
                   RegExp_split Sample.blank_engine regex blank_then_abc
                   = map Some parts /\
                   pieces blank_then_abc k parts).
  { intros _ regex _. exists (split_blank_lines blank_then_abc), O.
    split; [reflexivity|apply split_blank_lines_pieces]. }
  split; [exact H1|]. split; [exact H2|].
  exact (decompose_chunks_in_bounds Sample.blank_engine blank_then_abc
           BY_REGEX no_options H1 H2).
Defined.

(** ** Indices and order of the chunks of [decompose] *)

(** C4. By-paragraphs decomposition of two line feeds followed by [abc]
    returns one chunk, whose index is 1: [forEach] numbers the pieces of
    [split], the empty piece before the line feeds included, and that
    piece is dropped.  The indices of the returned chunks do not start
    at 0. *)
Theorem by_paragraphs_index_skips_dropped_piece (E : Engine) (options : Options) :
  decompose E blank_then_abc BY_PARAGRAPHS options
  = Returned [mkChunk 1 (str "abc") 2 5 None]
  /\ ~ indexed_from 0 [mkChunk 1 (str "abc") 2 5 None].
Proof.
  split.
  - vm_compute. reflexivity.
  - cbn [indexed_from index]. intros [H _]. discriminate H.
Qed.

(** The four strategies that count the chunks they push number them from
    0, and every strategy but by-regex returns its chunks in the order of
    their start offsets. *)
Lemma decompose_indexed_and_sorted (E : Engine) (source : text)
  (strategy : DecompositionStrategy) (options : Options) :
  strategy <> BY_REGEX ->
  exists chunks,
    decompose E source strategy options = Returned chunks /\
    starts_sorted chunks /\
    (strategy <> BY_PARAGRAPHS -> indexed_from 0 chunks).
Proof.
  intros Hs. destruct strategy; cbn [decompose]; try congruence.
  - destruct (decomposeBySize_spec source
                (num_or (chunkSize options) DEFAULT_CHUNK_SIZE)
                (num_or (overlap options) DEFAULT_OVERLAP))
      as (chunks & Hrun & _ & Hidx & Hsorted). eauto.
  - destruct (decomposeByLines_spec source
                (num_or (linesPerChunk options) DEFAULT_LINES_PER_CHUNK)
                (num_or (overlap options) 10))
      as (chunks & Hrun & _ & Hidx & Hsorted). eauto.
  - eexists. split; [reflexivity|]. split; [apply decomposeByParagraphs_spec|].
    congruence.
  - destruct (decomposeBySections_spec source)
      as (chunks & Hrun & _ & Hidx & Hsorted). eauto.
  - destruct (decomposeBySentences_spec source)
      as (chunks & Hrun & _ & Hidx & Hsorted). eauto.
Qed.

(** The by-regex strategy, on the program's own pattern, has the same
    gap in its indices. *)
Lemma by_regex_index_skips_dropped_piece (options : Options) :
  pattern options = None ->
  decompose Sample.blank_engine blank_then_abc BY_REGEX options
  = Returned [mkChunk 1 (str "abc") 2 5 None].
Proof.
  intros H. cbn [decompose]. rewrite H. vm_compute. reflexivity.
Qed.

(** ** [search] and the [rlm_search_context] handler *)

(** [search] catches what [new RegExp] throws: on a pattern that does
    not compile it returns no match and signals nothing. *)
Lemma search_invalid_pattern_empty (E : Engine) (source pattern : text)
  (options : SearchOptions) :
  RegExp_new E pattern (default_to (flags options) (str "gi")) = None ->
  search E source pattern options = Returned [].
Proof.
  intros H. unfold search. rewrite H. reflexivity.
Qed.

(** [search] never throws, whatever the pattern. *)
Lemma search_never_throws (E : Engine) (source pattern : text)
  (options : SearchOptions) (e : error) :
  search E source pattern options <> Threw e.
Proof.
  unfold search.
  destruct (RegExp_new E pattern (default_to (flags options) (str "gi")));
    cbn [try_catch]; [|discriminate].
  match goal with |- try_catch ?body _ <> _ => destruct body end;
    cbn [try_catch]; discriminate.
Qed.

(** The loop of [search] ends within [maxResults + 1] rounds. *)
Lemma search_loop_returns (E : Engine) (regex : RegExp E) (source : text)
  (contextChars maxResults : Z) (lineNumbers : bool) (fuel : nat) :
  forall lastIndex count,
    Z.max 0 (maxResults - count) < Z.of_nat fuel ->
    exists results,
      search_loop fuel E regex source contextChars maxResults lineNumbers
                  lastIndex count = Returned results /\
      len results <= Z.max 0 (maxResults - count).
Proof.
  induction fuel as [|fuel IH]; intros lastIndex count Hfuel;
    [exfalso; simpl in Hfuel; lia|].
  cbn [search_loop].
  destruct (RegExp_exec E regex source lastIndex) as [[m|] lastIndex'].
  - destruct (Z.ltb_spec count maxResults) as [Hlt|Hge].
    + match goal with
      | |- context [search_loop fuel E regex source contextChars maxResults
                                lineNumbers ?li (count + 1)] =>
          destruct (IH li (count + 1) ltac:(lia)) as (rest & Hrest & Hlen)
      end.
      rewrite Hrest. cbn [bind]. eexists. split; [reflexivity|].
      rewrite len_cons. lia.
    + exists []. split; [reflexivity|]. rewrite (len_nil SearchMatch). lia.
  - exists []. split; [reflexivity|]. rewrite (len_nil SearchMatch). lia.
Qed.

(** [search] always returns, with at most [maxResults] matches. *)
Lemma search_returns (E : Engine) (source pattern : text) (options : SearchOptions) :
  exists results,
    search E source pattern options = Returned results /\
    len results <= Z.max 0 (default_to (maxResults options) MAX_SEARCH_RESULTS).
Proof.
  unfold search.
  destruct (RegExp_new E pattern (default_to (flags options) (str "gi")))
    as [regex|].
  - destruct (search_loop_returns E regex source
                (default_to (contextChars options) 100)
                (default_to (maxResults options) MAX_SEARCH_RESULTS)
                (default_to (includeLineNumbers options) true)
                (S (Z.to_nat (default_to (maxResults options) MAX_SEARCH_RESULTS)))
                0 0 ltac:(lia)) as (results & Hrun & Hlen).
    rewrite Hrun. cbn [try_catch]. exists results. split; [reflexivity|lia].
  - cbn [try_catch]. exists []. split; [reflexivity|].
    rewrite (len_nil SearchMatch). lia.
Qed.

(** The handler never reaches its error message: whatever it returns for
    a context that exists is a normal result. *)
Lemma rlm_search_context_never_reports (E : Engine) (ctx : Context)
  (params : SearchContextInput) :
  exists output,
    rlm_search_context E (Some ctx) params = Returned (SearchOk output).
Proof.
  unfold rlm_search_context.
  destruct (search_returns E (context_content ctx) (sc_pattern params)
              (mkSearchOptions (Some (sc_flags params))
                               (Some (sc_context_chars params))
                               (Some (sc_max_results params))
                               (Some (sc_include_line_numbers params))))
    as (results & Hrun & _).
  rewrite Hrun. cbn [bind try_catch]. eauto.
Qed.

(** C6. For every text and every pattern that [new RegExp] rejects,
    [search] returns an empty match sequence without throwing; the
    [rlm_search_context] handler therefore never sees the error and
    returns a normal result with no match, not its
    "Invalid regex pattern" message. *)
Theorem invalid_pattern_is_silent_at_tool_boundary (E : Engine) (ctx : Context)
  (params : SearchContextInput) :
  RegExp_new E (sc_pattern params) (sc_flags params) = None ->
  search E (context_content ctx) (sc_pattern params)
         (mkSearchOptions (Some (sc_flags params)) (Some (sc_context_chars params))
                          (Some (sc_max_results params))
                          (Some (sc_include_line_numbers params)))
  = Returned []
  /\ rlm_search_context E (Some ctx) params
     = Returned (SearchOk (mkSearchOutput (sc_pattern params) 0 []))
  /\ forall e, rlm_search_context E (Some ctx) params
               <> Returned (SearchInvalidPattern e).
Proof.
  intros Hbad.
  assert (Hsearch :
            search E (context_content ctx) (sc_pattern params)
                   (mkSearchOptions (Some (sc_flags params))
                                    (Some (sc_context_chars params))
                                    (Some (sc_max_results params))
                                    (Some (sc_include_line_numbers params)))
            = Returned []).
  { apply search_invalid_pattern_empty. exact Hbad. }
  split; [exact Hsearch|].
  assert (Hhandler : rlm_search_context E (Some ctx) params
                     = Returned (SearchOk (mkSearchOutput (sc_pattern params) 0 []))).
  { unfold rlm_search_context. rewrite Hsearch. reflexivity. }
  split; [exact Hhandler|].
  intros e. rewrite Hhandler. discriminate.
Qed.

Lemma invalid_pattern_is_silent_at_tool_boundary_witness :
  RegExp_new Sample.blank_engine (sc_pattern unbalanced_request)
             (sc_flags unbalanced_request) = None /\
  (search Sample.blank_engine (context_content abc_context)
          (sc_pattern unbalanced_request)
          (mkSearchOptions (Some (sc_flags unbalanced_request))
                           (Some (sc_context_chars unbalanced_request))
                           (Some (sc_max_results unbalanced_request))
                           (Some (sc_include_line_numbers unbalanced_request)))
   = Returned []
   /\ rlm_search_context Sample.blank_engine (Some abc_context) unbalanced_request
      = Returned (SearchOk (mkSearchOutput (sc_pattern unbalanced_request) 0 []))
   /\ forall e, rlm_search_context Sample.blank_engine (Some abc_context)
                                   unbalanced_request
                <> Returned (SearchInvalidPattern e)).
Proof.
  split.
  - reflexivity.
  - apply (invalid_pattern_is_silent_at_tool_boundary
             Sample.blank_engine abc_context unbalanced_request).
    reflexivity.
Defined.

(** ** The [rlm_get_chunks] handler *)

Lemma filter_shorter {A : Type} (f : A -> bool) (l : list A) :
  (exists a, In a l /\ f a = false) ->
  (length (filter f l) < length l)%nat.
Proof.
  induction l as [|x l IH]; intros (a & Hin & Hf); [destruct Hin|].
  cbn [filter length]. destruct Hin as [->|Hin].
  - rewrite Hf. pose proof (filter_length_le f l). lia.
  - destruct (f x); cbn [length].
    + apply -> Nat.succ_lt_mono. apply IH. eauto.
    + pose proof (filter_length_le f l). lia.
Qed.

Lemma in_range_spec (allChunks : list Chunk) (i : Z) :
  in_range allChunks i = true <-> 0 <= i < len allChunks.
Proof.
  unfold in_range. rewrite andb_true_iff, Z.leb_le, Z.ltb_lt. reflexivity.
Qed.

(** Every index that passed the filter has its chunk: [map] builds one
    view per index, in order, and never reads past the array. *)
Lemma view_chunks_in_range (allChunks : list Chunk) (indices : list Z) :
  Forall (fun i => in_range allChunks i = true) indices ->
  exists views,
    view_chunks allChunks indices = Returned views /\
    map cv_index views = indices /\
    Forall (shows allChunks) views.
Proof.
  induction indices as [|i rest IH]; intros Hall.
  - exists []. repeat split; constructor.
  - inversion Hall as [|? ? Hi Hrest]; subst.
    destruct (IH Hrest) as (views & Hrun & Hmap & Hshow).
    unfold in_range in Hi. apply andb_true_iff in Hi. destruct Hi as [H0 Hlen].
    apply Z.leb_le in H0. apply Z.ltb_lt in Hlen.
    destruct (nth_error allChunks (Z.to_nat i)) as [c|] eqn:Hc.
    2:{ apply nth_error_None in Hc. unfold len in Hlen. lia. }
    cbn [view_chunks]. unfold chunk_at.
    destruct (Z.ltb_spec i 0) as [Hneg|_]; [lia|].
    rewrite Hc. cbn [bind]. rewrite Hrun. cbn [bind].
    eexists. split; [reflexivity|]. split.
    + cbn [map cv_index]. rewrite Hmap. reflexivity.
    + constructor; [|exact Hshow].
      exists c. cbn [cv_index cv_content cv_start_offset cv_end_offset].
      repeat split; assumption.
Qed.

(** With the program's own pattern the by-regex strategy returns. *)
Lemma decompose_returns_default_pattern (E : Engine) (source : text)
  (strategy : DecompositionStrategy) (options : Options) :
  (strategy = BY_REGEX -> knows_default_pattern E /\ pattern options = None) ->
  exists chunks, decompose E source strategy options = Returned chunks.
Proof.
  intros Hknows.
  destruct strategy;
    try (apply decompose_returns; discriminate).
  destruct (Hknows eq_refl) as [(regex & Hnew & Hsplit) Hpat].
  cbn [decompose]. rewrite Hpat. cbn [str_or]. unfold decomposeByRegex.
  rewrite Hnew, Hsplit, decomposeByRegex_forEach_defined. eauto.
Qed.

(** C8. For every [get_chunks] request on a context that exists, the
    response holds one view per requested index that falls in
    [0, number of chunks of the re-derived decomposition), in the order of
    the request, each showing the chunk at that index; the other indices
    are left out without an error, and when at least one requested index
    is out of range [returned] is strictly less than [requested]. *)
Theorem get_chunks_keeps_valid_indices (E : Engine) (ctx : Context)
  (params : GetChunksInput) :
  (gc_strategy params = BY_REGEX -> knows_default_pattern E) ->
  exists allChunks views,
    decompose E (context_content ctx) (gc_strategy params)
              (mkOptions (Some (gc_chunk_size params)) (Some (gc_overlap params))
                         None None None)
    = Returned allChunks /\
    rlm_get_chunks E (Some ctx) params
    = Returned (GetChunksOk
                  (mkGetChunksOutput (len (gc_chunk_indices params))
                                     (len views) views)) /\
    map cv_index views = filter (in_range allChunks) (gc_chunk_indices params) /\
    (forall i, In i (map cv_index views) <->
               In i (gc_chunk_indices params) /\ 0 <= i < len allChunks) /\
    Forall (shows allChunks) views /\
    ((exists i, In i (gc_chunk_indices params) /\ ~ 0 <= i < len allChunks) ->
     len views < len (gc_chunk_indices params)).
Proof.
  intros Hknows.
  destruct (decompose_returns_default_pattern E (context_content ctx)
              (gc_strategy params)
              (mkOptions (Some (gc_chunk_size params)) (Some (gc_overlap params))
                         None None None))
    as (allChunks & Hall).
  { intros Hs. split; [exact (Hknows Hs)|reflexivity]. }
  destruct (view_chunks_in_range allChunks
              (filter (in_range allChunks) (gc_chunk_indices params)))
    as (views & Hviews & Hmap & Hshow).
  { apply Forall_forall. intros i Hi. apply filter_In in Hi. apply Hi. }
  exists allChunks, views.
  split; [exact Hall|]. split; [|split; [exact Hmap|split; [|split]]].
  - unfold rlm_get_chunks. rewrite Hall. cbn [bind]. rewrite Hviews. reflexivity.
  - intros i. rewrite Hmap, filter_In, in_range_spec. reflexivity.
  - exact Hshow.
  - intros (i & Hin & Hout).
    assert (Hdrop : exists a, In a (gc_chunk_indices params) /\
                              in_range allChunks a = false).
    { exists i. split; [exact Hin|].
      destruct (in_range allChunks i) eqn:Hr; [|reflexivity].
      apply in_range_spec in Hr. contradiction. }
    apply filter_shorter in Hdrop.
    apply (f_equal (@length Z)) in Hmap. rewrite length_map in Hmap.
    unfold len. lia.
Qed.

Lemma get_chunks_keeps_valid_indices_witness :
  (gc_strategy three_indices_request = BY_REGEX ->
   knows_default_pattern Sample.blank_engine) /\
  exists allChunks views,
    decompose Sample.blank_engine (context_content letters_context)
              (gc_strategy three_indices_request)
              (mkOptions (Some (gc_chunk_size three_indices_request))
                         (Some (gc_overlap three_indices_request))
                         None None None)
    = Returned allChunks /\
    rlm_get_chunks Sample.blank_engine (Some letters_context) three_indices_request
    = Returned (GetChunksOk
                  (mkGetChunksOutput (len (gc_chunk_indices three_indices_request))
                                     (len views) views)) /\
    map cv_index views
    = filter (in_range allChunks) (gc_chunk_indices three_indices_request) /\
    (forall i, In i (map cv_index views) <->
               In i (gc_chunk_indices three_indices_request) /\
               0 <= i < len allChunks) /\
    Forall (shows allChunks) views /\
    ((exists i, In i (gc_chunk_indices three_indices_request) /\
                ~ 0 <= i < len allChunks) ->
     len views < len (gc_chunk_indices three_indices_request)).
Proof.
  split.
  - intros H. discriminate H.
  - apply (get_chunks_keeps_valid_indices Sample.blank_engine letters_context
             three_indices_request).
    intros H. discriminate H.
Defined.

(** The sample engine is one that knows the program's pattern. *)
Lemma blank_engine_knows_default_pattern :
  knows_default_pattern Sample.blank_engine.
Proof.
  exists true. split; reflexivity.
Qed.

(** The request of the example: of the indices 0, 7 and 1 the handler
    returns the chunks 0 and 1. *)
Lemma get_chunks_three_indices :
  exists v0 v1,
    rlm_get_chunks Sample.blank_engine (Some letters_context) three_indices_request
    = Returned (GetChunksOk (mkGetChunksOutput 3 2 [v0; v1])) /\
    cv_index v0 = 0 /\ cv_index v1 = 1.
Proof.
  eexists. eexists. split; [vm_compute; reflexivity|]. split; reflexivity.
Qed.

(** ** [findAll] *)

(** A successful [indexOf] of a non-empty string returns an occurrence at
    or after the start position. *)
Lemma indexOf_range (s t : text) (from : Z) :
  t <> [] -> 0 <= from ->
  indexOf s t from = -1 \/
  (from <= indexOf s t from /\ indexOf s t from + len t <= len s).
Proof.
  intros Ht Hfrom. unfold indexOf.
  set (k := Z.to_nat (Z.min (Z.max from 0) (len s))).
  destruct (index_in (skipn k s) t) as [i|] eqn:Hi; [right|left; reflexivity].
  apply index_in_occurs in Hi. destruct Hi as [_ Hlen].
  rewrite length_skipn in Hlen.
  assert (1 <= length t)%nat by (destruct t; [congruence|cbn [length]; lia]).
  unfold len in *. subst k. lia.
Qed.

Lemma spaced_weaken (gap gap' : Z) (offsets : list Z) :
  gap' <= gap -> spaced gap offsets -> spaced gap' offsets.
Proof.
  intros Hle. induction offsets as [|a [|b rest] IH]; intros H; try exact I.
  cbn [spaced] in *. destruct H as (H1 & H2 & H3).
  repeat split; try lia. apply IH. exact H3.
Qed.

(** The loop of [findAll], for a non-empty search term: it ends within
    [len searchContent - index + 1] rounds; the offsets it returns are at
    or after [index], increase, and leave room for the term between two
    of them. *)
Lemma findAll_loop_spec (searchContent searchTerm : text) (fuel : nat) :
  searchTerm <> [] ->
  forall index,
    0 <= index ->
    Z.max 0 (len searchContent - index) < Z.of_nat fuel ->
    exists offsets,
      findAll_loop fuel searchContent searchTerm index = Returned offsets /\
      Forall (fun o => index <= o) offsets /\
      spaced (len searchTerm) offsets.
Proof.
  intros Hterm.
  assert (Hlen : 1 <= len searchTerm).
  { destruct searchTerm; [congruence|]. rewrite len_cons.
    pose proof (len_nonneg searchTerm). lia. }
  induction fuel as [|fuel IH]; intros index Hindex Hfuel;
    [exfalso; simpl in Hfuel; lia|].
  cbn [findAll_loop].
  destruct (indexOf_range searchContent searchTerm index Hterm Hindex)
    as [Hnone|[Hfrom Hend]].
  - rewrite Hnone. cbn. exists []. repeat split; constructor.
  - destruct (Z.eqb_spec (indexOf searchContent searchTerm index) (-1)) as [Heq|_];
      [lia|].
    destruct (IH (indexOf searchContent searchTerm index + len searchTerm)
                 ltac:(lia) ltac:(lia)) as (rest & Hrest & Hafter & Hspaced).
    rewrite Hrest. cbn [bind]. eexists. split; [reflexivity|]. split.
    + constructor; [lia|].
      weaken_all Hafter.
    + destruct rest as [|b rest']; [exact I|].
      cbn [spaced]. inversion Hafter; subst.
      repeat split; try lia. exact Hspaced.
Qed.

(** C10. For every content string and every non-empty substring,
    [findAll] returns offsets that strictly increase, two consecutive
    ones at least the substring's length apart: an occurrence that
    overlaps one already reported is not reported.  ([toLowerCase], the
    engine's, never shortens a string; that is all the proof asks of
    it.) *)
Theorem findAll_offsets_spaced (toLowerCase : text -> text)
  (source substring : text) (caseSensitive : bool) :
  substring <> [] ->
  (caseSensitive = false -> len substring <= len (toLowerCase substring)) ->
  exists offsets,
    findAll toLowerCase source substring caseSensitive = Returned offsets /\
    spaced (len substring) offsets.
Proof.
  intros Hne Hlower. unfold findAll.
  set (searchContent := if caseSensitive then source else toLowerCase source).
  set (searchTerm := if caseSensitive then substring else toLowerCase substring).
  assert (Hgap : len substring <= len searchTerm).
  { subst searchTerm. destruct caseSensitive; [lia|]. apply Hlower. reflexivity. }
  assert (Hterm : searchTerm <> []).
  { intros Hnil. rewrite Hnil, (len_nil char) in Hgap.
    destruct substring; [congruence|]. rewrite len_cons in Hgap.
    pose proof (len_nonneg substring). lia. }
  destruct (findAll_loop_spec searchContent searchTerm
              (S (S (length searchContent))) Hterm 0 ltac:(lia))
    as (offsets & Hrun & _ & Hspaced).
  { unfold len. lia. }
  exists offsets. split; [exact Hrun|].
  eapply spaced_weaken; [exact Hgap|exact Hspaced].
Qed.

Lemma findAll_offsets_spaced_witness :
  str "aa" <> [] /\
  (false = false -> len (str "aa") <= len (Sample.ascii_lower (str "aa"))) /\
  exists offsets,
    findAll Sample.ascii_lower (str "aaa") (str "aa") false = Returned offsets /\
    spaced (len (str "aa")) offsets.
Proof.
  assert (H1 : str "aa" <> []) by (vm_compute; discriminate).
  assert (H2 : false = false ->
               len (str "aa") <= len (Sample.ascii_lower (str "aa")))
    by (intros _; vm_compute; discriminate).
  split; [exact H1|]. split; [exact H2|].
  exact (findAll_offsets_spaced Sample.ascii_lower (str "aaa") (str "aa") false H1 H2).
Defined.

(** Overlapping occurrences, and the example of the specification. *)
Lemma findAll_aa_in_aaa :
  findAll Sample.ascii_lower (str "aaa") (str "aa") false = Returned [0]
  /\ findAll Sample.ascii_lower (str "aaa") (str "aa") true = Returned [0].
Proof. split; vm_compute; reflexivity. Qed.

Lemma findAll_abc_three_times :
  findAll Sample.ascii_lower (str "AbcABCabc") (str "abc") false
  = Returned [0; 3; 6].
Proof. vm_compute. reflexivity. Qed.

(** ** The forward scan outside its assumptions *)

(** ["a".split(/((a))/)] is [["", "a", "a", ""]]: with capture groups the
    parts are no longer successive pieces of the text.  The scan for the
    second ["a"] starts after the first and fails, and the chunk gets the
    [-1] of [indexOf] as its start offset. *)
Lemma decomposeByRegex_forEach_repeated_capture :
  decomposeByRegex_forEach (str "a") [Some []; Some (str "a"); Some (str "a"); Some []]
                           0 0
  = Returned [mkChunk 1 (str "a") 0 1 None; mkChunk 2 (str "a") (-1) 0 None].
Proof. vm_compute. reflexivity. Qed.

(** The index a by-paragraphs chunk carries is not its position in the
    array [rlm_get_chunks] reads: asked for the index [decompose]
    reported, the handler returns nothing. *)
Lemma get_chunks_misses_reported_index :
  rlm_get_chunks Sample.blank_engine (Some blank_context) reported_index_request
  = Returned (GetChunksOk (mkGetChunksOutput 1 0 [])).
Proof. vm_compute. reflexivity. Qed.

(** ** Sample runs of the matchers and built-ins *)

Example section_at_plain_header :
  section_at None (str "# Title") = Some (mkFound 7 [str "#"; str "Title"]).
Proof. reflexivity. Qed.

(** Seven markers are no header; nor is a header inside a line. *)
Example section_at_seven_markers : section_at None (str "####### x") = None.
Proof. reflexivity. Qed.

Example section_at_inside_line : section_at (Some 97%N) (str "# Title") = None.
Proof. reflexivity. Qed.

(** White space that ends the input: [\s+] gives back one code unit to
    the title when it has two, and fails when it has one. *)
Example section_at_two_spaces :
  section_at None (str "#  ") = Some (mkFound 3 [str "#"; str " "]).
Proof. reflexivity. Qed.

Example section_at_one_space : section_at None (str "# ") = None.
Proof. reflexivity. Qed.

(** [\s+] also takes a tab, and a line feed. *)
Example section_at_tab :
  section_at (Some LF) (str "##" ++ 9%N :: str "T x" ++ LF :: str "rest")
  = Some (mkFound 6 [str "##"; str "T x"]).
Proof. reflexivity. Qed.

Example section_at_across_lines :
  section_at None (35%N :: LF :: str "foo") = Some (mkFound 5 [str "#"; str "foo"]).
Proof. reflexivity. Qed.

Example sentence_at_marks_and_spaces :
  sentence_at None (str "Hi there!?  Next") = Some (mkFound 12 []).
Proof. reflexivity. Qed.

Example sentence_at_no_terminator : sentence_at None (str "no end") = None.
Proof. reflexivity. Qed.

Example exec_all_skips_leading_marks :
  exec_all 7 sentence_at (str "..a. b") 0 = Returned [(2%nat, mkFound 3 [])].
Proof. reflexivity. Qed.

Example split_blank_lines_runs :
  split_blank_lines (str "a" ++ [LF; LF; LF] ++ str "b" ++ [LF] ++ str "c" ++ [LF; LF])
  = [str "a"; str "b" ++ [LF] ++ str "c"; []].
Proof. reflexivity. Qed.

Example split_lines_trailing_newline :
  split_lines (str "a" ++ [LF; LF] ++ str "b" ++ [LF]) = [str "a"; []; str "b"; []].
Proof. reflexivity. Qed.

Example indexOf_from_a_position :
  indexOf (str "abcabc") (str "bc") 2 = 4 /\
  indexOf (str "abcabc") (str "bc") 5 = -1 /\
  indexOf (str "abc") [] 7 = 3.
Proof. repeat split. Qed.

Example slice_negative_indices : slice (str "abcdef") (-3) (-1) = str "de".
Proof. reflexivity. Qed.

Example trim_both_ends :
  trim (32%N :: 9%N :: str "a b" ++ [LF; 160%N]) = str "a b".
Proof. reflexivity. Qed.

(** [search] on the sample engine, with the flags [g]: the two runs of
    blank lines, with their line numbers. *)
Example search_blank_runs :
  search Sample.blank_engine (str "a" ++ [LF; LF; LF] ++ str "b" ++ [LF; LF])
         default_pattern (mkSearchOptions (Some (str "g")) (Some 1) None None)
  = Returned
      [mkSearchMatch [LF; LF; LF] 1 1 (str "a" ++ [LF; LF; LF] ++ str "b") [];
       mkSearchMatch [LF; LF] 5 4 (str "b" ++ [LF; LF]) []].
Proof. vm_compute. reflexivity. Qed.

(** A missing context is answered with the not-found message. *)
Lemma rlm_get_chunks_not_found (E : Engine) (params : GetChunksInput) :
  rlm_get_chunks E None params = Returned (GetChunksNotFound (gc_context_id params)).
Proof. reflexivity. Qed.

Lemma rlm_search_context_not_found (E : Engine) (params : SearchContextInput) :
  rlm_search_context E None params = Returned (SearchNotFound (sc_context_id params)).
Proof. reflexivity. Qed.

(* ===================================================================== *)
(** * Part III: further properties of the processor and its handlers      *)
(* ===================================================================== *)

(** ** Fixed-size chunks, in closed form *)

Lemma below_ceil_div (len step k : Z) :
  0 < step -> 0 <= k -> (k * step < len <-> k < ceil_div len step).
Proof.
  intros Hstep Hk. unfold ceil_div.
  pose proof (Z.div_mod (len + step - 1) step ltac:(lia)) as Hdm.
  pose proof (Z.mod_pos_bound (len + step - 1) step Hstep) as Hmod.
  split; intros H; nia.
Qed.

Lemma decomposeBySize_loop_closed (source : text) (chunkSize overlap : Z)
  (fuel : nat) :
  0 < chunkSize - overlap ->
  forall k,
    Z.max 0 (len source - Z.of_nat k * (chunkSize - overlap)) < Z.of_nat fuel ->
    decomposeBySize_loop fuel source chunkSize overlap (Z.of_nat k)
                         (Z.of_nat k * (chunkSize - overlap))
    = Returned
        (map (fixed_chunk source chunkSize (chunkSize - overlap))
             (seq k (Z.to_nat (ceil_div (len source) (chunkSize - overlap)) - k))).
Proof.
  intros Hstep. set (step := chunkSize - overlap) in *.
  induction fuel as [|fuel IH]; intros k Hfuel; [exfalso; simpl in Hfuel; lia|].
  cbn [decomposeBySize_loop]. fold step.
  pose proof (below_ceil_div (len source) step (Z.of_nat k) Hstep ltac:(lia)) as Hceil.
  destruct (Z.ltb_spec (Z.of_nat k * step) (len source)) as [Hlt|Hge].
  - destruct (Z.leb_spec step 0) as [Hbad|_]; [lia|].
    replace (Z.of_nat k + 1) with (Z.of_nat (S k)) by lia.
    replace (Z.of_nat k * step + step) with (Z.of_nat (S k) * step) by lia.
    rewrite IH by lia. cbn [bind]. f_equal.
    apply Hceil in Hlt.
    replace (Z.to_nat (ceil_div (len source) step) - k)%nat
      with (S (Z.to_nat (ceil_div (len source) step) - S k)) by lia.
    reflexivity.
  - assert (Hk : ~ Z.of_nat k < ceil_div (len source) step) by (rewrite <- Hceil; lia).
    replace (Z.to_nat (ceil_div (len source) step) - k)%nat with O by lia.
    reflexivity.
Qed.

(** X1. With a positive step [chunkSize - overlap], [decomposeBySize]
    returns [ceil (length / step)] chunks; chunk [k] has index [k], starts
    at [k * step], ends at [min (k * step + chunkSize) length] and holds
    the slice of the text between the two. *)
Theorem decomposeBySize_closed_form (source : text) (chunkSize overlap : Z) :
  0 < chunkSize - overlap ->
  decomposeBySize source chunkSize overlap
  = Returned
      (map (fixed_chunk source chunkSize (chunkSize - overlap))
           (seq 0 (Z.to_nat (ceil_div (len source) (chunkSize - overlap))))).
Proof.
  intros Hstep. unfold decomposeBySize.
  pose proof (decomposeBySize_loop_closed source chunkSize overlap
                (S (length source)) Hstep O) as H.
  cbn [Z.of_nat Z.mul] in H. rewrite Nat.sub_0_r in H.
  apply H. unfold len. lia.
Qed.

Lemma decomposeBySize_closed_form_witness :
  0 < 100 - 20 /\
  decomposeBySize (letters 250) 100 20
  = Returned
      (map (fixed_chunk (letters 250) 100 (100 - 20))
           (seq 0 (Z.to_nat (ceil_div (len (letters 250)) (100 - 20))))).
Proof.
  split; [lia|].
  apply (decomposeBySize_closed_form (letters 250) 100 20). lia.
Defined.

(** X2. With an overlap that is not negative and smaller than the chunk
    size, the fixed-size chunks leave no gap: every position of the text
    lies between the start and the end of some returned chunk. *)
Theorem decomposeBySize_covers_text (source : text) (chunkSize overlap p : Z) :
  0 <= overlap < chunkSize ->
  0 <= p < len source ->
  exists chunks c,
    decomposeBySize source chunkSize overlap = Returned chunks /\
    In c chunks /\ startOffset c <= p < endOffset c.
Proof.
  intros Hov Hp.
  assert (Hstep : 0 < chunkSize - overlap) by lia.
  unfold decomposeBySize.
  pose proof (decomposeBySize_loop_closed source chunkSize overlap
                (S (length source)) Hstep O) as Hrun.
  cbn [Z.of_nat Z.mul] in Hrun. rewrite Nat.sub_0_r in Hrun.
  rewrite Hrun by (unfold len; lia). clear Hrun.
  set (step := chunkSize - overlap) in *.
  set (k := Z.to_nat (p / step)).
  pose proof (Z.div_mod p step ltac:(lia)) as Hdm.
  pose proof (Z.mod_pos_bound p step Hstep) as Hmod.
  assert (Hq : 0 <= p / step) by (apply Z.div_pos; lia).
  eexists. exists (fixed_chunk source chunkSize step k). split; [reflexivity|].
  split.
  - apply in_map. apply in_seq.
    pose proof (below_ceil_div (len source) step (Z.of_nat k) Hstep ltac:(lia))
      as Hceil.
    assert (Z.of_nat k < ceil_div (len source) step) by (apply Hceil; subst k; nia).
    lia.
  - cbn [fixed_chunk startOffset endOffset]. subst k. nia.
Qed.

Lemma decomposeBySize_covers_text_witness :
  0 <= 20 < 100 /\ 0 <= 249 < len (letters 250) /\
  exists chunks c,
    decomposeBySize (letters 250) 100 20 = Returned chunks /\
    In c chunks /\ startOffset c <= 249 < endOffset c.
Proof.
  assert (H1 : 0 <= 20 < 100) by lia.
  assert (H2 : 0 <= 249 < len (letters 250)) by (vm_compute; split; [discriminate|reflexivity]).
  split; [exact H1|]. split; [exact H2|].
  exact (decomposeBySize_covers_text (letters 250) 100 20 249 H1 H2).
Defined.

(** X3. When the overlap is not smaller than the chunk size the loop
    cannot advance and leaves after its first round: a non-empty text
    yields exactly one chunk, from 0 to [min chunkSize length], and the
    empty text none. *)
Theorem decomposeBySize_no_progress_one_chunk (source : text) (chunkSize overlap : Z) :
  chunkSize - overlap <= 0 ->
  decomposeBySize source chunkSize overlap
  = Returned
      match source with
      | [] => []
      | _ :: _ =>
          [mkChunk 0 (slice source 0 (Z.min chunkSize (len source)))
                   0 (Z.min chunkSize (len source)) None]
      end.
Proof.
  intros Hstep. unfold decomposeBySize. cbn [decomposeBySize_loop].
  destruct source as [|c source]; [reflexivity|].
  rewrite len_cons. pose proof (len_nonneg source).
  destruct (Z.ltb_spec 0 (len source + 1)) as [_|Hbad]; [|lia].
  destruct (Z.leb_spec (chunkSize - overlap) 0) as [_|Hbad]; [|lia].
  rewrite Z.add_0_l. reflexivity.
Qed.

Lemma decomposeBySize_no_progress_one_chunk_witness :
  100 - 200 <= 0 /\
  decomposeBySize (letters 150) 100 200
  = Returned
      match letters 150 with
      | [] => []
      | _ :: _ =>
          [mkChunk 0 (slice (letters 150) 0 (Z.min 100 (len (letters 150))))
                   0 (Z.min 100 (len (letters 150))) None]
      end.
Proof.
  split; [lia|].
  apply (decomposeBySize_no_progress_one_chunk (letters 150) 100 200). lia.
Defined.

(** X4. Called with an overlap of 0 and a chunk size of at least 1,
    [decomposeBySize] returns chunks whose contents, concatenated in
    order, are the text. *)
Theorem decomposeBySize_overlap_0_tiles (source : text) (chunkSize : Z) :
  1 <= chunkSize ->
  exists chunks,
    decomposeBySize source chunkSize 0 = Returned chunks /\
    concat (map content chunks) = source.
Proof.
  intros Hcs. apply decomposeBySize_no_overlap_concat. exact Hcs.
Qed.

Lemma decomposeBySize_overlap_0_tiles_witness :
  1 <= 1 /\
  exists chunks,
    decomposeBySize (str "abc") 1 0 = Returned chunks /\
    concat (map content chunks) = str "abc".
Proof.
  split; [lia|].
  apply (decomposeBySize_overlap_0_tiles (str "abc") 1). lia.
Defined.

(** ** By-lines chunks: line ranges, contents and offsets *)

Lemma join_lines_app (a b : list text) :
  a <> [] -> b <> [] ->
  join_lines (a ++ b) = join_lines a ++ LF :: join_lines b.
Proof.
  induction a as [|l a IH]; intros Ha Hb; [congruence|].
  destruct a as [|l' a].
  - destruct b as [|x b]; [congruence|]. reflexivity.
  - change (join_lines ((l :: l' :: a) ++ b))
      with (l ++ LF :: join_lines ((l' :: a) ++ b)).
    rewrite IH by (discriminate || assumption).
    change (join_lines (l :: l' :: a)) with (l ++ LF :: join_lines (l' :: a)).
    rewrite <- app_assoc. reflexivity.
Qed.

(** The text of the lines after a prefix starts where the prefix, with
    its newlines, ends. *)
Lemma skipn_join_prefix (pre rest : list text) :
  rest <> [] ->
  skipn (Z.to_nat (lines_span pre)) (join_lines (pre ++ rest)) = join_lines rest.
Proof.
  intros Hrest. destruct pre as [|l pre]; [reflexivity|].
  rewrite join_lines_app by (discriminate || assumption).
  pose proof (len_join_lines (l :: pre) ltac:(discriminate)) as Hlen.
  replace (Z.to_nat (lines_span (l :: pre)))
    with (length (join_lines (l :: pre) ++ [LF])).
  - replace (join_lines (l :: pre) ++ LF :: join_lines rest)
      with ((join_lines (l :: pre) ++ [LF]) ++ join_lines rest)
      by (rewrite <- app_assoc; reflexivity).
    apply skipn_app_exact.
  - rewrite length_app. cbn [length]. unfold len in Hlen. lia.
Qed.

Lemma firstn_join_window (win post : list text) :
  firstn (length (join_lines win)) (join_lines (win ++ post)) = join_lines win.
Proof.
  destruct win as [|l win]; [reflexivity|].
  destruct post as [|x post].
  - rewrite app_nil_r. apply firstn_all.
  - rewrite join_lines_app by discriminate.
    rewrite firstn_app, firstn_all, Nat.sub_diag. cbn [firstn]. apply app_nil_r.
Qed.

(** A window of lines, joined, is the slice of the text from the offset
    of its first line. *)
Lemma window_is_slice (ls : list text) (k m : nat) :
  (k < length ls)%nat ->
  slice (join_lines ls) (lines_span (firstn k ls))
        (lines_span (firstn k ls) + len (join_lines (firstn m (skipn k ls))))
  = join_lines (firstn m (skipn k ls)).
Proof.
  intros Hk.
  set (pre := firstn k ls). set (rest := skipn k ls).
  set (win := firstn m rest).
  assert (Hrest : rest <> []).
  { intros Hnil. apply (f_equal (@length text)) in Hnil.
    subst rest. rewrite length_skipn in Hnil. cbn [length] in Hnil. lia. }
  assert (Hsplit : ls = pre ++ rest) by (symmetry; apply firstn_skipn).
  assert (Hskip : skipn (Z.to_nat (lines_span pre)) (join_lines ls) = join_lines rest).
  { rewrite Hsplit at 1. apply skipn_join_prefix. exact Hrest. }
  assert (Hfirst : firstn (length (join_lines win)) (join_lines rest) = join_lines win).
  { rewrite <- (firstn_skipn m rest) at 1. apply firstn_join_window. }
  pose proof (lines_span_nonneg pre) as Hpre.
  assert (Hroom : lines_span pre + len (join_lines win) <= len (join_lines ls)).
  { apply (f_equal (@length char)) in Hskip, Hfirst.
    rewrite length_skipn in Hskip. rewrite length_firstn in Hfirst.
    assert (Hle : lines_span pre <= len (join_lines ls)).
    { rewrite (len_join_lines ls) by (intros ->; cbn [length] in Hk; lia).
      subst pre. pose proof (lines_span_firstn_lt ls k Hk). lia. }
    unfold len in *. lia. }
  rewrite slice_inside by (pose proof (len_nonneg (join_lines win)); lia).
  replace (Z.to_nat (lines_span pre + len (join_lines win) - lines_span pre))
    with (length (join_lines win)) by (unfold len; lia).
  rewrite Hskip. exact Hfirst.
Qed.

Lemma slice_clamps_end {A : Type} (l : list A) (a b : Z) :
  0 <= b -> slice l a (Z.min b (len l)) = slice l a b.
Proof.
  intros Hb. unfold slice. f_equal. f_equal. f_equal.
  pose proof (len_nonneg l). unfold rel_index.
  destruct (Z.ltb_spec (Z.min b (len l)) 0); destruct (Z.ltb_spec b 0); lia.
Qed.

Section ByLinesShape.

Variable lines_ : list text.
Variables linesPerChunk overlapLines : Z.

Let advance := Z.max 1 (linesPerChunk - overlapLines).
Let rounds := Z.to_nat (ceil_div (len lines_) advance).

(** Round [k] of the loop starts at line [k * advance]; the loop makes
    [ceil (lines / advance)] rounds. *)
Lemma decomposeByLines_loop_shape (fuel : nat) :
  forall k charOffset,
    charOffset = lines_span (firstn (Z.to_nat (Z.of_nat k * advance)) lines_) ->
    Z.max 0 (len lines_ - Z.of_nat k * advance) < Z.of_nat fuel ->
    exists chunks,
      decomposeByLines_loop fuel lines_ linesPerChunk overlapLines
                            (Z.of_nat k) (Z.of_nat k * advance) charOffset
      = Returned chunks /\
      map (fun c => (index c, metadata c)) chunks
      = map (line_chunk_tag (len lines_) linesPerChunk advance)
            (seq k (rounds - k)) /\
      Forall (fun c => content c
                       = slice (join_lines lines_) (startOffset c) (endOffset c))
             chunks /\
      (1 <= linesPerChunk ->
       Forall (fun c => exists a b,
                          metadata c = Some (LineRange a b) /\
                          content c = join_lines (slice lines_ a (b + 1)))
              chunks).
Proof.
  assert (Hadv : 0 < advance) by (subst advance; lia).
  induction fuel as [|fuel IH]; intros k charOffset Hoff Hfuel;
    [exfalso; simpl in Hfuel; lia|].
  cbn [decomposeByLines_loop]. fold advance.
  pose proof (below_ceil_div (len lines_) advance (Z.of_nat k) Hadv ltac:(lia))
    as Hceil.
  destruct (Z.ltb_spec (Z.of_nat k * advance) (len lines_)) as [Hlt|Hge].
  2:{ assert (Hk : ~ Z.of_nat k < ceil_div (len lines_) advance)
        by (rewrite <- Hceil; lia).
      replace (rounds - k)%nat with O by (subst rounds; lia).
      exists []. repeat split; constructor. }
  set (lineIndex := Z.of_nat k * advance) in *.
  assert (Hnext : advance_offset lines_ lineIndex advance charOffset
                  = lines_span (firstn (Z.to_nat (Z.of_nat (S k) * advance)) lines_)).
  { unfold advance_offset. rewrite fold_span, Hoff, lines_span_window.
    f_equal. f_equal. subst lineIndex. lia. }
  replace (Z.of_nat k + 1) with (Z.of_nat (S k)) by lia.
  replace (lineIndex + advance) with (Z.of_nat (S k) * advance)
    by (subst lineIndex; lia).
  destruct (IH (S k) _ Hnext ltac:(subst lineIndex; lia))
    as (rest & Hrest & Htags & Hslices & Hlines).
  rewrite Hrest. cbn [bind]. eexists. split; [reflexivity|].
  assert (Hwin : slice lines_ lineIndex (lineIndex + linesPerChunk)
                 = firstn (Z.to_nat (rel_index (len lines_) (lineIndex + linesPerChunk)
                                     - lineIndex))
                          (skipn (Z.to_nat lineIndex) lines_)).
  { unfold slice. rewrite (rel_index_inside (len lines_) lineIndex) by lia.
    reflexivity. }
  split; [|split].
  - apply Hceil in Hlt.
    replace (rounds - k)%nat with (S (rounds - S k)) by (subst rounds; lia).
    cbn [seq map index metadata]. rewrite Htags. reflexivity.
  - constructor; [|exact Hslices].
    cbn [content startOffset endOffset]. rewrite Hwin, Hoff.
    symmetry. apply window_is_slice. unfold len in Hlt. lia.
  - intros Hlpc. constructor; [|exact (Hlines Hlpc)].
    cbn [metadata content]. eexists. eexists. split; [reflexivity|].
    f_equal. rewrite Z.sub_add. symmetry. apply slice_clamps_end. lia.
Qed.

End ByLinesShape.

(** X5. [decomposeByLines] makes [ceil (lines / advance)] chunks, where
    [advance = max 1 (linesPerChunk - overlap)]; chunk [k] has index [k]
    and the line range from [k * advance] to
    [min (k * advance + linesPerChunk) lines - 1]. *)
Theorem decomposeByLines_line_ranges (source : text) (linesPerChunk overlapLines : Z) :
  exists chunks,
    decomposeByLines source linesPerChunk overlapLines = Returned chunks /\
    map (fun c => (index c, metadata c)) chunks
    = map (line_chunk_tag (len (split_lines source)) linesPerChunk
                          (Z.max 1 (linesPerChunk - overlapLines)))
          (seq 0 (Z.to_nat (ceil_div (len (split_lines source))
                                     (Z.max 1 (linesPerChunk - overlapLines))))).
Proof.
  unfold decomposeByLines.
  destruct (decomposeByLines_loop_shape (split_lines source) linesPerChunk
              overlapLines (S (length (split_lines source))) O 0)
    as (chunks & Hrun & Htags & _).
  - reflexivity.
  - unfold len. lia.
  - exists chunks. split; [exact Hrun|]. rewrite Nat.sub_0_r in Htags. exact Htags.
Qed.

(** X6. The content of every by-lines chunk is the slice of the text
    between its start and end offsets: what [extractRange] returns for
    them. *)
Theorem decomposeByLines_content_is_its_range (source : text)
  (linesPerChunk overlapLines : Z) :
  exists chunks,
    decomposeByLines source linesPerChunk overlapLines = Returned chunks /\
    Forall (fun c => content c = extractRange source (startOffset c) (endOffset c))
           chunks.
Proof.
  unfold decomposeByLines.
  destruct (decomposeByLines_loop_shape (split_lines source) linesPerChunk
              overlapLines (S (length (split_lines source))) O 0)
    as (chunks & Hrun & _ & Hslices & _).
  - reflexivity.
  - unfold len. lia.
  - exists chunks. split; [exact Hrun|].
    rewrite join_split_lines in Hslices. exact Hslices.
Qed.

(** X7. With at least one line per chunk, the content of every by-lines
    chunk is what [extractLines] returns for the start and end lines in
    the chunk's metadata. *)
Theorem decomposeByLines_content_is_its_lines (source : text)
  (linesPerChunk overlapLines : Z) :
  1 <= linesPerChunk ->
  exists chunks,
    decomposeByLines source linesPerChunk overlapLines = Returned chunks /\
    Forall (content_is_its_lines source) chunks.
Proof.
  intros Hlpc. unfold decomposeByLines.
  destruct (decomposeByLines_loop_shape (split_lines source) linesPerChunk
              overlapLines (S (length (split_lines source))) O 0)
    as (chunks & Hrun & _ & _ & Hlines).
  - reflexivity.
  - unfold len. lia.
  - exists chunks. split; [exact Hrun|]. exact (Hlines Hlpc).
Qed.

Lemma decomposeByLines_content_is_its_lines_witness :
  1 <= 2 /\
  exists chunks,
    decomposeByLines four_lines 2 1 = Returned chunks /\
    Forall (content_is_its_lines four_lines) chunks.
Proof.
  split; [lia|].
  apply (decomposeByLines_content_is_its_lines four_lines 2 1). lia.
Defined.

(** ** [extractRange], [extractLines] and the [rlm_read_context] handler *)

(** X8. For offsets [0 <= a <= b <= c <= length], [extractRange] returns
    [b - a] code units for [a, b), and the ranges [a, b) and [b, c) put
    end to end are the range [a, c). *)
Theorem extractRange_adjacent (source : text) (a b c : Z) :
  0 <= a <= b -> b <= c <= len source ->
  len (extractRange source a b) = b - a /\
  extractRange source a b ++ extractRange source b c = extractRange source a c.
Proof.
  intros Hab Hbc. unfold extractRange.
  rewrite !slice_inside by lia. split.
  - unfold len in *. rewrite length_firstn, length_skipn. lia.
  - replace (Z.to_nat (c - a)) with (Z.to_nat (b - a) + Z.to_nat (c - b))%nat by lia.
    rewrite firstn_add_skipn, skipn_skipn.
    replace (Z.to_nat (b - a) + Z.to_nat a)%nat with (Z.to_nat b) by lia.
    reflexivity.
Qed.

Lemma extractRange_adjacent_witness :
  0 <= 1 <= 3 /\ 3 <= 5 <= len (str "abcdef") /\
  len (extractRange (str "abcdef") 1 3) = 3 - 1 /\
  extractRange (str "abcdef") 1 3 ++ extractRange (str "abcdef") 3 5
  = extractRange (str "abcdef") 1 5.
Proof.
  assert (H1 : 0 <= 1 <= 3) by lia.
  assert (H2 : 3 <= 5 <= len (str "abcdef"))
    by (vm_compute; split; discriminate).
  split; [exact H1|]. split; [exact H2|].
  exact (extractRange_adjacent (str "abcdef") 1 3 5 H1 H2).
Defined.

Lemma slice_window {A : Type} (l : list A) (a b : Z) :
  0 <= a <= len l ->
  slice l a b
  = firstn (Z.to_nat (rel_index (len l) b - a)) (skipn (Z.to_nat a) l).
Proof.
  intros Ha. unfold slice. rewrite (rel_index_inside (len l) a) by lia.
  reflexivity.
Qed.

(** X9. For lines [0 <= a <= b], with line [b + 1] in the text and
    [b < c], the lines [a..b] and the lines [b+1..c] that [extractLines]
    returns, joined by a newline, are the lines [a..c]: the end line is
    part of what is read. *)
Theorem extractLines_adjacent (source : text) (a b c : Z) :
  0 <= a <= b -> b < c -> b + 1 < len (split_lines source) ->
  extractLines source a (Some b) ++ LF :: extractLines source (b + 1) (Some c)
  = extractLines source a (Some c).
Proof.
  intros Hab Hbc Hb. unfold extractLines.
  set (ls := split_lines source) in *.
  rewrite !slice_window by lia.
  rewrite !(rel_index_inside (len ls) (b + 1)) by lia.
  set (e := rel_index (len ls) (c + 1)).
  assert (He : b + 1 < e <= len ls).
  { subst e. unfold rel_index. destruct (Z.ltb_spec (c + 1) 0); lia. }
  replace (Z.to_nat (e - a))
    with (Z.to_nat (b + 1 - a) + Z.to_nat (e - (b + 1)))%nat by lia.
  rewrite firstn_add_skipn, skipn_skipn.
  replace (Z.to_nat (b + 1 - a) + Z.to_nat a)%nat with (Z.to_nat (b + 1)) by lia.
  apply eq_sym, join_lines_app.
  - intros Hnil. apply (f_equal (@length text)) in Hnil.
    rewrite length_firstn, length_skipn in Hnil. cbn [length] in Hnil.
    unfold len in *. lia.
  - intros Hnil. apply (f_equal (@length text)) in Hnil.
    rewrite length_firstn, length_skipn in Hnil. cbn [length] in Hnil.
    unfold len in *. lia.
Qed.

Lemma extractLines_adjacent_witness :
  0 <= 0 <= 1 /\ 1 < 3 /\ 1 + 1 < len (split_lines four_lines) /\
  extractLines four_lines 0 (Some 1) ++ LF :: extractLines four_lines (1 + 1) (Some 3)
  = extractLines four_lines 0 (Some 3).
Proof.
  assert (H1 : 0 <= 0 <= 1) by lia.
  assert (H2 : 1 < 3) by lia.
  assert (H3 : 1 + 1 < len (split_lines four_lines)) by (vm_compute; reflexivity).
  split; [exact H1|]. split; [exact H2|]. split; [exact H3|].
  exact (extractLines_adjacent four_lines 0 1 3 H1 H2 H3).
Defined.

(** X10. [extractLines] from line 0 to the last line, or to any line
    after it, returns the whole text. *)
Theorem extractLines_all (source : text) (endLine : Z) :
  len (split_lines source) - 1 <= endLine ->
  extractLines source 0 (Some endLine) = source.
Proof.
  intros He. unfold extractLines.
  pose proof (len_nonneg (split_lines source)) as Hn.
  rewrite slice_window by lia.
  replace (rel_index (len (split_lines source)) (endLine + 1))
    with (len (split_lines source))
    by (unfold rel_index; destruct (Z.ltb_spec (endLine + 1) 0); lia).
  cbn [Z.to_nat skipn]. rewrite firstn_all2 by (unfold len; lia).
  apply join_split_lines.
Qed.

Lemma extractLines_all_witness :
  len (split_lines four_lines) - 1 <= 3 /\
  extractLines four_lines 0 (Some 3) = four_lines.
Proof.
  assert (H : len (split_lines four_lines) - 1 <= 3) by (vm_compute; discriminate).
  split; [exact H|].
  exact (extractLines_all four_lines 3 H).
Defined.

Lemma split_lines_cons_line (l : text) (ls : list text) :
  ~ In LF l -> ls <> [] ->
  split_lines (l ++ LF :: join_lines ls) = l :: split_lines (join_lines ls).
Proof.
  intros Hl Hls. induction l as [|c l IH].
  - cbn [app split_lines]. rewrite N.eqb_refl. reflexivity.
  - cbn [app split_lines].
    destruct (N.eqb_spec c LF) as [->|_]; [exfalso; apply Hl; left; reflexivity|].
    rewrite IH by (intros H; apply Hl; right; exact H). reflexivity.
Qed.

(** Splitting what [join] made of lines without a newline gives the
    lines back. *)
Lemma split_join_lines (ls : list text) :
  ls <> [] -> Forall (fun l => ~ In LF l) ls ->
  split_lines (join_lines ls) = ls.
Proof.
  induction ls as [|l ls IH]; intros Hne Hall; [congruence|].
  inversion Hall as [|? ? Hl Hrest]; subst.
  destruct ls as [|l' ls].
  - cbn [join_lines]. apply split_lines_single. exact Hl.
  - change (join_lines (l :: l' :: ls)) with (l ++ LF :: join_lines (l' :: ls)).
    rewrite split_lines_cons_line by (assumption || discriminate).
    rewrite IH by (assumption || discriminate). reflexivity.
Qed.

Lemma split_lines_no_newline (s : text) :
  Forall (fun l => ~ In LF l) (split_lines s).
Proof.
  induction s as [|c s IH]; [constructor; [intros []|constructor]|].
  cbn [split_lines]. destruct (N.eqb_spec c LF) as [->|Hc].
  - constructor; [intros []|exact IH].
  - pose proof (split_lines_not_nil s) as Hne.
    destruct (split_lines s) as [|l ls]; [congruence|].
    inversion IH as [|? ? Hl Hrest]; subst.
    constructor; [|exact Hrest].
    intros [Heq|Hin]; [congruence|exact (Hl Hin)].
Qed.

Lemma in_window {A : Type} (l : list A) (k m : nat) (x : A) :
  In x (firstn m (skipn k l)) -> In x l.
Proof.
  intros H. rewrite <- (firstn_skipn k l). apply in_or_app. right.
  rewrite <- (firstn_skipn m (skipn k l)). apply in_or_app. left. exact H.
Qed.

(** X11. In [lines] mode, for [0 <= start <= end] and line [end] in the
    text, [rlm_read_context] returns the lines [start] to [end], the end
    line included: [end - start + 1] lines.  With no [end] it returns
    the one line [start]. *)
Theorem rlm_read_context_lines_inclusive (ctx : Context) (id : text)
  (start_ end_ : Z) :
  0 <= start_ <= end_ -> end_ < len (split_lines (context_content ctx)) ->
  exists out one,
    rlm_read_context (Some ctx) (mkReadContextInput id start_ (Some end_) lines)
    = ReadOk out /\
    len (split_lines (ro_content out)) = end_ - start_ + 1 /\
    rlm_read_context (Some ctx) (mkReadContextInput id start_ None lines)
    = ReadOk one /\
    len (split_lines (ro_content one)) = 1 /\
    ro_content one = extractLines (context_content ctx) start_ (Some start_).
Proof.
  intros Hse He. cbn [rlm_read_context rc_mode rc_start rc_end].
  eexists. eexists. split; [reflexivity|]. cbn [ro_content].
  assert (Hcount : forall e, start_ <= e < len (split_lines (context_content ctx)) ->
            len (split_lines (extractLines (context_content ctx) start_ (Some e)))
            = e - start_ + 1).
  { intros e Hrange. unfold extractLines.
    set (ls := split_lines (context_content ctx)) in *.
    rewrite slice_window by lia.
    rewrite (rel_index_inside (len ls) (e + 1)) by lia.
    rewrite split_join_lines.
    - unfold len in *. rewrite length_firstn, length_skipn. lia.
    - intros Hnil. apply (f_equal (@length text)) in Hnil.
      rewrite length_firstn, length_skipn in Hnil. cbn [length] in Hnil.
      unfold len in *. lia.
    - apply Forall_forall. intros l Hin.
      apply in_window in Hin. revert l Hin. apply Forall_forall.
      apply split_lines_no_newline. }
  split; [apply Hcount; lia|]. split; [reflexivity|].
  cbn [ro_content]. split; [|reflexivity].
  change (extractLines (context_content ctx) start_ None)
    with (extractLines (context_content ctx) start_ (Some start_)).
  rewrite Hcount by lia. lia.
Qed.

Lemma rlm_read_context_lines_inclusive_witness :
  0 <= 1 <= 2 /\
  2 < len (split_lines (context_content (mkContext (str "main") four_lines))) /\
  exists out one,
    rlm_read_context (Some (mkContext (str "main") four_lines))
                     (mkReadContextInput (str "main") 1 (Some 2) lines)
    = ReadOk out /\
    len (split_lines (ro_content out)) = 2 - 1 + 1 /\
    rlm_read_context (Some (mkContext (str "main") four_lines))
                     (mkReadContextInput (str "main") 1 None lines)
    = ReadOk one /\
    len (split_lines (ro_content one)) = 1 /\
    ro_content one
    = extractLines (context_content (mkContext (str "main") four_lines)) 1 (Some 1).
Proof.
  assert (H1 : 0 <= 1 <= 2) by lia.
  assert (H2 : 2 < len (split_lines
                          (context_content (mkContext (str "main") four_lines))))
    by (vm_compute; reflexivity).
  split; [exact H1|]. split; [exact H2|].
  exact (rlm_read_context_lines_inclusive (mkContext (str "main") four_lines)
           (str "main") 1 2 H1 H2).
Defined.

(** X12. In [chars] mode, for [0 <= start <= length], a request with
    [end = 0] is answered like one without [end]: with the text from
    [start] to its end, [length - start] code units, not with the empty
    range. *)
Theorem rlm_read_context_chars_end_0 (ctx : Context) (id : text) (start_ : Z) :
  0 <= start_ <= len (context_content ctx) ->
  exists out,
    rlm_read_context (Some ctx) (mkReadContextInput id start_ (Some 0) chars)
    = ReadOk out /\
    ro_content out = skipn (Z.to_nat start_) (context_content ctx) /\
    ro_length out = len (context_content ctx) - start_ /\
    ro_content out
    = extractRange (context_content ctx) start_ (len (context_content ctx)).
Proof.
  intros Hs. cbn [rlm_read_context rc_mode rc_start rc_end num_or].
  change (0 =? 0) with true. cbv iota.
  eexists. split; [reflexivity|]. cbn [ro_content ro_length].
  assert (Hall : extractRange (context_content ctx) start_ (len (context_content ctx))
                 = skipn (Z.to_nat start_) (context_content ctx)).
  { unfold extractRange. rewrite slice_inside by lia.
    apply firstn_all2. rewrite length_skipn. unfold len. lia. }
  rewrite Hall. repeat split.
  unfold len. rewrite length_skipn. unfold len in Hs. lia.
Qed.

Lemma rlm_read_context_chars_end_0_witness :
  0 <= 1 <= len (context_content abc_context) /\
  exists out,
    rlm_read_context (Some abc_context)
                     (mkReadContextInput (str "main") 1 (Some 0) chars)
    = ReadOk out /\
    ro_content out = skipn (Z.to_nat 1) (context_content abc_context) /\
    ro_length out = len (context_content abc_context) - 1 /\
    ro_content out
    = extractRange (context_content abc_context) 1 (len (context_content abc_context)).
Proof.
  assert (H : 0 <= 1 <= len (context_content abc_context))
    by (vm_compute; split; discriminate).
  split; [exact H|].
  exact (rlm_read_context_chars_end_0 abc_context (str "main") 1 H).
Defined.

(** ** [getStatistics] *)

Lemma length_split_lines (s : text) :
  length (split_lines s) = S (count_occ N.eq_dec s LF).
Proof.
  induction s as [|c s IH]; [reflexivity|].
  cbn [split_lines count_occ].
  destruct (N.eqb_spec c LF) as [->|Hc].
  - destruct (N.eq_dec LF LF) as [_|Hbad]; [|congruence].
    cbn [length]. rewrite IH. reflexivity.
  - destruct (N.eq_dec c LF) as [Hbad|_]; [congruence|].
    pose proof (split_lines_not_nil s) as Hne.
    destruct (split_lines s) as [|l ls]; [congruence|]. exact IH.
Qed.

(** X13. For every content, the empty one included, [getStatistics]
    reports a line count that is one more than the number of newlines,
    so at least 1, and an average line length that is a number: the
    length divided by the line count, rounded. *)
Theorem getStatistics_lineCount (source : text) :
  st_lineCount (getStatistics source)
  = 1 + Z.of_nat (count_occ N.eq_dec source LF) /\
  1 <= st_lineCount (getStatistics source) /\
  st_avgLineLength (getStatistics source)
  = Finite ((2 * len source + st_lineCount (getStatistics source))
            / (2 * st_lineCount (getStatistics source))).
Proof.
  cbn [getStatistics st_lineCount st_avgLineLength].
  assert (Hn : len (split_lines source)
               = 1 + Z.of_nat (count_occ N.eq_dec source LF)).
  { unfold len. rewrite length_split_lines. lia. }
  split; [exact Hn|]. split; [lia|].
  unfold round_div. destruct (Z.eqb_spec (len (split_lines source)) 0); [lia|].
  reflexivity.
Qed.

Lemma concat_split_class (p : char -> bool) (s : text) :
  forall in_sep,
    concat (split_class p s in_sep) = filter (fun c => negb (p c)) s.
Proof.
  induction s as [|c s IH]; intros in_sep; [reflexivity|].
  cbn [split_class filter]. destruct (p c); cbn [negb].
  - destruct in_sep; [apply IH|]. cbn [concat app]. apply IH.
  - specialize (IH false).
    destruct (split_class p s false) as [|q qs].
    + cbn [concat] in IH. rewrite <- IH. reflexivity.
    + cbn [concat app] in *. rewrite <- IH. reflexivity.
Qed.

Lemma concat_filter_nonempty (l : list text) :
  concat (filter (fun w => 0 <? len w) l) = concat l.
Proof.
  induction l as [|w l IH]; [reflexivity|].
  cbn [filter concat]. destruct w as [|c w].
  - change (0 <? len (@nil char)) with false. cbv iota. exact IH.
  - rewrite len_cons. pose proof (len_nonneg w).
    destruct (Z.ltb_spec 0 (len w + 1)); [|lia].
    cbn [concat]. rewrite IH. reflexivity.
Qed.

Lemma nonempty_pieces_nil (p : char -> bool) (s : text) :
  forall in_sep,
    filter (fun w => 0 <? len w) (split_class p s in_sep) = [] <->
    Forall (fun c => p c = true) s.
Proof.
  induction s as [|c s IH]; intros in_sep.
  - split; [constructor|reflexivity].
  - cbn [split_class]. destruct (p c) eqn:Hc.
    + assert (Hstep : Forall (fun x => p x = true) (c :: s)
                      <-> Forall (fun x => p x = true) s).
      { split; intros H; [inversion H; assumption|constructor; assumption]. }
      rewrite Hstep, <- (IH true).
      destruct in_sep; [reflexivity|].
      cbn [filter]. change (0 <? len (@nil char)) with false. reflexivity.
    + split.
      * intros H. exfalso.
        destruct (split_class p s false) as [|q qs];
          cbn [filter] in H; rewrite len_cons in H;
          match type of H with
          | context [0 <? len ?w + 1] =>
              pose proof (len_nonneg w);
              destruct (Z.ltb_spec 0 (len w + 1)); [discriminate|lia]
          end.
      * intros H. inversion H; congruence.
Qed.

(** X14. The words [getStatistics] counts, put end to end, are the code
    units of the content that are not white space; the word count is 0
    exactly when the content is empty or all white space, and the average
    word length is then [NaN], and a number otherwise. *)
Theorem getStatistics_words (source : text) :
  (st_wordCount (getStatistics source) = 0 <->
   Forall (fun c => is_space c = true) source) /\
  (st_wordCount (getStatistics source) = 0 ->
   st_avgWordLength (getStatistics source) = NaN) /\
  (st_wordCount (getStatistics source) <> 0 ->
   st_avgWordLength (getStatistics source)
   = Finite ((2 * len (filter (fun c => negb (is_space c)) source)
              + st_wordCount (getStatistics source))
             / (2 * st_wordCount (getStatistics source)))).
Proof.
  cbn [getStatistics st_wordCount st_avgWordLength].
  set (words := filter (fun w => 0 <? len w) (split_class is_space source false)).
  assert (Hjoined : concat words = filter (fun c => negb (is_space c)) source).
  { subst words. rewrite concat_filter_nonempty. apply concat_split_class. }
  assert (Hzero : len words = 0 <-> words = []).
  { destruct words; [split; reflexivity|]. rewrite len_cons.
    pose proof (len_nonneg words). split; [lia|discriminate]. }
  split; [|split].
  - rewrite Hzero. apply nonempty_pieces_nil.
  - intros H. rewrite H. apply Hzero in H. rewrite H. reflexivity.
  - intros H. unfold round_div.
    destruct (Z.eqb_spec (len words) 0); [contradiction|].
    rewrite Hjoined. reflexivity.
Qed.

Lemma truthy_len (s : text) : truthy s = (0 <? len s).
Proof.
  destruct s as [|c s]; [reflexivity|].
  rewrite len_cons. pose proof (len_nonneg s).
  destruct (Z.ltb_spec 0 (len s + 1)); [reflexivity|lia].
Qed.

Lemma decomposeByParagraphs_forEach_length (source : text) (parts : list text) :
  forall index offset,
    length (decomposeByParagraphs_forEach source parts index offset)
    = length (filter (fun p => 0 <? len (trim p)) parts).
Proof.
  induction parts as [|p ps IH]; intros index offset; [reflexivity|].
  cbn [decomposeByParagraphs_forEach filter]. rewrite <- truthy_len.
  destruct (truthy (trim p)); cbn [length]; rewrite IH; reflexivity.
Qed.

(** X15. The paragraph count of [getStatistics] is the number of chunks
    that by-paragraphs decomposition of the same content returns. *)
Theorem paragraphCount_is_chunk_count (E : Engine) (source : text) (options : Options) :
  exists chunks,
    decompose E source BY_PARAGRAPHS options = Returned chunks /\
    len chunks = st_paragraphCount (getStatistics source).
Proof.
  eexists. split; [reflexivity|].
  cbn [getStatistics st_paragraphCount]. unfold len, decomposeByParagraphs.
  rewrite decomposeByParagraphs_forEach_length. reflexivity.
Qed.

(** ** [suggestStrategy] *)

(** Every strategy but by-regex, run with a chunk size that is not
    negative, returns chunks that lie in the text, in the order of their
    start offsets. *)
Lemma decompose_safe (E : Engine) (source : text)
  (strategy : DecompositionStrategy) (options : Options) :
  strategy <> BY_REGEX ->
  (forall n, chunkSize options = Some n -> 0 <= n) ->
  exists chunks,
    decompose E source strategy options = Returned chunks /\
    Forall (in_bounds source) chunks /\
    starts_sorted chunks.
Proof.
  intros Hs Hcs. destruct strategy; cbn [decompose]; try congruence.
  - destruct (decomposeBySize_spec source
                (num_or (chunkSize options) DEFAULT_CHUNK_SIZE)
                (num_or (overlap options) DEFAULT_OVERLAP))
      as (chunks & Hrun & Hbounds & _ & Hsorted).
    exists chunks. split; [exact Hrun|]. split; [|exact Hsorted].
    apply Hbounds. apply num_or_nonneg; [unfold DEFAULT_CHUNK_SIZE; lia|exact Hcs].
  - destruct (decomposeByLines_spec source
                (num_or (linesPerChunk options) DEFAULT_LINES_PER_CHUNK)
                (num_or (overlap options) 10))
      as (chunks & Hrun & Hbounds & _ & Hsorted). eauto.
  - eexists. split; [reflexivity|]. apply decomposeByParagraphs_spec.
  - destruct (decomposeBySections_spec source)
      as (chunks & Hrun & Hbounds & _ & Hsorted). eauto.
  - destruct (decomposeBySentences_spec source)
      as (chunks & Hrun & Hbounds & _ & Hsorted). eauto.
Qed.

(** By-paragraphs is proposed only for more than 10 paragraphs. *)
Lemma paragraphs_suggested_many (source : text) (structure : StructureType) :
  sg_strategy (suggestStrategy source structure) = BY_PARAGRAPHS ->
  structure = PLAIN_TEXT /\
  (10 < Z.of_nat (length (filter (fun p => 0 <? len (trim p))
                                 (split_blank_lines source)))).
Proof.
  destruct structure; cbn [suggestStrategy sg_strategy]; try discriminate.
  destruct (Z.ltb_spec 10 (st_paragraphCount (getStatistics source))) as [Hlt|_].
  - intros _. split; [reflexivity|exact Hlt].
  - destruct (50000 <? st_length (getStatistics source)); discriminate.
Qed.

(** X16. Whatever the content and its structure tag, [decompose] run
    with the strategy and the options that [suggestStrategy] proposes
    returns (the proposal is never by-regex); its chunks lie in the text,
    in the order of their start offsets; and when the proposal is
    by-paragraphs there are more than 10 of them. *)
Theorem decompose_of_suggestion (E : Engine) (source : text)
  (structure : StructureType) :
  sg_strategy (suggestStrategy source structure) <> BY_REGEX /\
  exists chunks,
    decompose E source (sg_strategy (suggestStrategy source structure))
              (sg_options (suggestStrategy source structure))
    = Returned chunks /\
    Forall (in_bounds source) chunks /\
    starts_sorted chunks /\
    (sg_strategy (suggestStrategy source structure) = BY_PARAGRAPHS ->
     10 < len chunks).
Proof.
  assert (Hstrategy : sg_strategy (suggestStrategy source structure) <> BY_REGEX).
  { destruct structure; cbn [suggestStrategy sg_strategy]; try discriminate.
    destruct (10 <? st_paragraphCount (getStatistics source));
      [discriminate|].
    destruct (50000 <? st_length (getStatistics source)); discriminate. }
  split; [exact Hstrategy|].
  destruct (decompose_safe E source _ (sg_options (suggestStrategy source structure))
              Hstrategy) as (chunks & Hrun & Hbounds & Hsorted).
  { intros n. destruct structure; cbn [suggestStrategy sg_options chunkSize];
      try (intros H; inversion H; lia).
    destruct (10 <? st_paragraphCount (getStatistics source));
      [intros H; inversion H|].
    destruct (50000 <? st_length (getStatistics source));
      intros H; inversion H; lia. }
  exists chunks. repeat split; try assumption.
  intros Hpara.
  destruct (paragraphs_suggested_many source structure Hpara) as [Hplain Hmany].
  rewrite Hpara in Hrun. cbn [decompose] in Hrun. inversion Hrun; subst chunks.
  unfold len, decomposeByParagraphs.
  rewrite decomposeByParagraphs_forEach_length. exact Hmany.
Qed.

(** X17. The options [suggestStrategy] proposes for CSV content are 200
    lines per chunk with an overlap of 0; [decompose] run with them
    advances by 190 lines a chunk, not by 200: chunk [k] starts at line
    [190 * k], so each chunk repeats the last 10 lines of the one
    before. *)
Theorem csv_suggestion_overlaps (E : Engine) (source : text) :
  sg_options (suggestStrategy source CSV)
  = mkOptions None (Some 0) (Some 200) None None /\
  exists chunks,
    decompose E source (sg_strategy (suggestStrategy source CSV))
              (sg_options (suggestStrategy source CSV))
    = Returned chunks /\
    map (fun c => (index c, metadata c)) chunks
    = map (line_chunk_tag (len (split_lines source)) 200 190)
          (seq 0 (Z.to_nat (ceil_div (len (split_lines source)) 190))).
Proof.
  split; [reflexivity|].
  cbn [suggestStrategy sg_strategy sg_options decompose linesPerChunk overlap num_or].
  change (200 =? 0) with false. change (0 =? 0) with true. cbv iota.
  unfold decomposeByLines.
  destruct (decomposeByLines_loop_shape (split_lines source) 200 10
              (S (length (split_lines source))) O 0)
    as (chunks & Hrun & Htags & _).
  - reflexivity.
  - unfold len. lia.
  - exists chunks. split; [exact Hrun|]. rewrite Nat.sub_0_r in Htags. exact Htags.
Qed.

(** ** Sections *)

(** Every match the loop collects is one the matcher finds where the
    match is reported. *)
Lemma exec_all_sound (m : matcher) (s : text) (fuel : nat) :
  forall lastIndex found,
    exec_all fuel m s lastIndex = Returned found ->
    Forall (fun r => m (char_before s (fst r)) (skipn (fst r) s) = Some (snd r)) found.
Proof.
  induction fuel as [|fuel IH]; intros lastIndex found H; [discriminate|].
  cbn [exec_all] in H.
  destruct (exec m s lastIndex) as [[i f]|] eqn:Hexec.
  - destruct (exec_all fuel m s (i + found_length f)) as [rest| |] eqn:Hrest;
      cbn [bind] in H; try discriminate.
    inversion H; subst found. constructor.
    + apply exec_sound in Hexec. apply Hexec.
    + eapply IH. exact Hrest.
  - inversion H. constructor.
Qed.

Lemma decomposeBySections_loop_abuts (source : text) (matches : list SectionMatch) :
  forall index,
    abutting (decomposeBySections_loop source matches index) /\
    (matches <> [] ->
     endOffset (last (decomposeBySections_loop source matches index)
                     (mkChunk 0 [] 0 0 None))
     = len source).
Proof.
  induction matches as [|cur rest IH]; intros index; [split; [exact I|congruence]|].
  cbn [decomposeBySections_loop].
  destruct (IH (index + 1)) as [Habut Hlast].
  destruct rest as [|next rest'].
  - split; [exact I|]. intros _. reflexivity.
  - split.
    + cbn [decomposeBySections_loop] in *.
      cbn [abutting endOffset startOffset]. split; [reflexivity|exact Habut].
    + intros _. specialize (Hlast ltac:(discriminate)).
      cbn [decomposeBySections_loop] in *. exact Hlast.
Qed.

(** X18. The chunks of by-sections decomposition are never none, each
    ends where the next one starts, and the last one ends at the end of
    the text: from the first chunk's start on, the text is cut without
    gap or overlap. *)
Theorem decomposeBySections_abutting (source : text) :
  exists chunks,
    decomposeBySections source = Returned chunks /\
    chunks <> [] /\
    abutting chunks /\
    endOffset (last chunks (mkChunk 0 [] 0 0 None)) = len source.
Proof.
  unfold decomposeBySections.
  destruct (exec_all_chained section_at source section_at_progresses
              (S (length source)) O ltac:(lia)) as (found & Hrun & _).
  rewrite Hrun. cbn [bind].
  destruct (map to_SectionMatch found) as [|first rest] eqn:Hm.
  - eexists. split; [reflexivity|]. repeat split. discriminate.
  - destruct (decomposeBySections_loop_abuts source (first :: rest) 0)
      as [Habut0 Hlast0].
    destruct (decomposeBySections_loop_abuts source (first :: rest) 1)
      as [Habut1 Hlast1].
    specialize (Hlast0 ltac:(discriminate)).
    specialize (Hlast1 ltac:(discriminate)).
    destruct ((0 <? start first) && truthy (trim (slice source 0 (start first)))).
    + eexists. split; [reflexivity|]. split; [discriminate|]. split.
      * cbn [decomposeBySections_loop] in *.
        cbn [abutting endOffset startOffset]. split; [reflexivity|exact Habut1].
      * cbn [decomposeBySections_loop] in *. exact Hlast1.
    + eexists. split; [reflexivity|]. split; [|split; assumption].
      cbn [decomposeBySections_loop]. discriminate.
Qed.

Lemma section_match_at_header (source : text) (r : nat * Found) (index : Z)
  (endOffset_ : Z) :
  section_at (char_before source (fst r)) (skipn (fst r) source) = Some (snd r) ->
  section_starts_at_header source
    (mkChunk index (trim (slice source (start (to_SectionMatch r)) endOffset_))
             (start (to_SectionMatch r)) endOffset_
             (Some (SectionTag (level (to_SectionMatch r))
                               (title (to_SectionMatch r))))).
Proof.
  intros Hat. destruct r as [i f]. cbn [fst snd] in Hat.
  pose proof (section_at_header source i f Hat) as Hheader.
  apply section_at_inv in Hat.
  destruct Hat as (_ & hashes & ws & after & j & title_ & Hs & Hhashes & Hk
                   & Hws & Hj & _ & _ & Hf).
  subst f. unfold section_starts_at_header.
  cbn [metadata startOffset to_SectionMatch start level fst snd found_groups nth].
  rewrite Nat2Z.id. split; [lia|]. split; [exact Hheader|].
  split; [unfold len; lia|]. split.
  - intros p Hp. unfold len in Hp.
    replace (Z.to_nat (Z.of_nat i + p)) with (i + Z.to_nat p)%nat by lia.
    rewrite <- nth_error_skipn, Hs, nth_error_app1 by lia.
    destruct (nth_error hashes (Z.to_nat p)) as [h|] eqn:Hh.
    + apply nth_error_In in Hh. rewrite Forall_forall in Hhashes.
      apply Hhashes in Hh. unfold is_hash in Hh. apply N.eqb_eq in Hh.
      subst h. reflexivity.
    + apply nth_error_None in Hh. lia.
  - destruct ws as [|w ws]; [cbn [length] in Hj; lia|].
    inversion Hws as [|? ? Hw _]; subst.
    exists w. unfold len.
    replace (Z.to_nat (Z.of_nat i + Z.of_nat (length hashes)))
      with (i + length hashes)%nat by lia.
    rewrite <- nth_error_skipn, Hs, nth_error_app2 by lia.
    rewrite Nat.sub_diag. cbn [app nth_error].
    split; [reflexivity|]. split; [exact Hw|].
    intros ->. discriminate Hw.
Qed.

Lemma decomposeBySections_loop_headers (source : text) (found : list (nat * Found)) :
  Forall (fun r => section_at (char_before source (fst r)) (skipn (fst r) source)
                   = Some (snd r)) found ->
  forall index,
    Forall (section_starts_at_header source)
           (decomposeBySections_loop source (map to_SectionMatch found) index).
Proof.
  induction found as [|r rest IH]; intros Hall index; [constructor|].
  inversion Hall as [|? ? Hr Hrest]; subst.
  cbn [map decomposeBySections_loop]. constructor.
  - apply section_match_at_header. exact Hr.
  - apply IH. exact Hrest.
Qed.

(** The property fixes the level: two section tags at one start offset
    carry the same level. *)
Lemma section_level_determined (source : text) (c c' : Chunk)
  (level level' : Z) (title title' : text) :
  metadata c = Some (SectionTag level title) ->
  metadata c' = Some (SectionTag level' title') ->
  startOffset c = startOffset c' ->
  section_starts_at_header source c ->
  section_starts_at_header source c' ->
  level = level'.
Proof.
  unfold section_starts_at_header. intros -> -> Hstart.
  intros (_ & _ & Hl & Hmarks & w & Hw & _ & Hnot).
  intros (_ & _ & Hl' & Hmarks' & w' & Hw' & _ & Hnot').
  rewrite <- Hstart in *.
  destruct (Z.lt_trichotomy level level') as [Hlt|[Heq|Hgt]]; [|exact Heq|].
  - rewrite (Hmarks' level ltac:(lia)) in Hw. congruence.
  - rewrite (Hmarks level' ltac:(lia)) in Hw'. congruence.
Qed.

(** At the header [## T] the level is 2, and 1 is refused. *)
Example section_level_of_two_markers :
  section_starts_at_header (str "## T")
    (mkChunk 0 (str "## T") 0 4 (Some (SectionTag 2 (str "T")))) /\
  ~ section_starts_at_header (str "## T")
    (mkChunk 0 (str "## T") 0 4 (Some (SectionTag 1 (str "T")))).
Proof.
  split.
  - unfold section_starts_at_header. cbn [metadata startOffset].
    split; [lia|]. split.
    + split; [reflexivity|]. exists 2%nat, 1%nat, 84%N.
      split; [lia|]. split.
      * intros [|[|i]] Hi; [reflexivity|reflexivity|lia].
      * split; [lia|]. split.
        -- intros [|i] Hi; [|lia]. exists 32%N. split; reflexivity.
        -- split; reflexivity.
    + split; [lia|]. split.
      * intros i Hi. assert (Hc : i = 0 \/ i = 1) by lia.
        destruct Hc as [-> | ->]; reflexivity.
      * exists 32%N. split; [reflexivity|]. split; [reflexivity|discriminate].
  - unfold section_starts_at_header. cbn [metadata startOffset].
    intros (_ & _ & _ & _ & w & Hw & _ & Hnot).
    apply Hnot. vm_compute in Hw. congruence.
Qed.

(** X19. Every chunk that by-sections decomposition tags as a section
    starts at a header of the text, and its level is exactly the number
    of [#] at its start, between 1 and 6: the text has that many [#]
    from the chunk's start and a white-space code unit, not a further
    [#], right after them. *)
Theorem decomposeBySections_sections_are_headers (source : text) :
  exists chunks,
    decomposeBySections source = Returned chunks /\
    Forall (section_starts_at_header source) chunks.
Proof.
  unfold decomposeBySections.
  destruct (exec_all_chained section_at source section_at_progresses
              (S (length source)) O ltac:(lia)) as (found & Hrun & _).
  rewrite Hrun. cbn [bind].
  pose proof (exec_all_sound section_at source _ _ _ Hrun) as Hsound.
  pose proof (decomposeBySections_loop_headers source found Hsound) as Hloop.
  destruct (map to_SectionMatch found) as [|first rest] eqn:Hm.
  - eexists. split; [reflexivity|]. constructor; [exact I|constructor].
  - destruct ((0 <? start first) && truthy (trim (slice source 0 (start first)))).
    + eexists. split; [reflexivity|]. constructor; [exact I|apply Hloop].
    + eexists. split; [reflexivity|]. apply Hloop.
Qed.

(** ** Sentences *)

Lemma span_all_kept (p : char -> bool) (s : text) :
  Forall (fun c => p c = true) s -> span p s = (s, []).
Proof.
  induction s as [|c s IH]; intros H; [reflexivity|].
  inversion H as [|? ? Hc Hs]; subst. cbn [span]. rewrite Hc, (IH Hs). reflexivity.
Qed.

Lemma Forall_skipn {A : Type} (P : A -> Prop) (l : list A) (k : nat) :
  Forall P l -> Forall P (skipn k l).
Proof.
  intros H. apply Forall_forall. intros x Hin.
  rewrite Forall_forall in H. apply H.
  rewrite <- (firstn_skipn k l). apply in_or_app. right. exact Hin.
Qed.

(** X20. On a content with none of [.], [!] and [?],
    [decomposeBySentences] finds no sentence: it returns the whole
    content, trimmed, as one chunk from 0 to the length, or no chunk when
    the content is empty or all white space. *)
Theorem decomposeBySentences_no_terminator (source : text) :
  Forall (fun c => is_terminator c = false) source ->
  decomposeBySentences source
  = Returned (if truthy (trim source)
              then [mkChunk 0 (trim source) 0 (len source) None]
              else []).
Proof.
  intros Hno. unfold decomposeBySentences.
  assert (Hnone : exec sentence_at source 0 = None).
  { unfold exec. cbn [Nat.leb]. apply exec_from_none; [reflexivity|].
    intros i. unfold sentence_at.
    rewrite span_all_kept.
    - destruct (skipn i source); reflexivity.
    - apply Forall_skipn. eapply Forall_impl; [|exact Hno].
      cbv beta. intros c Hc. rewrite Hc. reflexivity. }
  cbn [exec_all]. rewrite Hnone. cbn [bind decomposeBySentences_loop].
  destruct (truthy (trim source)); reflexivity.
Qed.

Lemma decomposeBySentences_no_terminator_witness :
  Forall (fun c => is_terminator c = false) (str " no end ") /\
  decomposeBySentences (str " no end ")
  = Returned (if truthy (trim (str " no end "))
              then [mkChunk 0 (trim (str " no end ")) 0 (len (str " no end ")) None]
              else []).
Proof.
  assert (H : Forall (fun c => is_terminator c = false) (str " no end "))
    by (repeat constructor).
  split; [exact H|].
  exact (decomposeBySentences_no_terminator (str " no end ") H).
Defined.

Lemma decomposeBySentences_loop_disjoint (source : text) (found : list (nat * Found)) :
  forall from index,
    chained (length source) from found ->
    disjoint_in_order (decomposeBySentences_loop source found index).
Proof.
  induction found as [|[i f] rest IH]; intros from index Hchain; [exact I|].
  cbn [chained] in Hchain. destruct Hchain as (_ & _ & Hend & Hrest).
  cbn [decomposeBySentences_loop].
  destruct rest as [|[i' f'] rest']; [exact I|].
  pose proof (IH _ (index + 1) Hrest) as Htail.
  cbn [decomposeBySentences_loop] in *.
  cbn [disjoint_in_order endOffset startOffset]. split; [|exact Htail].
  cbn [chained] in Hrest.
  unfold len. rewrite length_firstn, length_skipn. lia.
Qed.

(** X21. The chunks of by-sentences decomposition do not overlap: each
    one ends at or before the start of the next. *)
Theorem decomposeBySentences_disjoint (source : text) :
  exists chunks,
    decomposeBySentences source = Returned chunks /\
    disjoint_in_order chunks.
Proof.
  unfold decomposeBySentences.
  destruct (exec_all_chained sentence_at source sentence_at_progresses
              (S (length source)) O ltac:(lia)) as (found & Hrun & Hchain).
  rewrite Hrun. cbn [bind].
  pose proof (decomposeBySentences_loop_disjoint source found O 0 Hchain) as Hdis.
  destruct (decomposeBySentences_loop source found 0) as [|c cs].
  - destruct (truthy (trim source)); eexists; (split; [reflexivity|exact I]).
  - eexists. split; [reflexivity|exact Hdis].
Qed.

(** ** [search] *)

(** X22. [search] never throws and never returns more than [maxResults]
    matches (500 when none is given), whatever the pattern, the flags and
    the engine's answers. *)
Theorem search_bounded (E : Engine) (source pattern : text) (options : SearchOptions) :
  exists results,
    search E source pattern options = Returned results /\
    len results <= Z.max 0 (default_to (maxResults options) MAX_SEARCH_RESULTS).
Proof.
  apply search_returns.
Qed.

Section SearchLoop.

Variable E : Engine.
Variable regex : RegExp E.
Variable source : text.
Variables contextChars maxResults_ : Z.
Variable lineNumbers : bool.

(** Every result is the one built from a match of the engine: its line
    number is one more than the number of newlines before the match, or 0
    when line numbers are off. *)
Lemma search_loop_line_numbers (fuel : nat) :
  forall lastIndex count results,
    search_loop fuel E regex source contextChars maxResults_ lineNumbers
                lastIndex count = Returned results ->
    Forall (fun r => sm_lineNumber r
                     = if lineNumbers
                       then 1 + Z.of_nat (count_occ N.eq_dec
                                            (slice source 0 (sm_index r)) LF)
                       else 0) results.
Proof.
  induction fuel as [|fuel IH]; intros lastIndex count results H; [discriminate|].
  cbn [search_loop] in H.
  destruct (RegExp_exec E regex source lastIndex) as [[m|] lastIndex'].
  2:{ inversion H. constructor. }
  destruct (count <? maxResults_); [|inversion H; constructor].
  match type of H with
  | context [search_loop fuel E regex source contextChars maxResults_
                         lineNumbers ?li (count + 1)] =>
      destruct (search_loop fuel E regex source contextChars maxResults_
                            lineNumbers li (count + 1)) as [rest| |] eqn:Hrest
  end; cbn [bind] in H; try discriminate.
  inversion H; subst results. constructor.
  - cbn [sm_lineNumber sm_index]. destruct lineNumbers; [|reflexivity].
    unfold len. rewrite length_split_lines. lia.
  - eapply IH. exact Hrest.
Qed.

(** When [exec] returns the same match whatever [lastIndex] is, the loop
    pushes it until [maxResults] is reached. *)
Lemma search_loop_repeats (m : ExecResult) (fuel : nat) :
  (forall lastIndex, fst (RegExp_exec E regex source lastIndex) = Some m) ->
  forall lastIndex count,
    Z.max 0 (maxResults_ - count) < Z.of_nat fuel ->
    search_loop fuel E regex source contextChars maxResults_ lineNumbers
                lastIndex count
    = Returned (repeat (search_result source contextChars lineNumbers m)
                       (Z.to_nat (maxResults_ - count))).
Proof.
  intros Hsame.
  induction fuel as [|fuel IH]; intros lastIndex count Hfuel;
    [exfalso; simpl in Hfuel; lia|].
  cbn [search_loop]. specialize (Hsame lastIndex).
  destruct (RegExp_exec E regex source lastIndex) as [o lastIndex'].
  cbn [fst] in Hsame. subst o.
  destruct (Z.ltb_spec count maxResults_) as [Hlt|Hge].
  - rewrite IH by lia. cbn [bind].
    replace (Z.to_nat (maxResults_ - count))
      with (S (Z.to_nat (maxResults_ - (count + 1)))) by lia.
    reflexivity.
  - replace (Z.to_nat (maxResults_ - count)) with O by lia. reflexivity.
Qed.

End SearchLoop.

(** X23. With flags that leave [exec] at the same match whatever
    [lastIndex] is, as flags without [g] and [y] do, [search] on a pattern
    that matches does not return the matches of the text: it returns
    [maxResults] copies of the first one. *)
Theorem search_without_g_repeats (E : Engine) (source pattern : text)
  (options : SearchOptions) (regex : RegExp E) (m : ExecResult) :
  RegExp_new E pattern (default_to (flags options) (str "gi")) = Some regex ->
  (forall lastIndex, fst (RegExp_exec E regex source lastIndex) = Some m) ->
  search E source pattern options
  = Returned
      (repeat (search_result source (default_to (contextChars options) 100)
                             (default_to (includeLineNumbers options) true) m)
              (Z.to_nat (default_to (maxResults options) MAX_SEARCH_RESULTS))).
Proof.
  intros Hnew Hsame. unfold search. rewrite Hnew.
  rewrite (search_loop_repeats E regex source _ _ _ m _ Hsame) by lia.
  rewrite Z.sub_0_r. reflexivity.
Qed.

Lemma search_without_g_repeats_witness :
  RegExp_new Sample.blank_engine default_pattern
             (default_to (flags no_g_options) (str "gi")) = Some false /\
  (forall lastIndex,
     fst (RegExp_exec Sample.blank_engine false two_blank_runs lastIndex)
     = Some (mkExecResult [LF; LF] 1 [])) /\
  search Sample.blank_engine two_blank_runs default_pattern no_g_options
  = Returned
      (repeat (search_result two_blank_runs
                             (default_to (contextChars no_g_options) 100)
                             (default_to (includeLineNumbers no_g_options) true)
                             (mkExecResult [LF; LF] 1 []))
              (Z.to_nat (default_to (maxResults no_g_options) MAX_SEARCH_RESULTS))).
Proof.
  assert (H1 : RegExp_new Sample.blank_engine default_pattern
                          (default_to (flags no_g_options) (str "gi")) = Some false)
    by reflexivity.
  assert (H2 : forall lastIndex,
             fst (RegExp_exec Sample.blank_engine false two_blank_runs lastIndex)
             = Some (mkExecResult [LF; LF] 1 []))
    by (intros lastIndex; reflexivity).
  split; [exact H1|]. split; [exact H2|].
  exact (search_without_g_repeats Sample.blank_engine two_blank_runs default_pattern
           no_g_options false (mkExecResult [LF; LF] 1 []) H1 H2).
Defined.

(** X24. The line number of every match [search] returns is one more
    than the number of newlines of the text before the match index, and 0
    when line numbers are not asked for. *)
Theorem search_line_numbers (E : Engine) (source pattern : text)
  (options : SearchOptions) :
  exists results,
    search E source pattern options = Returned results /\
    Forall (fun r => sm_lineNumber r
                     = if default_to (includeLineNumbers options) true
                       then 1 + Z.of_nat (count_occ N.eq_dec
                                            (slice source 0 (sm_index r)) LF)
                       else 0) results.
Proof.
  destruct (search_returns E source pattern options) as (results & Hrun & _).
  exists results. split; [exact Hrun|].
  unfold search in Hrun.
  destruct (RegExp_new E pattern (default_to (flags options) (str "gi")))
    as [regex|]; cbn [try_catch] in Hrun.
  - match type of Hrun with
    | try_catch ?body _ = _ => destruct body as [rs| |] eqn:Hloop
    end; cbn [try_catch] in Hrun; inversion Hrun; subst.
    + eapply search_loop_line_numbers. exact Hloop.
    + constructor.
  - inversion Hrun. constructor.
Qed.

(** ** [findAll] and the [rlm_find_all] handler *)

Lemma starts_with_firstn (s t : text) :
  starts_with s t = true -> firstn (length t) s = t.
Proof.
  intros H. apply starts_with_prefix in H. destruct H as [r ->].
  rewrite firstn_app, firstn_all, Nat.sub_diag. cbn [firstn]. apply app_nil_r.
Qed.

(** A successful [indexOf] of a non-empty string is an occurrence at or
    after the start position. *)
Lemma indexOf_occurs (s t : text) (from : Z) :
  t <> [] -> 0 <= from -> indexOf s t from <> -1 ->
  from <= indexOf s t from /\ occurs_at s t (indexOf s t from).
Proof.
  intros Ht Hfrom Hfound.
  destruct (indexOf_range s t from Ht Hfrom) as [Hnone|[Hge Hend]]; [contradiction|].
  split; [exact Hge|]. unfold occurs_at. split; [lia|]. split; [exact Hend|].
  pose proof (len_nonneg t) as Hlen.
  rewrite slice_inside by lia.
  replace (Z.to_nat (indexOf s t from + len t - indexOf s t from))
    with (length t) by (unfold len; lia).
  revert Hfound Hge Hend. unfold indexOf.
  set (k := Z.to_nat (Z.min (Z.max from 0) (len s))).
  destruct (index_in (skipn k s) t) as [i|] eqn:Hi; [|congruence].
  intros _ _ _. apply index_in_occurs in Hi. destruct Hi as [Hst _].
  rewrite skipn_skipn in Hst. rewrite Nat2Z.id, Nat.add_comm.
  apply starts_with_firstn. exact Hst.
Qed.

Section FindAllLoop.

Variables searchContent searchTerm : text.
Hypothesis term_not_empty : searchTerm <> [].

(** Every offset the loop returns is an occurrence of the term. *)
Lemma findAll_loop_sound (fuel : nat) :
  forall index offsets,
    0 <= index ->
    findAll_loop fuel searchContent searchTerm index = Returned offsets ->
    Forall (occurs_at searchContent searchTerm) offsets.
Proof.
  induction fuel as [|fuel IH]; intros index offsets Hindex H; [discriminate|].
  cbn [findAll_loop] in H.
  destruct (Z.eqb_spec (indexOf searchContent searchTerm index) (-1)) as [_|Hfound].
  - inversion H. constructor.
  - destruct (indexOf_occurs searchContent searchTerm index term_not_empty
                Hindex Hfound) as [Hge Hocc].
    destruct (findAll_loop fuel searchContent searchTerm
                (indexOf searchContent searchTerm index + len searchTerm))
      as [rest| |] eqn:Hrest; cbn [bind] in H; try discriminate.
    inversion H; subst offsets. constructor; [exact Hocc|].
    eapply IH; [|exact Hrest]. pose proof (len_nonneg searchTerm). lia.
Qed.

(** An occurrence at or after the scan position is returned, or starts
    inside an occurrence that is. *)
Lemma findAll_loop_complete (fuel : nat) :
  forall index offsets k,
    0 <= index <= k ->
    occurs_at searchContent searchTerm k ->
    findAll_loop fuel searchContent searchTerm index = Returned offsets ->
    exists o, In o offsets /\ o <= k < o + len searchTerm.
Proof.
  induction fuel as [|fuel IH]; intros index offsets k Hindex Hocc H; [discriminate|].
  cbn [findAll_loop] in H.
  destruct Hocc as (Hk & Hroom & Hslice).
  pose proof (len_nonneg searchTerm) as Hlen.
  assert (Hfirst : index <= indexOf searchContent searchTerm index <= k).
  { destruct (indexOf_forward searchContent searchTerm index (Z.to_nat k))
      as [Hrange _].
    - lia.
    - rewrite slice_inside in Hslice by lia.
      replace (Z.to_nat (k + len searchTerm - k)) with (length searchTerm) in Hslice
        by (unfold len; lia).
      exact Hslice.
    - unfold len in *. lia.
    - lia. }
  destruct (Z.eqb_spec (indexOf searchContent searchTerm index) (-1)) as [Hnone|_];
    [lia|].
  destruct (findAll_loop fuel searchContent searchTerm
              (indexOf searchContent searchTerm index + len searchTerm))
    as [rest| |] eqn:Hrest; cbn [bind] in H; try discriminate.
  inversion H; subst offsets.
  destruct (Z.lt_ge_cases k (indexOf searchContent searchTerm index + len searchTerm))
    as [Hinside|Hafter].
  - exists (indexOf searchContent searchTerm index). split; [left; reflexivity|lia].
  - destruct (IH (indexOf searchContent searchTerm index + len searchTerm) rest k
                 ltac:(lia) (conj Hk (conj Hroom Hslice)) Hrest)
      as (o & Hin & Ho).
    exists o. split; [right; exact Hin|exact Ho].
Qed.

End FindAllLoop.

(** X25. For a non-empty search term, every offset in the response of
    [rlm_find_all] is a position where the term occurs in the content
    (both lowercased unless the search is case sensitive), and [count] is
    the number of offsets. *)
Theorem rlm_find_all_offsets_occur (toLowerCase : text -> text) (ctx : Context)
  (params : FindAllInput) :
  (if fa_case_sensitive params then fa_substring params
   else toLowerCase (fa_substring params)) <> [] ->
  exists out,
    rlm_find_all toLowerCase (Some ctx) params = Returned (FindAllOk out) /\
    fo_count out = len (fo_offsets out) /\
    Forall (occurs_at
              (if fa_case_sensitive params then context_content ctx
               else toLowerCase (context_content ctx))
              (if fa_case_sensitive params then fa_substring params
               else toLowerCase (fa_substring params)))
           (fo_offsets out).
Proof.
  intros Hterm. unfold rlm_find_all, findAll.
  set (searchContent := if fa_case_sensitive params then context_content ctx
                        else toLowerCase (context_content ctx)) in *.
  set (searchTerm := if fa_case_sensitive params then fa_substring params
                     else toLowerCase (fa_substring params)) in *.
  destruct (findAll_loop_spec searchContent searchTerm
              (S (S (length searchContent))) Hterm 0 ltac:(lia))
    as (offsets & Hrun & _).
  { unfold len. lia. }
  rewrite Hrun. cbn [bind]. eexists. split; [reflexivity|].
  cbn [fo_count fo_offsets]. split; [reflexivity|].
  eapply findAll_loop_sound; [exact Hterm| |exact Hrun]. lia.
Qed.

Lemma rlm_find_all_offsets_occur_witness :
  (if fa_case_sensitive (mkFindAllInput (str "main") (str "B") false)
   then fa_substring (mkFindAllInput (str "main") (str "B") false)
   else Sample.ascii_lower (fa_substring (mkFindAllInput (str "main") (str "B") false)))
  <> [] /\
  exists out,
    rlm_find_all Sample.ascii_lower (Some abc_context)
                 (mkFindAllInput (str "main") (str "B") false)
    = Returned (FindAllOk out) /\
    fo_count out = len (fo_offsets out) /\
    Forall (occurs_at
              (if fa_case_sensitive (mkFindAllInput (str "main") (str "B") false)
               then context_content abc_context
               else Sample.ascii_lower (context_content abc_context))
              (if fa_case_sensitive (mkFindAllInput (str "main") (str "B") false)
               then fa_substring (mkFindAllInput (str "main") (str "B") false)
               else Sample.ascii_lower
                      (fa_substring (mkFindAllInput (str "main") (str "B") false))))
           (fo_offsets out).
Proof.
  assert (H : (if fa_case_sensitive (mkFindAllInput (str "main") (str "B") false)
               then fa_substring (mkFindAllInput (str "main") (str "B") false)
               else Sample.ascii_lower
                      (fa_substring (mkFindAllInput (str "main") (str "B") false)))
              <> [])
    by (vm_compute; discriminate).
  split; [exact H|].
  exact (rlm_find_all_offsets_occur Sample.ascii_lower abc_context
           (mkFindAllInput (str "main") (str "B") false) H).
Defined.

(** X26. [findAll] misses no occurrence but the overlapping ones: for a
    non-empty search term, every position where the term occurs in the
    content is one of the returned offsets or lies inside the occurrence
    that starts at one of them. *)
Theorem findAll_complete_up_to_overlap (toLowerCase : text -> text)
  (source substring : text) (caseSensitive : bool) (k : Z) :
  (if caseSensitive then substring else toLowerCase substring) <> [] ->
  occurs_at (if caseSensitive then source else toLowerCase source)
            (if caseSensitive then substring else toLowerCase substring) k ->
  exists offsets o,
    findAll toLowerCase source substring caseSensitive = Returned offsets /\
    In o offsets /\
    o <= k < o + len (if caseSensitive then substring else toLowerCase substring).
Proof.
  intros Hterm Hocc. unfold findAll.
  set (searchContent := if caseSensitive then source else toLowerCase source) in *.
  set (searchTerm := if caseSensitive then substring else toLowerCase substring) in *.
  destruct (findAll_loop_spec searchContent searchTerm
              (S (S (length searchContent))) Hterm 0 ltac:(lia))
    as (offsets & Hrun & _).
  { unfold len. lia. }
  destruct (findAll_loop_complete searchContent searchTerm
              (S (S (length searchContent))) 0 offsets k)
    as (o & Hin & Ho); try assumption.
  { destruct Hocc as [Hk _]. lia. }
  exists offsets, o. split; [exact Hrun|]. split; [exact Hin|exact Ho].
Qed.

Lemma findAll_complete_up_to_overlap_witness :
  (if true then str "aa" else Sample.ascii_lower (str "aa")) <> [] /\
  occurs_at (if true then str "aaa" else Sample.ascii_lower (str "aaa"))
            (if true then str "aa" else Sample.ascii_lower (str "aa")) 1 /\
  exists offsets o,
    findAll Sample.ascii_lower (str "aaa") (str "aa") true = Returned offsets /\
    In o offsets /\
    o <= 1 < o + len (if true then str "aa" else Sample.ascii_lower (str "aa")).
Proof.
  assert (H1 : (if true then str "aa" else Sample.ascii_lower (str "aa")) <> [])
    by (vm_compute; discriminate).
  assert (H2 : occurs_at (if true then str "aaa" else Sample.ascii_lower (str "aaa"))
                         (if true then str "aa" else Sample.ascii_lower (str "aa")) 1).
  { unfold occurs_at. vm_compute. repeat split; discriminate. }
  split; [exact H1|]. split; [exact H2|].
  exact (findAll_complete_up_to_overlap Sample.ascii_lower (str "aaa") (str "aa")
           true 1 H1 H2).
Defined.




(** ** [decompose], across strategies *)

(** X28. For the fixed-size, by-lines, by-sections and by-sentences
    strategies, [decompose] always returns; the k-th chunk it returns has
    index [k], and the start offsets never decrease. *)
Theorem decompose_counted_strategies (E : Engine) (source : text)
  (strategy : DecompositionStrategy) (options : Options) :
  strategy <> BY_REGEX -> strategy <> BY_PARAGRAPHS ->
  exists chunks,
    decompose E source strategy options = Returned chunks /\
    indexed_from 0 chunks /\
    starts_sorted chunks.
Proof.
  intros Hregex Hpara.
  destruct (decompose_indexed_and_sorted E source strategy options Hregex)
    as (chunks & Hrun & Hsorted & Hidx).
  exists chunks. split; [exact Hrun|]. split; [exact (Hidx Hpara)|exact Hsorted].
Qed.

Lemma decompose_counted_strategies_witness :
  BY_SENTENCES <> BY_REGEX /\ BY_SENTENCES <> BY_PARAGRAPHS /\
  exists chunks,
    decompose Sample.blank_engine (str "One. Two! Three?") BY_SENTENCES no_options
    = Returned chunks /\
    indexed_from 0 chunks /\
    starts_sorted chunks.
Proof.
  assert (H1 : BY_SENTENCES <> BY_REGEX) by discriminate.
  assert (H2 : BY_SENTENCES <> BY_PARAGRAPHS) by discriminate.
  split; [exact H1|]. split; [exact H2|].
  exact (decompose_counted_strategies Sample.blank_engine (str "One. Two! Three?")
           BY_SENTENCES no_options H1 H2).
Defined.

(** X29. Without a pattern, or with the empty pattern, the by-regex
    strategy splits on ['\n\n+']: on an engine that treats that pattern as
    JavaScript does, it returns what the by-paragraphs strategy returns. *)
Theorem by_regex_default_is_by_paragraphs (E : Engine) (source : text)
  (options : Options) :
  knows_default_pattern E ->
  pattern options = None \/ pattern options = Some [] ->
  decompose E source BY_REGEX options = decompose E source BY_PARAGRAPHS options.
Proof.
  intros (regex & Hnew & Hsplit) Hpat. cbn [decompose].
  assert (Hdefault : str_or (pattern options) default_pattern = default_pattern)
    by (destruct Hpat as [-> | ->]; reflexivity).
  rewrite Hdefault. unfold decomposeByRegex.
  rewrite Hnew, Hsplit, decomposeByRegex_forEach_defined. reflexivity.
Qed.

Lemma by_regex_default_is_by_paragraphs_witness :
  knows_default_pattern Sample.blank_engine /\
  (pattern no_options = None \/ pattern no_options = Some []) /\
  decompose Sample.blank_engine blank_then_abc BY_REGEX no_options
  = decompose Sample.blank_engine blank_then_abc BY_PARAGRAPHS no_options.
Proof.
  assert (H1 : knows_default_pattern Sample.blank_engine)
    by (exists true; split; reflexivity).
  assert (H2 : pattern no_options = None \/ pattern no_options = Some [])
    by (left; reflexivity).
  split; [exact H1|]. split; [exact H2|].
  exact (by_regex_default_is_by_paragraphs Sample.blank_engine blank_then_abc
           no_options H1 H2).
Defined.

(** ** Paragraph chunks *)

Lemma decomposeByParagraphs_forEach_contents (source : text) (parts : list text) :
  forall index offset k,
    pieces source k parts ->
    0 <= offset <= Z.of_nat k ->
    Forall (fun c => content c <> [] /\
                     content c
                     = trim (extractRange source (startOffset c) (endOffset c)))
           (decomposeByParagraphs_forEach source parts index offset).
Proof.
  induction parts as [|p ps IH]; intros index offset k Hpieces Hoff; [constructor|].
  destruct (pieces_tail _ _ _ _ Hpieces) as (k' & Hk' & Htail).
  destruct Hpieces as (Hocc & Hlen & _).
  cbn [decomposeByParagraphs_forEach].
  destruct (truthy (trim p)) eqn:Htruthy.
  - pose proof (indexOf_forward source p offset k Hoff Hocc Hlen) as [Hidx Hend].
    assert (Hp : p <> []) by (intros ->; discriminate Htruthy).
    destruct (indexOf_occurs source p offset Hp ltac:(lia) ltac:(lia))
      as [_ (_ & _ & Hslice)].
    constructor.
    + cbn [content startOffset endOffset]. split.
      * intros Hnil. rewrite Hnil in Htruthy. discriminate Htruthy.
      * unfold extractRange. rewrite Hslice. reflexivity.
    + apply (IH (index + 1) (indexOf source p offset + len p) k' Htail).
      unfold len in *. lia.
  - apply (IH (index + 1) offset k' Htail). lia.
Qed.

(** X30. No by-paragraphs chunk is empty, and the content of each is the
    slice of the text between its start and end offsets, trimmed. *)
Theorem decomposeByParagraphs_contents (E : Engine) (source : text) (options : Options) :
  exists chunks,
    decompose E source BY_PARAGRAPHS options = Returned chunks /\
    Forall (fun c => content c <> [] /\
                     content c
                     = trim (extractRange source (startOffset c) (endOffset c)))
           chunks.
Proof.
  eexists. split; [reflexivity|]. unfold decomposeByParagraphs.
  apply (decomposeByParagraphs_forEach_contents source _ 0 0 O
           (split_blank_lines_pieces source)).
  lia.
Qed.
